(** * MailSentinel core: profile registry, decision resolver, classifier
    response parsing and audit chain

    A shallow embedding of the Go sources
      - [internal/profile] (the loader: [LoadAll], [buildDependencyGraph],
        [topologicalSort], [resolveInheritance], [mergeWithParent],
        [validateProfile], [GetProfile], [ListProfiles]),
      - [internal/resolver/resolver.go] ([ResolveDecision] and its helpers),
      - the Ollama client ([parseClassificationResponse],
        [buildClassificationPrompt]),
      - [internal/audit/logger.go] ([NewLogger], [initializeChain], the log
        operations, [VerifyChain], [Close]),
    together with the properties of the specification that concern them
    and further properties of the code.

    Conventions.
      - [float64] is Rocq's primitive binary64 [float]; Go's [<], [>], [<=],
        [>=] are [PrimFloat.ltb] and [PrimFloat.leb] (false on NaN), and
        every arithmetic operation is rounded on its own (no fused
        multiply-add, as the compiler does on amd64).
      - Go's [int] is [Z]; the only counters that are incremented are bounded
        by the length of a slice, so the 64-bit wrap-around is never reached.
      - A Go [map] is a [gmap]; reading a missing key gives the zero value
        of the element type ([getInt], [getFloat], [getList]).  A [range] over a map visits every key once, in an order
        the runtime picks afresh for every loop: each such loop takes a
        [seed] from which the order is derived ([rangeKeys]).
      - Pointers to profiles and responses are modelled by their values; a
        function that mutates its receiver returns the new state.  A slice
        is the list of its elements: [append] is concatenation.  Go may
        build the result in the spare capacity of its first argument, so
        that the few-shot and policy-condition lists of sibling profiles
        can share a backing array; no property below depends on the
        elements of these lists once another profile's merge has run.
      - Logging calls have no effect on the results and are left out. *)

From Stdlib Require Import ZArith String Ascii Floats Lia.
From stdpp Require Import base option list gmap strings fin_maps relations pretty sorting.

Set Warnings "-inexact-float,-register-all,-clear-no-such-hyp".

(* ===================================================================== *)
(** ** Go runtime conventions *)
(* ===================================================================== *)

(** The order of one [range] loop over a map: the choices of the runtime. *)
Definition seed := list nat.

(** [pickOrder n cs l]: pick the element at index [hd cs mod length l],
    remove it, and go on with the rest of the choices. *)
Fixpoint pickOrder {A : Type} (n : nat) (cs : seed) (l : list A) : list A :=
  match n with
  | O => []
  | S n' =>
    let i := (hd 0 cs mod length l)%nat in
    match l !! i with
    | Some x => x :: pickOrder n' (tl cs) (delete i l)
    | None => []
    end
  end.

Definition shuffle {A : Type} (cs : seed) (l : list A) : list A :=
  pickOrder (length l) cs l.

(** The keys of a map, in the order of stdpp's [map_to_list]. *)
Definition keys {V : Type} (m : gmap string V) : list string := (map_to_list m).*1.

(** The keys of a map, in the order one [range] loop visits them. *)
Definition rangeKeys {V : Type} (cs : seed) (m : gmap string V) : list string :=
  shuffle cs (keys m).

(** Reading a map at a key it may lack: the zero value of the element type. *)
Definition getInt (m : gmap string Z) (k : string) : Z := default 0%Z (m !! k).

Definition getFloat (m : gmap string float) (k : string) : float :=
  default 0%float (m !! k).

Definition getList {A : Type} (m : gmap string (list A)) (k : string) : list A :=
  default [] (m !! k).

(** Result of a Go function returning [(T, error)]. *)
Inductive result (E A : Type) : Type :=
| Ok (a : A)
| Err (e : E).
Arguments Ok {E A} a.
Arguments Err {E A} e.

Definition isOk {E A : Type} (r : result E A) : bool :=
  match r with Ok _ => true | Err _ => false end.

(** Values that [encoding/json] and [yaml] decode into [interface{}]. *)
Inductive json : Type :=
| JNull
| JBool (b : bool)
| JNum (f : float)
| JStr (s : string)
| JArr (l : list json)
| JObj (m : gmap string json).

(** [strings.Contains]. *)
Fixpoint Contains (s substr : string) : bool :=
  if String.prefix substr s then true
  else match s with
       | EmptyString => false
       | String _ s' => Contains s' substr
       end.

(** [strings.HasSuffix]. *)
Definition HasSuffix (s suffix : string) : bool :=
  let n := String.length s in
  let k := String.length suffix in
  (k <=? n)%nat && String.eqb (String.substring (n - k) k s) suffix.

(** [strings.Index]: the byte offset of the first occurrence, [-1] if none. *)
Fixpoint IndexFrom (i : Z) (s substr : string) : Z :=
  if String.prefix substr s then i
  else match s with
       | EmptyString => (-1)%Z
       | String _ s' => IndexFrom (i + 1) s' substr
       end.

Definition Index (s substr : string) : Z := IndexFrom 0 s substr.

(** [strings.LastIndex]: the byte offset of the last occurrence, [-1] if none. *)
Fixpoint LastIndexFrom (i : Z) (s substr : string) : Z :=
  match s with
  | EmptyString => if String.prefix substr s then i else (-1)%Z
  | String _ s' =>
    let later := LastIndexFrom (i + 1) s' substr in
    if (0 <=? later)%Z then later
    else if String.prefix substr s then i else (-1)%Z
  end.

Definition LastIndex (s substr : string) : Z := LastIndexFrom 0 s substr.

(** The slice expression [s[lo:hi]] on in-range offsets. *)
Definition slice (s : string) (lo hi : Z) : string :=
  String.substring (Z.to_nat lo) (Z.to_nat (hi - lo)) s.

(* ===================================================================== *)
(** ** pkg/types *)
(* ===================================================================== *)

Module types.

Record ModelParams : Type := {
  Temperature : float;
  MaxTokens : Z;
  TimeoutSeconds : Z;
  TopP : float;
  TopK : Z
}.

Record ValidationConfig : Type := {
  RequiredFields : list string;
  ConfidenceRange : float * float;
  AllowedActions : list string
}.

Record ResponseConfig : Type := {
  Schema : string;
  Validation : ValidationConfig
}.

Record FewShotExample : Type := {
  fs_Name : string;
  fs_Input : string;
  fs_Output : string
}.

Record PolicyCondition : Type := {
  pc_Name : string;
  pc_Expression : string;
  pc_Actions : list string;
  pc_Priority : Z
}.

Record PolicyConfig : Type := {
  Conditions : list PolicyCondition
}.

Record ConditionalExecution : Type := {
  When : string;
  ce_Reason : string
}.

Record Profile : Type := {
  ID : string;
  Version : string;
  InheritsFrom : string;
  DependsOn : list string;
  ConditionalExec : option ConditionalExecution;
  Model : string;
  Params : ModelParams;
  Response : ResponseConfig;
  System : string;
  FewShot : list FewShotExample;
  Policy : PolicyConfig;
  CreatedAt : Z;
  UpdatedAt : Z
}.

Record ProfileRegistry : Type := {
  Profiles : gmap string Profile;
  Dependencies : gmap string (list string);
  LoadOrder : list string
}.

Record Email : Type := {
  em_ID : string;
  em_Subject : string;
  em_From : string;
  em_To : list string;
  em_Body : string;
  em_Labels : list string;
  em_Headers : gmap string string;
  em_Size : Z
}.

Record ClassificationResponse : Type := {
  ProfileID : string;
  Action : string;
  Confidence : float;
  Reasoning : string;
  Labels : list string;
  Metadata : gmap string json;
  ProcessedAt : Z
}.

Record PriorityRule : Type := {
  pr_Name : string;
  pr_Condition : string;
  pr_Action : string;
  pr_ConfidenceBoost : float;
  pr_Priority : Z;
  pr_Reason : string
}.

Record ConfidenceWeighting : Type := {
  Method : string;
  ProfileWeights : gmap string float
}.

Record ResolverConfig : Type := {
  rc_Version : string;
  PriorityRules : list PriorityRule;
  Weighting : ConfidenceWeighting;
  ConflictResolution : gmap string string
}.

End types.

(* ===================================================================== *)
(** ** internal/profile: the loader *)
(* ===================================================================== *)

Module profile.
Import types.

(** The messages of [validateProfile]. *)
Inductive ValidationError : Type :=
| IDRequired
| VersionRequired
| ModelRequired
| SystemRequired
| ConfidenceRangeBounds
| ConfidenceRangeOrder
| TemperatureRange
| MaxTokensPositive
| TimeoutPositive.

(** The errors of the loader; a constructor that carries an error wraps it
    (the [%w] of [fmt.Errorf]). *)
Inductive LoadError : Type :=
| FindFilesFailed
| ReadFailed (file : string)
| ParseFailed (file : string)
| ValidationFailed (file : string) (e : ValidationError)
| DependencyNotFound (dep id : string)
| CircularDependency
| ParentNotFound (parent id : string)
| NilProfile (id : string)
| BuildGraphFailed (e : LoadError)
| ResolveFailed (e : LoadError).

Record Loader : Type := {
  directory : string;
  registry : ProfileRegistry;
  cache : gmap string Profile
}.

Definition NewLoader (dir : string) : Loader :=
  {| directory := dir;
     registry := {| Profiles := ∅; Dependencies := ∅; LoadOrder := [] |};
     cache := ∅ |}.

(** [validateProfile].  The length test on [ConfidenceRange] is on a
    [[2]float64] and can never fail. *)
Definition validateProfile (p : Profile) : option ValidationError :=
  let lo := fst (ConfidenceRange (Validation (Response p))) in
  let hi := snd (ConfidenceRange (Validation (Response p))) in
  if String.eqb (ID p) "" then Some IDRequired
  else if String.eqb (Version p) "" then Some VersionRequired
  else if String.eqb (Model p) "" then Some ModelRequired
  else if String.eqb (System p) "" then Some SystemRequired
  else if (lo <? 0)%float || (1 <? hi)%float then Some ConfidenceRangeBounds
  else if (hi <=? lo)%float then Some ConfidenceRangeOrder
  else if (Temperature (Params p) <? 0)%float || (2 <? Temperature (Params p))%float
       then Some TemperatureRange
  else if (MaxTokens (Params p) <=? 0)%Z then Some MaxTokensPositive
  else if (TimeoutSeconds (Params p) <=? 0)%Z then Some TimeoutPositive
  else None.

(** [mergeWithParent]: the child as it is when the call returns (the Go
    function mutates [child] in place and always returns a nil error). *)
Definition mergeWithParent (child parent : Profile) : Profile :=
  let cp := Params child in
  let pp := Params parent in
  let cv := Validation (Response child) in
  let pv := Validation (Response parent) in
  {| ID := ID child;
     Version := Version child;
     InheritsFrom := InheritsFrom child;
     DependsOn := DependsOn child;
     ConditionalExec := ConditionalExec child;
     Model := Model child;
     Params :=
       {| Temperature :=
            if (Temperature cp =? 0)%float then Temperature pp else Temperature cp;
          MaxTokens := if (MaxTokens cp =? 0)%Z then MaxTokens pp else MaxTokens cp;
          TimeoutSeconds :=
            if (TimeoutSeconds cp =? 0)%Z then TimeoutSeconds pp else TimeoutSeconds cp;
          TopP := TopP cp;
          TopK := TopK cp |};
     Response :=
       {| Schema := Schema (Response child);
          Validation :=
            {| RequiredFields :=
                 if (length (RequiredFields cv) =? 0)%nat
                 then RequiredFields pv else RequiredFields cv;
               ConfidenceRange :=
                 if (fst (ConfidenceRange cv) =? 0)%float
                    && (snd (ConfidenceRange cv) =? 0)%float
                 then ConfidenceRange pv else ConfidenceRange cv;
               AllowedActions := AllowedActions cv |} |};
     System :=
       if String.eqb (System child) "" then System parent
       else if negb (String.eqb (System parent) "")
            then System parent +:+ String "010" (String "010" (System child))
            else System child;
     FewShot :=
       if (0 <? length (FewShot parent))%nat
       then FewShot parent ++ FewShot child else FewShot child;
     Policy :=
       {| Conditions :=
            if (0 <? length (Conditions (Policy parent)))%nat
            then Conditions (Policy parent) ++ Conditions (Policy child)
            else Conditions (Policy child) |};
     CreatedAt := CreatedAt child;
     UpdatedAt := UpdatedAt child |}.

(** The dependency list [buildDependencyGraph] records for a profile:
    [inherits_from] (if set) followed by [depends_on]. *)
Definition depsOf (p : Profile) : list string :=
  (if String.eqb (InheritsFrom p) "" then [] else [InheritsFrom p]) ++ DependsOn p.

(** *** Kahn's algorithm ([topologicalSort]) *)

Record Graph : Type := {
  inDegree : gmap string Z;
  adjList : gmap string (list string)
}.

(** [inDegree[id] = 0; adjList[id] = make([]string, 0)] for every profile. *)
Definition initGraph (ids : list string) : Graph :=
  foldl (λ g id, {| inDegree := <[id := 0%Z]> (inDegree g);
                    adjList := <[id := []]> (adjList g) |})
        {| inDegree := ∅; adjList := ∅ |} ids.

(** The inner loop [for _, dep := range deps]: stops at the first
    dependency that is not a profile. *)
Fixpoint addDeps (profiles : gmap string Profile) (id : string)
    (deps : list string) (g : Graph) : result LoadError Graph :=
  match deps with
  | [] => Ok g
  | dep :: rest =>
    match profiles !! dep with
    | None => Err (DependencyNotFound dep id)
    | Some _ =>
      addDeps profiles id rest
        {| adjList := <[dep := getList (adjList g) dep ++ [id]]> (adjList g);
           inDegree := <[id := (getInt (inDegree g) id + 1)%Z]> (inDegree g) |}
    end
  end.

(** The loop [for id, deps := range l.registry.Dependencies]. *)
Fixpoint buildGraph (profiles : gmap string Profile)
    (dependencies : gmap string (list string)) (ids : list string) (g : Graph)
    : result LoadError Graph :=
  match ids with
  | [] => Ok g
  | id :: rest =>
    match addDeps profiles id (getList dependencies id) g with
    | Err e => Err e
    | Ok g' => buildGraph profiles dependencies rest g'
    end
  end.

(** The loop [for _, neighbor := range adjList[current]]. *)
Fixpoint relax (neighbors : list string) (deg : gmap string Z) (queue : list string)
    : gmap string Z * list string :=
  match neighbors with
  | [] => (deg, queue)
  | neighbor :: rest =>
    let d := (getInt deg neighbor - 1)%Z in
    relax rest (<[neighbor := d]> deg)
          (if (d =? 0)%Z then queue ++ [neighbor] else queue)
  end.

(** The loop [for len(queue) > 0]; [None] when [fuel] iterations were not
    enough. *)
Fixpoint processQueue (fuel : nat) (adj : gmap string (list string))
    (deg : gmap string Z) (queue result : list string) : option (list string) :=
  match queue with
  | [] => Some result
  | current :: queue' =>
    match fuel with
    | O => None
    | S fuel' =>
      let '(deg', queue'') := relax (getList adj current) deg queue' in
      processQueue fuel' adj deg' queue'' (result ++ [current])
    end
  end.

(** The number of iterations the queue loop can still make: every
    iteration pops one entry, and an entry is pushed only when a positive
    in-degree is decremented. *)
Definition degreeSum (deg : gmap string Z) : nat :=
  map_fold (λ _ d acc, (Z.to_nat d + acc)%nat) 0%nat deg.

Definition potential (deg : gmap string Z) (queue : list string) : nat :=
  (length queue + degreeSum deg)%nat.

(** The queue loop run to completion ([processQueue_potential] below shows
    that the fuel given here always suffices). *)
Definition runQueue (adj : gmap string (list string)) (deg : gmap string Z)
    (queue : list string) : list string :=
  default [] (processQueue (potential deg queue) adj deg queue []).

(** The runtime's choices for the map loops of one [LoadAll]. *)
Record Sched : Type := {
  s_build : seed;   (* [range profiles] in buildDependencyGraph *)
  s_init : seed;    (* [range profiles] in topologicalSort *)
  s_graph : seed;   (* [range l.registry.Dependencies] *)
  s_queue : seed    (* [range inDegree] *)
}.

Definition topologicalSort (sd : Sched) (dependencies : gmap string (list string))
    (profiles : gmap string Profile) : result LoadError (list string) :=
  let g0 := initGraph (rangeKeys (s_init sd) profiles) in
  match buildGraph profiles dependencies (rangeKeys (s_graph sd) dependencies) g0 with
  | Err e => Err e
  | Ok g =>
    let queue :=
      filter (λ id, getInt (inDegree g) id = 0%Z) (rangeKeys (s_queue sd) (inDegree g)) in
    let result := runQueue (adjList g) (inDegree g) queue in
    if (length result =? size profiles)%nat then Ok result
    else Err CircularDependency
  end.

(** The loop [for id, profile := range profiles] that fills
    [l.registry.Dependencies]. *)
Definition recordDeps (profiles : gmap string Profile)
    (dependencies : gmap string (list string)) (ids : list string)
    : gmap string (list string) :=
  foldl (λ d id, match profiles !! id with
                 | Some p => <[id := depsOf p]> d
                 | None => d
                 end) dependencies ids.

(** [buildDependencyGraph]: the registry is updated in place, so the
    dependency map stays recorded when the sort fails. *)
Definition buildDependencyGraph (sd : Sched) (reg : ProfileRegistry)
    (profiles : gmap string Profile) : ProfileRegistry * option LoadError :=
  let deps :=
    recordDeps profiles (Dependencies reg) (rangeKeys (s_build sd) profiles) in
  let reg1 := {| Profiles := Profiles reg; Dependencies := deps;
                 LoadOrder := LoadOrder reg |} in
  match topologicalSort sd deps profiles with
  | Err e => (reg1, Some e)
  | Ok order =>
    ({| Profiles := Profiles reg; Dependencies := deps; LoadOrder := order |}, None)
  end.

(** [resolveInheritance]: profiles are merged in load order; the map holds
    pointers, so a parent merged earlier is seen merged by its children.
    [profiles[id]] of an id that is not a key is nil, and reading its
    [InheritsFrom] panics ([NilProfile]). *)
Fixpoint resolveInheritance (order : list string) (profiles : gmap string Profile)
    : result LoadError (gmap string Profile) :=
  match order with
  | [] => Ok profiles
  | id :: rest =>
    match profiles !! id with
    | None => Err (NilProfile id)
    | Some p =>
      if String.eqb (InheritsFrom p) "" then resolveInheritance rest profiles
      else match profiles !! InheritsFrom p with
           | None => Err (ParentNotFound (InheritsFrom p) id)
           | Some parent =>
             resolveInheritance rest (<[id := mergeWithParent p parent]> profiles)
           end
    end
  end.

(** The file system as the loader sees it: the entries [filepath.Walk]
    visits (path, is-directory) in its lexical order, or its error; the
    contents [os.ReadFile] returns; the parser; the clock reading taken
    while a file is loaded. *)
Record World : Type := {
  walk : option (list (string * bool));
  readFile : string → option string;
  yamlUnmarshal : string → option Profile;
  now : string → Z
}.

Definition findProfileFiles (w : World) : result LoadError (list string) :=
  match walk w with
  | None => Err FindFilesFailed
  | Some entries =>
    Ok (map fst (filter (λ e : string * bool,
                           negb (snd e) && (HasSuffix (fst e) ".yaml"
                                            || HasSuffix (fst e) ".yml") = true)
                        entries))
  end.

Definition setTimestamps (t : Z) (p : Profile) : Profile :=
  {| ID := ID p; Version := Version p; InheritsFrom := InheritsFrom p;
     DependsOn := DependsOn p; ConditionalExec := ConditionalExec p;
     Model := Model p; Params := Params p; Response := Response p;
     System := System p; FewShot := FewShot p; Policy := Policy p;
     CreatedAt := t; UpdatedAt := t |}.

Definition loadProfileFile (w : World) (filename : string) : result LoadError Profile :=
  match readFile w filename with
  | None => Err (ReadFailed filename)
  | Some data =>
    match yamlUnmarshal w data with
    | None => Err (ParseFailed filename)
    | Some parsed =>
      let p := setTimestamps (now w filename) parsed in
      match validateProfile p with
      | Some e => Err (ValidationFailed filename e)
      | None => Ok p
      end
    end
  end.

(** The loop of [LoadAll] over the files: a file that fails to load is
    logged and skipped. *)
Definition loadFiles (w : World) (files : list string) : gmap string Profile :=
  foldl (λ profiles file,
           match loadProfileFile w file with
           | Err _ => profiles
           | Ok p => <[ID p := p]> profiles
           end) ∅ files.

Definition cleared (l : Loader) : Loader :=
  {| directory := directory l;
     registry := {| Profiles := ∅; Dependencies := ∅; LoadOrder := [] |};
     cache := ∅ |}.

(** [LoadAll]: the loader after the call, and the error returned. *)
Definition LoadAll (w : World) (sd : Sched) (l : Loader) : Loader * option LoadError :=
  let l0 := cleared l in
  match findProfileFiles w with
  | Err e => (l0, Some e)
  | Ok files =>
    let profiles := loadFiles w files in
    match buildDependencyGraph sd (registry l0) profiles with
    | (reg1, Some e) =>
      ({| directory := directory l; registry := reg1; cache := ∅ |},
       Some (BuildGraphFailed e))
    | (reg1, None) =>
      match resolveInheritance (LoadOrder reg1) profiles with
      | Err e =>
        ({| directory := directory l; registry := reg1; cache := ∅ |},
         Some (ResolveFailed e))
      | Ok merged =>
        ({| directory := directory l;
            registry := {| Profiles := merged; Dependencies := Dependencies reg1;
                           LoadOrder := LoadOrder reg1 |};
            cache := ∅ |}, None)
      end
    end
  end.

(** [GetProfile]. *)
Definition GetProfile (l : Loader) (id : string) : option Profile :=
  Profiles (registry l) !! id.

(** *** Vocabulary of the properties below *)

(** Edges [(dep, id)]: profile [id] names [dep] as a dependency. *)
Definition edgesFor (id : string) (deps : list string) : list (string * string) :=
  map (λ dep, (dep, id)) deps.

(** The edges in the order the graph loop adds them. *)
Definition edgesOf (D : gmap string (list string)) (ids : list string)
    : list (string * string) :=
  ids ≫= λ id, edgesFor id (getList D id).

(** What [adjList[u]] holds once the edges [E] are added. *)
Definition targets (u : string) (E : list (string * string)) : list string :=
  (filter (λ e, e.1 = u) E).*2.

(** What [inDegree[v]] holds once the edges [E] are added. *)
Definition indeg (v : string) (E : list (string * string)) : nat :=
  length (filter (λ e, e.2 = v) E).

(** The number of occurrences of [v] in [ns]. *)
Definition occ (v : string) (ns : list string) : nat :=
  length (filter (λ n, n = v) ns).

(** The edges whose source is not among the profiles [done]. *)
Definition remaining (done : list string) (E : list (string * string))
    : list (string * string) :=
  filter (λ e, e.1 ∉ done) E.

(** The graph [g] holds exactly the edges [E]. *)
Definition graphOf (g : Graph) (E : list (string * string)) : Prop :=
  (∀ u, getList (adjList g) u = targets u E) ∧
  (∀ v, getInt (inDegree g) v = Z.of_nat (indeg v E)).

(** [forward E l]: every dependency of an entry of [l] stands at a smaller
    index of [l]. *)
Definition forward (E : list (string * string)) (l : list string) : Prop :=
  ∀ i v u, l !! i = Some v → (u, v) ∈ E → ∃ j, j < i ∧ l !! j = Some u.

(** The invariant of the queue loop; [pending] are the neighbours of the
    entry just popped that are still to be relaxed. *)
Record loopInv (P : gmap string Profile) (E : list (string * string))
    (pending : list string) (deg : gmap string Z) (queue result : list string)
    : Prop := {
  inv_deg : ∀ v,
    getInt deg v = Z.of_nat (indeg v (remaining result E) + occ v pending);
  inv_nodup : NoDup (result ++ queue);
  inv_zero : ∀ v, v ∈ result ++ queue → getInt deg v = 0%Z;
  inv_nodes : ∀ v, v ∈ result ++ queue → is_Some (P !! v);
  inv_pending : ∀ v, v ∈ pending → is_Some (P !! v);
  inv_ready : ∀ v, is_Some (deg !! v) → getInt deg v = 0%Z → v ∈ result ++ queue;
  inv_keys : ∀ v, is_Some (P !! v) → is_Some (deg !! v)
}.

(** A profile without the two lists [mergeWithParent] builds with
    [append]. *)
Definition withoutLists (p : Profile) : Profile :=
  {| ID := ID p; Version := Version p; InheritsFrom := InheritsFrom p;
     DependsOn := DependsOn p; ConditionalExec := ConditionalExec p;
     Model := Model p; Params := Params p; Response := Response p;
     System := System p; FewShot := []; Policy := {| Conditions := [] |};
     CreatedAt := CreatedAt p; UpdatedAt := UpdatedAt p |}.

(** [chain R l]: every entry of [l] is related to the next one. *)
Definition chain (R : relation string) (l : list string) : Prop :=
  ∀ i x y, l !! i = Some x → l !! S i = Some y → R x y.

(** [x] stands at a smaller index of [l] than [y]. *)
Definition precedes (l : list string) (x y : string) : Prop :=
  ∃ i j, i < j ∧ l !! i = Some x ∧ l !! j = Some y.

(** [dependsOn P id dep]: profile [id] of [P] inherits from [dep] or lists
    it under [depends_on]. *)
Definition dependsOn (P : gmap string Profile) (id dep : string) : Prop :=
  ∃ p, P !! id = Some p ∧
       ((InheritsFrom p = dep ∧ dep ≠ "") ∨ dep ∈ DependsOn p).

(** The equation a resolved map [M] satisfies at [id], [P] being the
    profiles as loaded. *)
Definition resolvedAt (P M : gmap string Profile) (id : string) : Prop :=
  M !! id = match P !! id with
            | None => None
            | Some p =>
              if String.eqb (InheritsFrom p) "" then Some p
              else mergeWithParent p <$> M !! InheritsFrom p
            end.

(** The invariant of [resolveInheritance]: [done] are the ids already
    merged, [C] the map so far. *)
Record resolveInv (P C : gmap string Profile) (done : list string) : Prop := {
  ri_todo : ∀ id, id ∉ done → C !! id = P !! id;
  ri_done : ∀ id, id ∈ done → resolvedAt P C id ∧ is_Some (C !! id);
  ri_parent : ∀ id p, id ∈ done → P !! id = Some p →
    InheritsFrom p ≠ "" → InheritsFrom p ∈ done
}.

(** *** Listing the registry *)

(** [sort.Strings]: ascending in Go's order on strings, which compares
    them byte by byte.  Equal strings are identical, so the sorted slice
    does not depend on the sorting algorithm. *)
Definition sortStrings (l : list string) : list string := merge_sort String.le l.

(** [ListProfiles]: the ids of the registry, collected in the order of one
    [range] loop and then sorted. *)
Definition ListProfiles (cs : seed) (l : Loader) : list string :=
  sortStrings (rangeKeys cs (Profiles (registry l))).

(** [Reload]. *)
Definition Reload (w : World) (sd : Sched) (l : Loader) : Loader * option LoadError :=
  LoadAll w sd l.

(** The profiles the files of a directory load to, in the order of the
    files; a file that fails to load gives none. *)
Definition loaded (w : World) (files : list string) : list Profile :=
  omap (λ file, match loadProfileFile w file with
                | Ok p => Some p
                | Err _ => None
                end) files.

End profile.

(* ===================================================================== *)
(** ** internal/resolver: the policy resolver *)
(* ===================================================================== *)

Module resolver.
Import types.

Inductive ResolveError : Type :=
| NoResults        (* "no classification results provided" *)
| NilDecision.     (* a nil decision is dereferenced: the run panics *)

(** What one call takes from the runtime: the orders of its map loops, the
    clock, and [fmt]'s rendering of a [float64] under [%.2f]. *)
Record Runtime : Type := {
  s_counts : seed;       (* [range actionCounts] *)
  s_groups : seed;       (* [range actionGroups] *)
  s_confidences : seed;  (* [range actionConfidences] *)
  s_labels : seed;       (* [range labelSet] *)
  clock : Z;
  fmt2f : float → string
}.

(** The package's own [min]. *)
Definition min (a b : float) : float := if (a <? b)%float then a else b.

(** [evaluateCondition]. *)
Definition evaluateCondition (condition : string) (email : Email)
    (results : list ClassificationResponse) : bool :=
  if Contains condition "phishing_score >= 0.8"
     && existsb (λ r, match Metadata r !! "phishing_score" with
                      | Some (JNum score) => (0.8 <=? score)%float
                      | _ => false
                      end) results
  then true
  else if Contains condition "importance == 'critical'"
          && existsb (λ r, match Metadata r !! "importance" with
                           | Some (JStr imp) =>
                             String.eqb imp "critical" && (0.7 <=? Confidence r)%float
                           | _ => false
                           end) results
  then true
  else if Contains condition "sender_reputation.trust_score >= 0.9"
  then match em_Headers email !! "X-Sender-Trust-Score" with
       | Some trustScore => Contains trustScore "0.9" || Contains trustScore "1.0"
       | None => false
       end
  else false.

(** [resolveByHighestConfidence]: the first result of greatest confidence,
    nil for an empty slice. *)
Definition resolveByHighestConfidence (results : list ClassificationResponse)
    : option ClassificationResponse :=
  foldl (λ best r, match best with
                   | None => Some r
                   | Some b => if (Confidence b <? Confidence r)%float
                               then Some r else Some b
                   end) None results.

(** The rules by descending priority.  [sort.Slice] runs an insertion sort
    on fewer than twelve elements, which keeps equal priorities in declared
    order; beyond that Go leaves their order unspecified. *)
Fixpoint insertRule (r : PriorityRule) (l : list PriorityRule) : list PriorityRule :=
  match l with
  | [] => [r]
  | x :: l' =>
    if (pr_Priority x <=? pr_Priority r)%Z then r :: l else x :: insertRule r l'
  end.

Definition sortRules (rules : list PriorityRule) : list PriorityRule :=
  foldr insertRule [] rules.

(** The override a triggered rule produces. *)
Definition overrideResult (rt : Runtime) (rule : PriorityRule)
    (results : list ClassificationResponse) : ClassificationResponse :=
  let plain :=
    {| ProfileID := ""; Action := pr_Action rule; Confidence := 1%float;
       Reasoning := pr_Reason rule; Labels := []; Metadata := ∅;
       ProcessedAt := clock rt |} in
  if (0 <? pr_ConfidenceBoost rule)%float then
    match resolveByHighestConfidence results with
    | Some h =>
      {| ProfileID := ""; Action := Action h;
         Confidence := min 1 (Confidence h + pr_ConfidenceBoost rule)%float;
         Reasoning := Reasoning h +:+ " (boosted by " +:+ pr_Name rule +:+ ")";
         Labels := []; Metadata := ∅; ProcessedAt := clock rt |}
    | None => plain
    end
  else plain.

(** [applyPriorityRules]: the override of the first rule, by descending
    priority, whose condition holds; nil when none does. *)
Definition applyPriorityRules (cfg : ResolverConfig) (rt : Runtime) (email : Email)
    (results : list ClassificationResponse) : option ClassificationResponse :=
  match List.find (λ rule, evaluateCondition (pr_Condition rule) email results)
                  (sortRules (PriorityRules cfg)) with
  | Some rule => Some (overrideResult rt rule results)
  | None => None
  end.

Definition withConfidence (c : float) (r : ClassificationResponse)
    : ClassificationResponse :=
  {| ProfileID := ProfileID r; Action := Action r; Confidence := c;
     Reasoning := Reasoning r; Labels := Labels r; Metadata := Metadata r;
     ProcessedAt := ProcessedAt r |}.

(** [applyConfidenceWeighting]: a copy of every result, its confidence
    scaled by the weight of its profile when one is configured. *)
Definition applyConfidenceWeighting (cfg : ResolverConfig)
    (results : list ClassificationResponse) : list ClassificationResponse :=
  map (λ r, match ProfileWeights (Weighting cfg) !! ProfileID r with
            | Some weight => withConfidence (min 1 (Confidence r * weight)%float) r
            | None => r
            end) results.

(** The results grouped by action, each group in the order of the slice. *)
Definition groupByAction (results : list ClassificationResponse)
    : gmap string (list ClassificationResponse) :=
  foldl (λ g r, <[Action r := getList g (Action r) ++ [r]]> g) ∅ results.

Definition countByAction (results : list ClassificationResponse) : gmap string Z :=
  foldl (λ g r, <[Action r := (getInt g (Action r) + 1)%Z]> g) ∅ results.

(** [resolveByConsensus]. *)
Definition resolveByConsensus (rt : Runtime) (results : list ClassificationResponse)
    : option ClassificationResponse :=
  let actionCounts := countByAction results in
  let actionResults := groupByAction results in
  let best :=
    foldl (λ (acc : string * Z) action,
             let count := getInt actionCounts action in
             if (snd acc <? count)%Z then (action, count) else acc)
          ("", 0%Z) (rangeKeys (s_counts rt) actionCounts) in
  resolveByHighestConfidence (getList actionResults (fst best)).

(** The weighted mean confidence of one action group. *)
Definition groupConfidence (weights : gmap string float)
    (group : list ClassificationResponse) : float :=
  let sums :=
    foldl (λ (acc : float * float) r,
             let weight := default 1%float (weights !! ProfileID r) in
             ((fst acc + weight)%float, (snd acc + Confidence r * weight)%float))
          (0%float, 0%float) group in
  (snd sums / fst sums)%float.

Definition actionConfidences (cfg : ResolverConfig) (rt : Runtime)
    (actionGroups : gmap string (list ClassificationResponse)) : gmap string float :=
  foldl (λ m action,
           <[action := groupConfidence (ProfileWeights (Weighting cfg))
                                       (getList actionGroups action)]> m)
        ∅ (rangeKeys (s_groups rt) actionGroups).

(** The loop that keeps the action of greatest confidence seen so far. *)
Definition bestOf (confidences : gmap string float) (order : list string)
    : string * float :=
  foldl (λ (acc : string * float) action,
           let confidence := getFloat confidences action in
           if (snd acc <? confidence)%float then (action, confidence) else acc)
        ("", 0%float) order.

(** [combineReasonings]. *)
Definition combineReasonings (rt : Runtime) (results : list ClassificationResponse)
    : string :=
  let reasonings :=
    map (λ r, Reasoning r +:+ " (conf: " +:+ fmt2f rt (Confidence r) +:+ ")")
        (filter (λ r, Reasoning r ≠ "") results) in
  String.concat "; " reasonings.

(** [resolveByWeightedAverage]. *)
Definition resolveByWeightedAverage (cfg : ResolverConfig) (rt : Runtime)
    (results : list ClassificationResponse) : ClassificationResponse :=
  let actionGroups := groupByAction results in
  let confidences := actionConfidences cfg rt actionGroups in
  let best := bestOf confidences (rangeKeys (s_confidences rt) confidences) in
  let group := getList actionGroups (fst best) in
  let labelSet : gmap string bool :=
    foldl (λ s label, <[label := true]> s) ∅ (concat (map Labels group)) in
  {| ProfileID := ""; Action := fst best; Confidence := snd best;
     Reasoning := combineReasonings rt group;
     Labels := rangeKeys (s_labels rt) labelSet;
     Metadata := ∅; ProcessedAt := clock rt |}.

(** [resolveConflicts]: the dispatch on the configured method. *)
Definition resolveConflicts (cfg : ResolverConfig) (rt : Runtime)
    (results : list ClassificationResponse) : option ClassificationResponse :=
  if String.eqb (Method (Weighting cfg)) "highest_confidence"
  then resolveByHighestConfidence results
  else if String.eqb (Method (Weighting cfg)) "consensus"
  then resolveByConsensus rt results
  else Some (resolveByWeightedAverage cfg rt results).

(** [ResolveDecision]. *)
Definition ResolveDecision (cfg : ResolverConfig) (rt : Runtime) (email : Email)
    (results : list ClassificationResponse)
    : result ResolveError ClassificationResponse :=
  match results with
  | [] => Err NoResults
  | [r] => Ok r
  | _ =>
    match applyPriorityRules cfg rt email results with
    | Some priorityResult => Ok priorityResult
    | None =>
      match resolveConflicts cfg rt (applyConfidenceWeighting cfg results) with
      | Some finalResult => Ok finalResult
      | None => Err NilDecision
      end
    end
  end.

(** *** Vocabulary of the properties below *)

(** The number of results that propose [action]. *)
Definition countOf (action : string) (results : list ClassificationResponse) : nat :=
  length (filter (λ r, Action r = action) results).

(** The three phrases [evaluateCondition] looks for. *)
Definition recognised (condition : string) : bool :=
  Contains condition "phishing_score >= 0.8"
  || Contains condition "importance == 'critical'"
  || Contains condition "sender_reputation.trust_score >= 0.9".

End resolver.

(* ===================================================================== *)
(** ** The Ollama client: parsing a classification response *)
(* ===================================================================== *)

Module ollama.
Import types.

Inductive ParseError : Type :=
| NoJSONFound          (* "no valid JSON found in response" *)
| UnmarshalFailed      (* "failed to parse JSON response" *)
| BadAction            (* "missing or invalid 'action' field in response" *)
| BadConfidence        (* "missing or invalid 'confidence' field in response" *)
| ConfidenceOutOfRange (c : float).

(** The library functions the parser calls: [strings.TrimSpace],
    [json.Unmarshal] into a [map[string]interface{}] (which leaves the nil
    map, read as the empty one, on the document [null]), and the clock. *)
Record Lib : Type := {
  TrimSpace : string → string;
  jsonUnmarshal : string → option (gmap string json);
  now : Z
}.

Definition fence : string := "```json".

(** The text handed to [json.Unmarshal]: the body of a [```json] block
    when there is one and it is not blank, else the span from the first
    opening brace to the last closing one. *)
Definition extractJSON (lib : Lib) (response : string) : result ParseError string :=
  let fenced :=
    if Contains response fence then
      let start := Index response fence in
      if (start =? -1)%Z then ""
      else
        let start := (start + 7)%Z in
        let rest := slice response start (Z.of_nat (String.length response)) in
        let stop := Index rest "```" in
        if (stop =? -1)%Z then TrimSpace lib rest
        else TrimSpace lib (slice response start (start + stop))
    else "" in
  if String.eqb fenced "" then
    let start := Index response "{" in
    let stop := LastIndex response "}" in
    if (start =? -1)%Z || (stop =? -1)%Z || (stop <=? start)%Z then Err NoJSONFound
    else Ok (slice response start (stop + 1))
  else Ok fenced.

(** The label strings of a decoded [labels] array; other elements are
    dropped. *)
Definition stringLabels (l : list json) : list string :=
  omap (λ v, match v with JStr s => Some s | _ => None end) l.

(** The checks made on the decoded object and the response built from it. *)
Definition fromObject (lib : Lib) (obj : gmap string json) (profile : Profile)
    : result ParseError ClassificationResponse :=
  match obj !! "action" with
  | Some (JStr action) =>
    match obj !! "confidence" with
    | Some (JNum confidence) =>
      let reasoning :=
        match obj !! "reasoning" with
        | Some (JStr s) => s
        | _ => "No reasoning provided"
        end in
      if (confidence <? 0)%float || (1 <? confidence)%float
      then Err (ConfidenceOutOfRange confidence)
      else
        Ok {| ProfileID := ID profile; Action := action; Confidence := confidence;
              Reasoning := reasoning;
              Labels := match obj !! "labels" with
                        | Some (JArr l) => stringLabels l
                        | _ => []
                        end;
              Metadata := match obj !! "metadata" with
                          | Some (JObj m) => m
                          | _ => ∅
                          end;
              ProcessedAt := now lib |}
    | _ => Err BadConfidence
    end
  | _ => Err BadAction
  end.

(** [parseClassificationResponse]. *)
Definition parseClassificationResponse (lib : Lib) (response : string)
    (profile : Profile) : result ParseError ClassificationResponse :=
  match extractJSON lib response with
  | Err e => Err e
  | Ok jsonStr =>
    match jsonUnmarshal lib jsonStr with
    | None => Err UnmarshalFailed
    | Some obj => fromObject lib obj profile
    end
  end.


(** *** The prompt *)

Definition nl : string := String "010" "".

Definition quote : string := String "034" "".

(** What the loop over the few-shot examples writes for one example. *)
Definition exampleBlock (example : FewShotExample) : string :=
  "Example: " +:+ fs_Name example +:+ nl +:+
  "Input: " +:+ fs_Input example +:+ nl +:+
  "Output: " +:+ fs_Output example +:+ nl +:+ nl.

(** The format line, [{"action": "string", "confidence": number,
    "reasoning": "string"}]. *)
Definition formatLine : string :=
  "{" +:+ quote +:+ "action" +:+ quote +:+ ": " +:+ quote +:+ "string" +:+ quote +:+
  ", " +:+ quote +:+ "confidence" +:+ quote +:+ ": number, " +:+
  quote +:+ "reasoning" +:+ quote +:+ ": " +:+ quote +:+ "string" +:+ quote +:+ "}".

(** [buildClassificationPrompt]. *)
Definition buildClassificationPrompt (profile : Profile) (email : Email) : string :=
  "System: " +:+ System profile +:+
  " You must respond with valid JSON only, no markdown, no explanations, no code blocks."
  +:+ nl +:+ nl +:+
  String.concat "" (map exampleBlock (FewShot profile)) +:+
  "Classify this email:" +:+ nl +:+
  "Subject: " +:+ em_Subject email +:+ nl +:+
  "From: " +:+ em_From email +:+ nl +:+
  "To: " +:+ String.concat ", " (em_To email) +:+ nl +:+
  "Body: " +:+ em_Body email +:+ nl +:+ nl +:+
  nl +:+ nl +:+ "IMPORTANT: You MUST respond with ONLY valid JSON in this exact format:"
  +:+ nl +:+ formatLine +:+
  nl +:+ nl +:+ "Do NOT include any markdown formatting, explanations, or additional text."
  +:+ nl +:+ "Do NOT wrap the JSON in code blocks or backticks."
  +:+ nl +:+ "Respond with raw JSON only.".

End ollama.

(* ===================================================================== *)
(** ** internal/audit: the audit chain *)
(* ===================================================================== *)

Module audit.

Record AuditConfig : Type := {
  Enabled : bool;
  Directory : string;
  IntegrityCheck : bool;
  EncryptionKey : string
}.

Record AuditEntry : Type := {
  ID : string;
  Timestamp : Z;
  EventType : string;
  EmailID : string;
  ProfileID : string;
  Action : string;
  Confidence : float;
  Reasoning : string;
  Metadata : option (gmap string json);
  PrevHash : string;
  Hash : string;
  Signature : string
}.

Definition EventSystemStart : string := "system_start".
Definition EventSystemStop : string := "system_stop".

Inductive AuditError : Type :=
| MkdirFailed
| OpenFailed
| MarshalFailed
| WriteFailed
| SyncFailed
| InitChainFailed (e : AuditError).

(** The library functions: SHA-256 in hexadecimal, [time.Format] with
    [RFC3339Nano], [%f], and [json.Marshal] of a metadata map (keys sorted)
    and of an entry (false when it fails). *)
Record Lib : Type := {
  sha256hex : string → string;
  formatTime : Z → string;
  fmtf : float → string;
  marshalMetadata : gmap string json → string;
  marshalEntry : AuditEntry → bool
}.

(** What one operation meets outside: the clock readings (in nanoseconds)
    of [generateID] and of [Timestamp], whether the directory, the file,
    its [Stat], the write and the sync succeed, and the signature bcrypt
    returns (none when it fails). *)
Record Outside : Type := {
  idClock : Z;
  stampClock : Z;
  mkdirOk : bool;
  openOk : bool;
  statOk : bool;
  writeOk : bool;
  syncOk : bool;
  bcrypt : string → option string
}.

(** The log file is opened for appending: its lines, one entry each. *)
Record Logger : Type := {
  config : AuditConfig;
  file : option (list AuditEntry);
  entryCount : Z;
  lastHash : string
}.

Definition generateID (out : Outside) : string := pretty (idClock out).

(** [calculateHash]. *)
Definition calculateHash (lib : Lib) (entry : AuditEntry) : string :=
  let data :=
    ID entry +:+ "|" +:+ formatTime lib (Timestamp entry) +:+ "|" +:+
    EventType entry +:+ "|" +:+ EmailID entry +:+ "|" +:+ ProfileID entry +:+ "|" +:+
    Action entry +:+ "|" +:+ fmtf lib (Confidence entry) +:+ "|" +:+ PrevHash entry in
  let data :=
    match Metadata entry with
    | Some metadata => data +:+ "|" +:+ marshalMetadata lib metadata
    | None => data
    end in
  sha256hex lib data.

Definition withHash (h : string) (e : AuditEntry) : AuditEntry :=
  {| ID := ID e; Timestamp := Timestamp e; EventType := EventType e;
     EmailID := EmailID e; ProfileID := ProfileID e; Action := Action e;
     Confidence := Confidence e; Reasoning := Reasoning e; Metadata := Metadata e;
     PrevHash := PrevHash e; Hash := h; Signature := Signature e |}.

Definition withSignature (s : string) (e : AuditEntry) : AuditEntry :=
  {| ID := ID e; Timestamp := Timestamp e; EventType := EventType e;
     EmailID := EmailID e; ProfileID := ProfileID e; Action := Action e;
     Confidence := Confidence e; Reasoning := Reasoning e; Metadata := Metadata e;
     PrevHash := PrevHash e; Hash := Hash e; Signature := s |}.

Definition withFile (f : list AuditEntry) (l : Logger) : Logger :=
  {| config := config l; file := Some f; entryCount := entryCount l;
     lastHash := lastHash l |}.

Definition withLastHash (h : string) (l : Logger) : Logger :=
  {| config := config l; file := file l; entryCount := entryCount l; lastHash := h |}.

(** [signEntry]. *)
Definition signEntry (out : Outside) (l : Logger) (entry : AuditEntry) : option string :=
  bcrypt out (Hash entry +:+ EncryptionKey (config l)).

(** [writeEntry]: the entry, signed when a key is configured and signing
    succeeds, is appended as one line and the file is synced.  A failed
    write is taken to leave the file as it was. *)
Definition writeEntry (lib : Lib) (out : Outside) (l : Logger) (entry : AuditEntry)
    : Logger * option AuditError :=
  let entry :=
    if String.eqb (EncryptionKey (config l)) "" then entry
    else match signEntry out l entry with
         | Some signature => withSignature signature entry
         | None => entry
         end in
  if negb (marshalEntry lib entry) then (l, Some MarshalFailed)
  else
    match file l with
    | None => (l, Some WriteFailed)   (* a nil [*os.File]: the write is refused *)
    | Some lines =>
      if negb (writeOk out) then (l, Some WriteFailed)
      else
        let l' := withFile (lines ++ [entry]) l in
        if negb (syncOk out) then (l', Some SyncFailed) else (l', None)
    end.

(** The entry [initializeChain] creates. *)
Definition genesisEntry (lib : Lib) (out : Outside) : AuditEntry :=
  let genesis :=
    {| ID := generateID out; Timestamp := stampClock out;
       EventType := "chain_genesis";
       EmailID := ""; ProfileID := ""; Action := ""; Confidence := 0%float;
       Reasoning := "";
       Metadata := Some {[ "version" := JStr "1.0"; "system" := JStr "mailsentinel" ]};
       PrevHash := ""; Hash := ""; Signature := "" |} in
  withHash (calculateHash lib genesis) genesis.

(** [initializeChain]. *)
Definition initializeChain (lib : Lib) (out : Outside) (l : Logger)
    : Logger * option AuditError :=
  let genesis := genesisEntry lib out in
  writeEntry lib out (withLastHash (Hash genesis) l) genesis.

(** [loadLastHash]. *)
Definition loadLastHash (l : Logger) : Logger := withLastHash "" l.

(** [NewLogger] on a directory whose log file of the day holds [existing]
    (empty when the file is created by the call): the logger and, whether
    the call succeeds or not, the lines the file holds afterwards. *)
Definition NewLogger (lib : Lib) (out : Outside) (cfg : AuditConfig)
    (existing : list AuditEntry) : result AuditError Logger * list AuditEntry :=
  if negb (Enabled cfg)
  then (Ok {| config := cfg; file := None; entryCount := 0; lastHash := "" |}, existing)
  else if negb (mkdirOk out) then (Err MkdirFailed, existing)
  else if negb (openOk out) then (Err OpenFailed, existing)
  else
    let auditLogger :=
      {| config := cfg; file := Some existing; entryCount := 0; lastHash := "" |} in
    if statOk out && (length existing =? 0)%nat then
      match initializeChain lib out auditLogger with
      | (l, Some e) => (Err (InitChainFailed e), default existing (file l))
      | (l, None) => (Ok l, default existing (file l))
      end
    else (Ok (loadLastHash auditLogger), existing).

(** [LogSystemEvent]. *)
Definition LogSystemEvent (lib : Lib) (out : Outside) (l : Logger)
    (eventType : string) (metadata : option (gmap string json))
    : Logger * option AuditError :=
  if negb (Enabled (config l)) then (l, None)
  else
    let entry :=
      {| ID := generateID out; Timestamp := stampClock out; EventType := eventType;
         EmailID := ""; ProfileID := ""; Action := ""; Confidence := 0%float;
         Reasoning := ""; Metadata := metadata;
         PrevHash := lastHash l; Hash := ""; Signature := "" |} in
    let entry := withHash (calculateHash lib entry) entry in
    let l1 :=
      {| config := config l; file := file l; entryCount := (entryCount l + 1)%Z;
         lastHash := Hash entry |} in
    writeEntry lib out l1 entry.

(** *** The other log operations *)

Definition EventEmailClassified : string := "email_classified".
Definition EventProfileLoaded : string := "profile_loaded".
Definition EventSecurityViolation : string := "security_violation".

(** A metadata map holds Go values of any type.  The two that are not of
    the shapes of [json], the [int64] size of an email and the [[]string]
    of labels, are placed in it by these two functions, on which nothing
    below depends. *)
Record Encoding : Type := {
  ofInt64 : Z → json;
  ofStrings : list string → json
}.

(** The locked block [l.lastHash = entry.Hash; l.entryCount++]. *)
Definition advance (h : string) (l : Logger) : Logger :=
  {| config := config l; file := file l; entryCount := (entryCount l + 1)%Z;
     lastHash := h |}.

(** [LogEmailClassification]. *)
Definition LogEmailClassification (lib : Lib) (enc : Encoding) (out : Outside)
    (l : Logger) (email : types.Email) (response : types.ClassificationResponse)
    : Logger * option AuditError :=
  if negb (Enabled (config l)) then (l, None)
  else
    let entry :=
      {| ID := generateID out; Timestamp := stampClock out;
         EventType := EventEmailClassified;
         EmailID := types.em_ID email; ProfileID := types.ProfileID response;
         Action := types.Action response; Confidence := types.Confidence response;
         Reasoning := types.Reasoning response;
         Metadata := Some {[ "email_subject" := JStr (types.em_Subject email);
                             "email_from" := JStr (types.em_From email);
                             "email_size" := ofInt64 enc (types.em_Size email);
                             "labels" := ofStrings enc (types.Labels response) ]};
         PrevHash := lastHash l; Hash := ""; Signature := "" |} in
    let entry := withHash (calculateHash lib entry) entry in
    writeEntry lib out (advance (Hash entry) l) entry.

(** [LogProfileLoad]. *)
Definition LogProfileLoad (lib : Lib) (out : Outside) (l : Logger)
    (profileID version : string) (success : bool) : Logger * option AuditError :=
  if negb (Enabled (config l)) then (l, None)
  else
    let entry :=
      {| ID := generateID out; Timestamp := stampClock out;
         EventType := EventProfileLoaded;
         EmailID := ""; ProfileID := profileID; Action := ""; Confidence := 0%float;
         Reasoning := "";
         Metadata := Some {[ "version" := JStr version; "success" := JBool success ]};
         PrevHash := lastHash l; Hash := ""; Signature := "" |} in
    let entry := withHash (calculateHash lib entry) entry in
    writeEntry lib out (advance (Hash entry) l) entry.

(** The loop [for k, v := range metadata { entry.Metadata[k] = v }]. *)
Definition mergeMetadata (cs : seed) (base metadata : gmap string json)
    : gmap string json :=
  foldl (λ m k, match metadata !! k with
                | Some v => <[k := v]> m
                | None => m
                end) base (rangeKeys cs metadata).

(** [LogSecurityViolation]; a nil [metadata] is the empty map. *)
Definition LogSecurityViolation (lib : Lib) (out : Outside) (cs : seed) (l : Logger)
    (violationType description : string) (metadata : gmap string json)
    : Logger * option AuditError :=
  if negb (Enabled (config l)) then (l, None)
  else
    let entry :=
      {| ID := generateID out; Timestamp := stampClock out;
         EventType := EventSecurityViolation;
         EmailID := ""; ProfileID := ""; Action := ""; Confidence := 0%float;
         Reasoning := "";
         Metadata :=
           Some (mergeMetadata cs {[ "violation_type" := JStr violationType;
                                     "description" := JStr description ]} metadata);
         PrevHash := lastHash l; Hash := ""; Signature := "" |} in
    let entry := withHash (calculateHash lib entry) entry in
    writeEntry lib out (advance (Hash entry) l) entry.

(** [LogClassification]: the entry is written with neither [prev_hash]
    nor [hash], and the logger's last hash and count are left alone. *)
Definition LogClassification (lib : Lib) (out : Outside) (l : Logger)
    (email : types.Email) (result : types.ClassificationResponse)
    : Logger * option AuditError :=
  if negb (Enabled (config l)) then (l, None)
  else
    writeEntry lib out l
      {| ID := generateID out; Timestamp := stampClock out;
         EventType := EventEmailClassified;
         EmailID := types.em_ID email; ProfileID := types.ProfileID result;
         Action := types.Action result; Confidence := types.Confidence result;
         Reasoning := types.Reasoning result; Metadata := None;
         PrevHash := ""; Hash := ""; Signature := "" |}.

(** [LogAction]. *)
Definition LogAction (lib : Lib) (out : Outside) (l : Logger)
    (email : types.Email) (action label : string) : Logger * option AuditError :=
  if negb (Enabled (config l)) then (l, None)
  else
    writeEntry lib out l
      {| ID := generateID out; Timestamp := stampClock out; EventType := "action";
         EmailID := types.em_ID email; ProfileID := ""; Action := action;
         Confidence := 0%float; Reasoning := "";
         Metadata := Some {[ "label" := JStr label ]};
         PrevHash := ""; Hash := ""; Signature := "" |}.

(** *** Verification *)

(** What verification takes from the libraries: [hex.DecodeString] and
    [bcrypt.CompareHashAndPassword] (true when it returns nil). *)
Record Verifier : Type := {
  hexDecode : string → option string;
  compareHashAndPassword : string → string → bool
}.

Inductive SignatureError : Type :=
| NoSignature
| InvalidSignatureFormat
| SignatureMismatch.

Inductive VerifyError : Type :=
| ReadEntriesFailed
| HashMismatch (i : nat) (expected got : string)
| ChainBreak (i : nat) (expected got : string)
| SignatureFailed (i : nat) (e : SignatureError).

(** [verifySignature]. *)
Definition verifySignature (vf : Verifier) (l : Logger) (entry : AuditEntry)
    : option SignatureError :=
  if String.eqb (Signature entry) "" then Some NoSignature
  else match hexDecode vf (Signature entry) with
       | None => Some InvalidSignatureFormat
       | Some signature =>
         if compareHashAndPassword vf signature
              (Hash entry +:+ EncryptionKey (config l))
         then None else Some SignatureMismatch
       end.

(** [readAllEntries]: the entries are not read, the slice returned is
    empty. *)
Definition readAllEntries (l : Logger) : result VerifyError (list AuditEntry) := Ok [].

(** The loop of [VerifyChain] over the entries, from index [i] with
    [prevHash] the hash of the entry before. *)
Fixpoint verifyEntries (lib : Lib) (vf : Verifier) (l : Logger) (i : nat)
    (prevHash : string) (entries : list AuditEntry) : option VerifyError :=
  match entries with
  | [] => None
  | entry :: rest =>
    let expectedHash := calculateHash lib entry in
    if negb (String.eqb (Hash entry) expectedHash)
    then Some (HashMismatch i expectedHash (Hash entry))
    else if negb (String.eqb (PrevHash entry) prevHash)
    then Some (ChainBreak i prevHash (PrevHash entry))
    else
      match (if negb (String.eqb (Signature entry) "")
                && negb (String.eqb (EncryptionKey (config l)) "")
             then verifySignature vf l entry else None) with
      | Some e => Some (SignatureFailed i e)
      | None => verifyEntries lib vf l (S i) (Hash entry) rest
      end
  end.

(** [VerifyChain]. *)
Definition VerifyChain (lib : Lib) (vf : Verifier) (l : Logger) : option VerifyError :=
  if negb (Enabled (config l)) || negb (IntegrityCheck (config l)) then None
  else
    match readAllEntries l with
    | Err _ => Some ReadEntriesFailed
    | Ok entries =>
      if (length entries =? 0)%nat then None
      else verifyEntries lib vf l 0 "" entries
    end.

(** [VerifyIntegrity]. *)
Definition VerifyIntegrity (l : Logger) : bool * option VerifyError := (true, None).

(** [Close]: a last [system_stop] event is logged, whose error is dropped;
    [VerifyChain] is run and its verdict only logged; what is returned is
    the error of closing the file, [closeOk] telling whether that
    succeeds.  The logger is not to be used afterwards. *)
Inductive CloseError : Type :=
| FileCloseFailed.

Definition Close (lib : Lib) (enc : Encoding) (out : Outside) (closeOk : bool)
    (l : Logger) : Logger * option CloseError :=
  if negb (Enabled (config l)) then (l, None)
  else
    match file l with
    | None => (l, None)
    | Some _ =>
      let l1 :=
        fst (LogSystemEvent lib out l EventSystemStop
               (Some {[ "total_entries" := ofInt64 enc (entryCount l);
                        "final_hash" := JStr (lastHash l) ]})) in
      (l1, if closeOk then None else Some FileCloseFailed)
    end.

(** *** Vocabulary of the properties below *)

(** One call of a log operation. *)
Inductive Call : Type :=
| CallEmailClassification (email : types.Email)
    (response : types.ClassificationResponse)
| CallProfileLoad (profileID version : string) (success : bool)
| CallSecurityViolation (cs : seed) (violationType description : string)
    (metadata : gmap string json)
| CallSystemEvent (eventType : string) (metadata : option (gmap string json))
| CallClassification (email : types.Email) (result : types.ClassificationResponse)
| CallAction (email : types.Email) (action label : string).

Definition call (lib : Lib) (enc : Encoding) (out : Outside) (l : Logger) (c : Call)
    : Logger * option AuditError :=
  match c with
  | CallEmailClassification email response =>
    LogEmailClassification lib enc out l email response
  | CallProfileLoad profileID version success =>
    LogProfileLoad lib out l profileID version success
  | CallSecurityViolation cs violationType description metadata =>
    LogSecurityViolation lib out cs l violationType description metadata
  | CallSystemEvent eventType metadata => LogSystemEvent lib out l eventType metadata
  | CallClassification email result => LogClassification lib out l email result
  | CallAction email action label => LogAction lib out l email action label
  end.

(** The operations that link their entry to the one before. *)
Definition chained (c : Call) : bool :=
  match c with
  | CallClassification _ _ | CallAction _ _ _ => false
  | _ => true
  end.


(** The hash the entry after [entries] is expected to name, [prev] being
    the one the first of [entries] is expected to name. *)
Definition lastOf (prev : string) (entries : list AuditEntry) : string :=
  default prev (Hash <$> last entries).

(** [linked lib prev entries]: every entry carries its own hash and names
    the hash of the entry before it, the first one naming [prev]. *)
Fixpoint linked (lib : Lib) (prev : string) (entries : list AuditEntry) : Prop :=
  match entries with
  | [] => True
  | entry :: rest =>
    Hash entry = calculateHash lib entry ∧ PrevHash entry = prev
    ∧ linked lib (Hash entry) rest
  end.

(** The verdicts of the verification loop that concern the hashes. *)
Definition hashVerdict (v : option VerifyError) : bool :=
  match v with
  | Some (HashMismatch _ _ _) | Some (ChainBreak _ _ _) => true
  | _ => false
  end.

End audit.

(* ===================================================================== *)
(** ** Concrete inputs used by the examples below *)
(* ===================================================================== *)

Module fixtures.
Import types.

(** A profile that passes [validateProfile]. *)
Definition mkProfile (id inherits : string) (deps : list string) : Profile :=
  {| ID := id; Version := "1.0.0"; InheritsFrom := inherits; DependsOn := deps;
     ConditionalExec := None; Model := "qwen2.5:7b";
     Params := {| Temperature := 0.1; MaxTokens := 1000; TimeoutSeconds := 30;
                  TopP := 0; TopK := 0 |};
     Response := {| Schema := "{}";
                    Validation := {| RequiredFields := ["action"];
                                     ConfidenceRange := (0%float, 1%float);
                                     AllowedActions := [] |} |};
     System := "Prompt of " +:+ id; FewShot := []; Policy := {| Conditions := [] |};
     CreatedAt := 0; UpdatedAt := 0 |}.

(** A directory of profile files: every file holds the name of its
    profile, and the parser is tabulated on these contents. *)
Definition mkWorld (table : list (string * Profile)) : profile.World :=
  {| profile.walk :=
       Some (("profiles", true) :: map (λ e, (fst e +:+ ".yaml", false)) table);
     profile.readFile := λ file, Some file;
     profile.yamlUnmarshal :=
       λ data, snd <$> List.find (λ e, String.eqb (fst e +:+ ".yaml") data) table;
     profile.now := λ _, 1700000000%Z |}.

Definition table (l : list Profile) : list (string * Profile) :=
  map (λ p, (ID p, p)) l.

(** The chain of the repository's own test: [child1] inherits from [base],
    [child2] depends on [child1]. *)
Definition chainWorld : profile.World :=
  mkWorld (table [mkProfile "base" "" []; mkProfile "child1" "base" [];
                  mkProfile "child2" "" ["child1"]]).

(** [a] and [b] depend on each other; [c] depends on nothing. *)
Definition cycleWorld : profile.World :=
  mkWorld (table [mkProfile "a" "" ["b"]; mkProfile "b" "" ["a"];
                  mkProfile "c" "" []]).

(** [a] depends on a profile that no file defines; [b] depends on nothing. *)
Definition ghostWorld : profile.World :=
  mkWorld (table [mkProfile "a" "" ["ghost"]; mkProfile "b" "" []]).

(** Two profiles without dependencies. *)
Definition pairWorld : profile.World :=
  mkWorld (table [mkProfile "a" "" []; mkProfile "b" "" []]).

(** A directory in which [broken] has no system prompt, and so fails
    validation, beside a valid [spam]. *)
Definition brokenProfile : Profile :=
  {| ID := "broken"; Version := "1.0.0"; InheritsFrom := ""; DependsOn := [];
     ConditionalExec := None; Model := "qwen2.5:7b";
     Params := {| Temperature := 0.1; MaxTokens := 1000; TimeoutSeconds := 30;
                  TopP := 0; TopK := 0 |};
     Response := {| Schema := "{}";
                    Validation := {| RequiredFields := ["action"];
                                     ConfidenceRange := (0%float, 1%float);
                                     AllowedActions := [] |} |};
     System := ""; FewShot := []; Policy := {| Conditions := [] |};
     CreatedAt := 0; UpdatedAt := 0 |}.

Definition brokenWorld : profile.World :=
  mkWorld (table [brokenProfile; mkProfile "spam" "" []]).

Definition sched (queue : seed) : profile.Sched :=
  {| profile.s_build := []; profile.s_init := []; profile.s_graph := [];
     profile.s_queue := queue |}.

Definition loader : profile.Loader := profile.NewLoader "profiles".

(** A parent with two sampling parameters set, and a child that sets only
    its temperature. *)
Definition parentProfile : Profile :=
  {| ID := "base"; Version := "1.0.0"; InheritsFrom := ""; DependsOn := [];
     ConditionalExec := None; Model := "qwen2.5:7b";
     Params := {| Temperature := 0.2; MaxTokens := 500; TimeoutSeconds := 20;
                  TopP := 0.9; TopK := 40 |};
     Response := {| Schema := "{}";
                    Validation := {| RequiredFields := ["action"; "confidence"];
                                     ConfidenceRange := (0%float, 1%float);
                                     AllowedActions := [] |} |};
     System := "Parent system prompt";
     FewShot := [{| fs_Name := "parent_example"; fs_Input := "parent input";
                    fs_Output := "parent output" |}];
     Policy := {| Conditions := [{| pc_Name := "parent_condition";
                                    pc_Expression := "confidence > 0.8";
                                    pc_Actions := []; pc_Priority := 0 |}] |};
     CreatedAt := 0; UpdatedAt := 0 |}.

Definition childProfile : Profile :=
  {| ID := "child"; Version := "1.0.0"; InheritsFrom := "base"; DependsOn := [];
     ConditionalExec := None; Model := "qwen2.5:7b";
     Params := {| Temperature := 0.1; MaxTokens := 0; TimeoutSeconds := 0;
                  TopP := 0; TopK := 0 |};
     Response := {| Schema := "";
                    Validation := {| RequiredFields := [];
                                     ConfidenceRange := (0%float, 0%float);
                                     AllowedActions := [] |} |};
     System := "Child system prompt";
     FewShot := [{| fs_Name := "child_example"; fs_Input := "child input";
                    fs_Output := "child output" |}];
     Policy := {| Conditions := [{| pc_Name := "child_condition";
                                    pc_Expression := "confidence > 0.5";
                                    pc_Actions := []; pc_Priority := 0 |}] |};
     CreatedAt := 0; UpdatedAt := 0 |}.

(** *** Resolver *)

Definition response (profileID action : string) (confidence : float)
    : ClassificationResponse :=
  {| ProfileID := profileID; Action := action; Confidence := confidence;
     Reasoning := "model verdict"; Labels := []; Metadata := ∅; ProcessedAt := 0 |}.

(** The priority rules of the project's sample resolver configuration. *)
Definition sampleRules : list PriorityRule :=
  [ {| pr_Name := "security_override";
       pr_Condition := "any(profile.risk_factors.phishing_score >= 0.8)";
       pr_Action := "archive"; pr_ConfidenceBoost := 0; pr_Priority := 1000;
       pr_Reason := "Security threat detected" |};
    {| pr_Name := "importance_override";
       pr_Condition :=
         "any(profile.importance == 'critical' && profile.confidence >= 0.7)";
       pr_Action := "star"; pr_ConfidenceBoost := 0; pr_Priority := 900;
       pr_Reason := "Critical importance override" |};
    {| pr_Name := "trusted_sender_boost";
       pr_Condition := "sender_reputation.trust_score >= 0.9";
       pr_Action := ""; pr_ConfidenceBoost := 0.1; pr_Priority := 800;
       pr_Reason := "" |} ].

Definition config (method : string) : ResolverConfig :=
  {| rc_Version := "2.1.0"; PriorityRules := sampleRules;
     Weighting := {| Method := method; ProfileWeights := ∅ |};
     ConflictResolution := ∅ |}.

(** A runtime that visits the action confidences in the order [order]. *)
Definition runtime (order : seed) : resolver.Runtime :=
  {| resolver.s_counts := []; resolver.s_groups := [];
     resolver.s_confidences := order; resolver.s_labels := [];
     resolver.clock := 1700000000%Z; resolver.fmt2f := λ _, "0.00" |}.

Definition email : Email :=
  {| em_ID := "msg-1"; em_Subject := "Quarterly report"; em_From := "a@example.com";
     em_To := ["b@example.com"]; em_Body := "See attached."; em_Labels := ["INBOX"];
     em_Headers := ∅; em_Size := 2048 |}.

(** Scenario 3 of the specification: archive at 0.86 against star at 0.80. *)
Definition tieBreak : list ClassificationResponse :=
  [response "spam" "archive" 0.86; response "work_priority" "star" 0.80].


(** A response carrying a phishing score that triggers [security_override]. *)
Definition phishing : ClassificationResponse :=
  {| ProfileID := "work_priority"; Action := "star"; Confidence := 0.9;
     Reasoning := "looks important"; Labels := [];
     Metadata := {[ "phishing_score" := JNum 0.95 ]}; ProcessedAt := 0 |}.

(** *** Classifier responses *)

(** A profile whose response schema asks for a [category] field, admits
    three action tokens and confidences from 0.5 to 1. *)
Definition strictProfile : Profile :=
  {| ID := "spam"; Version := "1.0.0"; InheritsFrom := ""; DependsOn := [];
     ConditionalExec := None; Model := "qwen2.5:7b";
     Params := {| Temperature := 0.1; MaxTokens := 1000; TimeoutSeconds := 30;
                  TopP := 0; TopK := 0 |};
     Response := {| Schema := "{}";
                    Validation :=
                      {| RequiredFields := ["category"; "confidence"; "action"];
                         ConfidenceRange := (0.5%float, 1%float);
                         AllowedActions := ["none"; "star"; "archive"] |} |};
     System := "Classify spam"; FewShot := []; Policy := {| Conditions := [] |};
     CreatedAt := 0; UpdatedAt := 0 |}.

(** A decoded response with an unknown action, a confidence of 0.2 and no
    [category]. *)
Definition looseObject : gmap string json :=
  {[ "action" := JStr "delete"; "confidence" := JNum 0.2 ]}.

(** A library whose decoder is tabulated on the one text [{loose}]. *)
Definition parserLib : ollama.Lib :=
  {| ollama.TrimSpace := λ s, s;
     ollama.jsonUnmarshal :=
       λ s, if String.eqb s "{loose}" then Some looseObject else None;
     ollama.now := 1700000000%Z |}.

(** *** Audit *)

(** Stand-ins for the hash and the formatters, which the properties below
    do not depend on. *)
Definition auditLib : audit.Lib :=
  {| audit.sha256hex := λ data, "sha256:" +:+ data;
     audit.formatTime := λ t, pretty t;
     audit.fmtf := λ _, "0.000000";
     audit.marshalMetadata := λ _, "{}";
     audit.marshalEntry := λ _, true |}.

Definition outside : audit.Outside :=
  {| audit.idClock := 1700000000000000001%Z; audit.stampClock := 1700000000000000000%Z;
     audit.mkdirOk := true; audit.openOk := true; audit.statOk := true;
     audit.writeOk := true; audit.syncOk := true;
     audit.bcrypt := λ _, None |}.

(** The same, with a sync that fails. *)
Definition outsideSyncFails : audit.Outside :=
  {| audit.idClock := 1700000000000000001%Z; audit.stampClock := 1700000000000000000%Z;
     audit.mkdirOk := true; audit.openOk := true; audit.statOk := true;
     audit.writeOk := true; audit.syncOk := false;
     audit.bcrypt := λ _, None |}.

Definition auditConfig : audit.AuditConfig :=
  {| audit.Enabled := true; audit.Directory := "data/audit";
     audit.IntegrityCheck := true; audit.EncryptionKey := "" |}.

(** *** More profiles *)

(** The time [mkWorld] stamps every profile with. *)
Definition loadTime : Z := 1700000000%Z.

(** [base] and [child1] of [chainWorld] as their files load, and [child1]
    once merged with [base]. *)
Definition baseLoaded : Profile :=
  profile.setTimestamps loadTime (mkProfile "base" "" []).

Definition child1Loaded : Profile :=
  profile.setTimestamps loadTime (mkProfile "child1" "base" []).

Definition child1Resolved : Profile := profile.mergeWithParent child1Loaded baseLoaded.

(** Two files that define the id [a], the second one with a dependency on
    [b], and the file of [b]. *)
Definition dupWorld : profile.World :=
  {| profile.walk := Some [("a.yaml", false); ("a2.yaml", false); ("b.yaml", false)];
     profile.readFile := λ file, Some file;
     profile.yamlUnmarshal :=
       λ data, if String.eqb data "a.yaml" then Some (mkProfile "a" "" [])
               else if String.eqb data "a2.yaml" then Some (mkProfile "a" "" ["b"])
               else if String.eqb data "b.yaml" then Some (mkProfile "b" "" [])
               else None;
     profile.now := λ _, loadTime |}.

(** *** More resolver inputs *)

(** A configuration with the given rules and method, and no weights. *)
Definition configWith (rules : list PriorityRule) (method : string) : ResolverConfig :=
  {| rc_Version := "2.1.0"; PriorityRules := rules;
     Weighting := {| Method := method; ProfileWeights := ∅ |};
     ConflictResolution := ∅ |}.

(** A rule whose condition the resolver does not understand. *)
Definition confidenceRule : PriorityRule :=
  {| pr_Name := "sure_delete"; pr_Condition := "confidence > 0.9";
     pr_Action := "delete"; pr_ConfidenceBoost := 0; pr_Priority := 5000;
     pr_Reason := "Very confident" |}.

(** Two votes for archive against one, more confident, for star. *)
Definition votes : list ClassificationResponse :=
  [response "spam" "archive" 0.6; response "work_priority" "star" 0.9;
   response "newsletters" "archive" 0.7].

Definition labelled (profileID action : string) (confidence : float)
    (labels : list string) : ClassificationResponse :=
  {| ProfileID := profileID; Action := action; Confidence := confidence;
     Reasoning := "model verdict"; Labels := labels; Metadata := ∅; ProcessedAt := 0 |}.

Definition labelledVotes : list ClassificationResponse :=
  [labelled "spam" "archive" 0.8 ["promo"; "bulk"];
   labelled "newsletters" "archive" 0.7 ["bulk"];
   labelled "work_priority" "star" 0.6 ["work"]].

(** *** More of the audit log *)

Definition encoding : audit.Encoding :=
  {| audit.ofInt64 := λ n, JStr (pretty n);
     audit.ofStrings := λ l, JArr (JStr <$> l) |}.

Definition verifier : audit.Verifier :=
  {| audit.hexDecode := λ s, Some s;
     audit.compareHashAndPassword := λ _ _, true |}.

(** The logger [NewLogger] returns on an empty log. *)
Definition freshLogger : audit.Logger :=
  {| audit.config := auditConfig;
     audit.file := Some [audit.genesisEntry auditLib outside];
     audit.entryCount := 0;
     audit.lastHash := audit.Hash (audit.genesisEntry auditLib outside) |}.

(** The logger [NewLogger] returns on a log that holds a genesis entry. *)
Definition reopenedLogger : audit.Logger :=
  {| audit.config := auditConfig;
     audit.file := Some [audit.genesisEntry auditLib outside];
     audit.entryCount := 0;
     audit.lastHash := "" |}.

(** The same as [outside], with a write that fails. *)
Definition outsideWriteFails : audit.Outside :=
  {| audit.idClock := 1700000000000000003%Z; audit.stampClock := 1700000000000000002%Z;
     audit.mkdirOk := true; audit.openOk := true; audit.statOk := true;
     audit.writeOk := false; audit.syncOk := true;
     audit.bcrypt := λ _, None |}.


End fixtures.

(* ===================================================================== *)
(** ** Facts about the order of map loops *)
(* ===================================================================== *)

Section range_facts.
Context {A : Type}.
Implicit Types (l : list A) (cs : seed).

Lemma pickOrder_Permutation n cs l :
  length l ≤ n → pickOrder n cs l ≡ₚ l.
Proof.
  revert cs l. induction n as [|n IH]; intros cs l Hn.
  - destruct l; simpl in *; [done | lia].
  - destruct l as [|x l]; [done|].
    cbn [pickOrder].
    set (i := (hd 0 cs mod length (x :: l))%nat).
    assert (Hi : i < length (x :: l)).
    { subst i. apply Nat.mod_upper_bound. simpl. lia. }
    destruct (lookup_lt_is_Some_2 _ _ Hi) as [y Hy].
    rewrite Hy.
    etrans; [|symmetry; apply (delete_Permutation (x :: l) i y Hy)].
    f_equiv. apply IH.
    pose proof (length_delete (x :: l) i ltac:(eauto)) as Hd.
    simpl in *. lia.
Qed.

Lemma shuffle_Permutation cs l : shuffle cs l ≡ₚ l.
Proof. apply pickOrder_Permutation. done. Qed.

(** Every order of the elements is the order of some seed. *)
Lemma shuffle_complete l' : ∀ l, l' ≡ₚ l → ∃ cs, shuffle cs l = l'.
Proof.
  induction l' as [|x l' IH]; intros l Hp.
  - apply Permutation_nil_l in Hp. subst l. exists []. reflexivity.
  - assert (Hx : x ∈ l) by (rewrite <-Hp; by left).
    apply list_elem_of_lookup in Hx as [i Hi].
    pose proof (lookup_lt_Some _ _ _ Hi) as Hlt.
    destruct (IH (delete i l)) as [cs Hcs].
    { eapply Permutation_cons_inv. rewrite Hp. by apply delete_Permutation. }
    exists (i :: cs). unfold shuffle in *.
    destruct (length l) as [|n] eqn:Hlen; [lia|].
    cbn [pickOrder hd tl]. rewrite Hlen, Nat.mod_small, Hi by done.
    f_equal. rewrite <-Hcs. f_equal.
    rewrite length_delete by eauto. lia.
Qed.

End range_facts.

Lemma rangeKeys_Permutation {V} cs (m : gmap string V) :
  rangeKeys cs m ≡ₚ keys m.
Proof. apply shuffle_Permutation. Qed.

Lemma NoDup_rangeKeys {V} cs (m : gmap string V) : NoDup (rangeKeys cs m).
Proof. rewrite rangeKeys_Permutation. apply NoDup_fst_map_to_list. Qed.

Lemma elem_of_rangeKeys {V} cs (m : gmap string V) k :
  k ∈ rangeKeys cs m ↔ is_Some (m !! k).
Proof.
  rewrite rangeKeys_Permutation. unfold keys. rewrite list_elem_of_fmap. split.
  - intros [[k' v] [-> Hin]]. apply elem_of_map_to_list in Hin. eauto.
  - intros [v Hv]. exists (k, v). split; [done|]. by apply elem_of_map_to_list.
Qed.

Lemma length_rangeKeys {V} cs (m : gmap string V) : length (rangeKeys cs m) = size m.
Proof.
  rewrite rangeKeys_Permutation. unfold keys.
  by rewrite length_fmap, length_map_to_list.
Qed.

Lemma elem_of_keys {V} (m : gmap string V) k : k ∈ keys m ↔ is_Some (m !! k).
Proof. rewrite <-(elem_of_rangeKeys [] m k). by rewrite rangeKeys_Permutation. Qed.

Lemma NoDup_keys {V} (m : gmap string V) : NoDup (keys m).
Proof. apply NoDup_fst_map_to_list. Qed.

(** A [range] loop can visit the keys in any order. *)
Lemma rangeKeys_complete {V} (m : gmap string V) (l : list string) :
  l ≡ₚ keys m → ∃ cs, rangeKeys cs m = l.
Proof. apply shuffle_complete. Qed.

Lemma length_keys {V} (m : gmap string V) : length (keys m) = size m.
Proof. rewrite <-(length_rangeKeys [] m). by rewrite rangeKeys_Permutation. Qed.

(** Reading a map after a write. *)
Lemma getInt_insert (m : gmap string Z) k k' v :
  getInt (<[k := v]> m) k' = if decide (k = k') then v else getInt m k'.
Proof. unfold getInt. rewrite lookup_insert. by case_decide. Qed.

Lemma getList_insert {A} (m : gmap string (list A)) k k' v :
  getList (<[k := v]> m) k' = if decide (k = k') then v else getList m k'.
Proof. unfold getList. rewrite lookup_insert. by case_decide. Qed.

Lemma getFloat_insert (m : gmap string float) k k' v :
  getFloat (<[k := v]> m) k' = if decide (k = k') then v else getFloat m k'.
Proof. unfold getFloat. rewrite lookup_insert. by case_decide. Qed.

(* ===================================================================== *)
(** ** Strings *)
(* ===================================================================== *)

Lemma append_nil_l (s : string) : "" +:+ s = s.
Proof. reflexivity. Qed.

Lemma append_cons (a : ascii) (s t : string) : String a s +:+ t = String a (s +:+ t).
Proof. reflexivity. Qed.

Lemma append_nil_r (s : string) : s +:+ "" = s.
Proof. induction s as [|a s IH]; [done|]. by rewrite append_cons, IH. Qed.

Lemma append_assoc (s t u : string) : (s +:+ t) +:+ u = s +:+ t +:+ u.
Proof. induction s as [|a s IH]; [done|]. by rewrite !append_cons, IH. Qed.

Lemma length_append (s t : string) :
  String.length (s +:+ t) = (String.length s + String.length t)%nat.
Proof. induction s as [|a s IH]; [done|]. rewrite append_cons. simpl. by rewrite IH. Qed.

Lemma prefix_spec (p s : string) : String.prefix p s = true ↔ ∃ suf, s = p +:+ suf.
Proof.
  revert s. induction p as [|a p IH]; intros s.
  - split; [intros _; by exists s|]. by destruct s.
  - destruct s as [|b s]; simpl.
    + split; [done|]. by intros [suf ?].
    + destruct (ascii_dec a b) as [->|Hne].
      * rewrite IH. split; intros [suf Hs]; exists suf.
        -- by rewrite append_cons, <-Hs.
        -- rewrite append_cons in Hs. by simplify_eq.
      * split; [done|]. intros [suf Hs]. rewrite append_cons in Hs. by simplify_eq.
Qed.

Lemma prefix_append (p suf : string) : String.prefix p (p +:+ suf) = true.
Proof. apply prefix_spec. by exists suf. Qed.

Lemma Contains_unfold (s substr : string) :
  Contains s substr =
  if String.prefix substr s then true
  else match s with
       | EmptyString => false
       | String _ s' => Contains s' substr
       end.
Proof. by destruct s. Qed.

(** [strings.Contains] holds exactly of the strings that have [substr] as
    a contiguous part. *)
Lemma Contains_spec (s substr : string) :
  Contains s substr = true ↔ ∃ pre suf, s = pre +:+ substr +:+ suf.
Proof.
  split.
  - induction s as [|a s IH]; rewrite Contains_unfold;
      destruct (String.prefix substr _) eqn:Hp; try done.
    + apply prefix_spec in Hp as [suf Hs]. intros _. exists "", suf.
      by rewrite append_nil_l.
    + apply prefix_spec in Hp as [suf Hs]. intros _. exists "", suf.
      by rewrite append_nil_l.
    + intros (pre & suf & ->)%IH. exists (String a pre), suf.
      by rewrite append_cons.
  - intros (pre & suf & ->). induction pre as [|a pre IH].
    + by rewrite append_nil_l, Contains_unfold, prefix_append.
    + rewrite append_cons, Contains_unfold, IH. by destruct (String.prefix _ _).
Qed.

Lemma Contains_append (s substr pre suf : string) :
  Contains s substr = true → Contains (pre +:+ s +:+ suf) substr = true.
Proof.
  rewrite !Contains_spec. intros (p & q & ->). exists (pre +:+ p), (q +:+ suf).
  by rewrite !append_assoc.
Qed.

Lemma Contains_char_cons (c a : ascii) (s : string) :
  Contains (String a s) (String c "") = false →
  a ≠ c ∧ Contains s (String c "") = false.
Proof.
  simpl. destruct (ascii_dec c a) as [->|Hne].
  - by destruct s.
  - intros Hs. split; [done|]. by destruct s.
Qed.

Lemma IndexFrom_unfold (i : Z) (s substr : string) :
  IndexFrom i s substr =
  if String.prefix substr s then i
  else match s with
       | EmptyString => (-1)%Z
       | String _ s' => IndexFrom (i + 1) s' substr
       end.
Proof. by destruct s. Qed.

Lemma prefix_cons_ne (c a : ascii) (n s : string) :
  a ≠ c → String.prefix (String c n) (String a s) = false.
Proof. intros Hne. simpl. by destruct (ascii_dec c a) as [->|_]. Qed.

Lemma IndexFrom_fresh (c : ascii) (n pre rest : string) (i : Z) :
  Contains pre (String c "") = false →
  IndexFrom i (pre +:+ String c n +:+ rest) (String c n)
  = (i + Z.of_nat (String.length pre))%Z.
Proof.
  revert i. induction pre as [|a pre IH]; intros i Hc.
  - rewrite append_nil_l, IndexFrom_unfold, prefix_append. simpl. lia.
  - apply Contains_char_cons in Hc as [Hne Hc].
    rewrite append_cons, IndexFrom_unfold, prefix_cons_ne, IH by done.
    simpl String.length. lia.
Qed.

Lemma IndexFrom_none (c : ascii) (n s : string) (i : Z) :
  Contains s (String c "") = false → IndexFrom i s (String c n) = (-1)%Z.
Proof.
  revert i. induction s as [|a s IH]; intros i Hc; [done|].
  apply Contains_char_cons in Hc as [Hne Hc].
  rewrite IndexFrom_unfold, prefix_cons_ne by done. by apply IH.
Qed.

Lemma LastIndexFrom_cons (i : Z) (a : ascii) (s substr : string) :
  LastIndexFrom i (String a s) substr =
  let later := LastIndexFrom (i + 1) s substr in
  if (0 <=? later)%Z then later
  else if String.prefix substr (String a s) then i else (-1)%Z.
Proof. done. Qed.

Lemma LastIndexFrom_none (c : ascii) (s : string) (i : Z) :
  Contains s (String c "") = false → LastIndexFrom i s (String c "") = (-1)%Z.
Proof.
  revert i. induction s as [|a s IH]; intros i Hc; [done|].
  apply Contains_char_cons in Hc as [Hne Hc].
  rewrite LastIndexFrom_cons, IH, prefix_cons_ne by done. done.
Qed.

Lemma LastIndexFrom_fresh (c : ascii) (pre suf : string) (i : Z) :
  (0 ≤ i)%Z → Contains suf (String c "") = false →
  LastIndexFrom i (pre +:+ String c suf) (String c "")
  = (i + Z.of_nat (String.length pre))%Z.
Proof.
  revert i. induction pre as [|a pre IH]; intros i Hi Hc.
  - rewrite append_nil_l, LastIndexFrom_cons, LastIndexFrom_none by done.
    replace (String c suf) with (String c "" +:+ suf) by done.
    rewrite prefix_append. simpl. lia.
  - rewrite append_cons, LastIndexFrom_cons, IH by (done || lia). simpl.
    destruct (0 <=? _)%Z eqn:Hle; lia.
Qed.

Lemma substring_0_append (s t : string) :
  String.substring 0 (String.length s) (s +:+ t) = s.
Proof.
  induction s as [|a s IH]; [by destruct t|]. rewrite append_cons. simpl. by rewrite IH.
Qed.

Lemma substring_append (pre mid suf : string) :
  String.substring (String.length pre) (String.length mid) (pre +:+ mid +:+ suf) = mid.
Proof.
  induction pre as [|a pre IH]; [rewrite append_nil_l; apply substring_0_append|].
  rewrite append_cons. simpl. apply IH.
Qed.

Lemma substring_all (s : string) : String.substring 0 (String.length s) s = s.
Proof. rewrite <-(append_nil_r s) at 2. apply substring_0_append. Qed.

(** The slice [s[lo:hi]] that cuts [mid] out of [pre ++ mid ++ suf]. *)
Lemma slice_append (pre mid suf : string) (lo hi : Z) :
  lo = Z.of_nat (String.length pre) →
  hi = Z.of_nat (String.length pre + String.length mid) →
  slice (pre +:+ mid +:+ suf) lo hi = mid.
Proof.
  intros -> ->. unfold slice.
  replace (Z.to_nat (Z.of_nat (String.length pre))) with (String.length pre) by lia.
  replace (Z.to_nat _) with (String.length mid) by lia.
  apply substring_append.
Qed.

(* ===================================================================== *)
(** ** Comparison of [float64] values *)
(* ===================================================================== *)

Lemma SFcompare_opp a b c : SFcompare a b = Some c → SFcompare b a = Some (CompOpp c).
Proof.
  destruct a as [sa|sa| |sa ma ea], b as [sb|sb| |sb mb eb]; simpl;
    try (destruct sa); try (destruct sb); try done; intros; simplify_eq; try done.
  all: rewrite (Z.compare_antisym ea eb); destruct (ea ?= eb)%Z; simpl; try done.
  all: pose proof (Pos.compare_cont_antisym ma mb Eq) as Hm; simpl in Hm.
  all: by rewrite <-Hm.
Qed.

Lemma SFcompare_Lt_trans a b c :
  SFcompare a b = Some Lt → SFcompare b c = Some Lt → SFcompare a c = Some Lt.
Proof.
  destruct a as [sa|sa| |sa ma ea], b as [sb|sb| |sb mb eb], c as [sc|sc| |sc mc ec];
    simpl; try (destruct sa); try (destruct sb); try (destruct sc); try done.
  all: change (Pos.compare_cont Eq ?x ?y) with (Pos.compare x y).
  all: destruct (Z.compare_spec ea eb), (Z.compare_spec eb ec), (Z.compare_spec ea ec);
    try done; try lia.
  all: destruct (Pos.compare_spec ma mb), (Pos.compare_spec mb mc),
         (Pos.compare_spec ma mc); simpl; try done; try lia.
Qed.

(** [<] on [float64] is transitive. *)
Lemma float_ltb_trans (x y z : float) :
  (x <? y)%float = true → (y <? z)%float = true → (x <? z)%float = true.
Proof.
  rewrite !ltb_spec. unfold SFltb.
  destruct (SFcompare (Prim2SF x) (Prim2SF y)) as [[]|] eqn:H1; try done.
  destruct (SFcompare (Prim2SF y) (Prim2SF z)) as [[]|] eqn:H2; try done.
  by rewrite (SFcompare_Lt_trans _ _ _ H1 H2).
Qed.

(** Between two values that are not NaN, [x < y] fails only when
    [y <= x]. *)
Lemma float_leb_of_not_ltb (x y : float) :
  (x =? x)%float = true → (y =? y)%float = true →
  (x <? y)%float = false → (y <=? x)%float = true.
Proof.
  rewrite !FloatAxioms.eqb_spec, FloatAxioms.ltb_spec, FloatAxioms.leb_spec.
  unfold SFeqb, SFltb, SFleb.
  destruct (SFcompare (Prim2SF x) (Prim2SF y)) as [c|] eqn:Hc.
  - rewrite (SFcompare_opp _ _ _ Hc). by destruct c.
  - destruct (Prim2SF x) as [| | |], (Prim2SF y) as [| | |]; done.
Qed.

(** Between two values that are not NaN, [x <= y] fails only when
    [y < x]. *)
Lemma float_ltb_of_not_leb (x y : float) :
  (x =? x)%float = true → (y =? y)%float = true →
  (x <=? y)%float = false → (y <? x)%float = true.
Proof.
  rewrite !FloatAxioms.eqb_spec, FloatAxioms.ltb_spec, FloatAxioms.leb_spec.
  unfold SFeqb, SFltb, SFleb.
  destruct (SFcompare (Prim2SF x) (Prim2SF y)) as [c|] eqn:Hc.
  - rewrite (SFcompare_opp _ _ _ Hc). by destruct c.
  - destruct (Prim2SF x) as [| | |], (Prim2SF y) as [| | |]; done.
Qed.

(** Two values equal to zero are ordered either way. *)
Lemma float_zero_leb (x y : float) :
  (x =? 0)%float = true → (y =? 0)%float = true → (y <=? x)%float = true.
Proof.
  rewrite !FloatAxioms.eqb_spec, FloatAxioms.leb_spec.
  assert (H0 : Prim2SF 0 = S754_zero false) by reflexivity. rewrite H0.
  unfold SFeqb, SFleb.
  destruct (Prim2SF x) as [[]|[]| |[] ? ?], (Prim2SF y) as [[]|[]| |[] ? ?]; done.
Qed.

(* ===================================================================== *)
(** ** The profile registry *)
(* ===================================================================== *)

Module profile_facts.
Import types profile.

(** *** Termination of the queue loop *)

Lemma degreeSum_insert_None (deg : gmap string Z) k v :
  deg !! k = None → degreeSum (<[k := v]> deg) = (Z.to_nat v + degreeSum deg)%nat.
Proof.
  intros Hk. unfold degreeSum. rewrite map_fold_insert_L; [done| |done].
  intros. lia.
Qed.

Lemma degreeSum_delete (deg : gmap string Z) k v :
  deg !! k = Some v → degreeSum deg = (Z.to_nat v + degreeSum (delete k deg))%nat.
Proof.
  intros Hk. unfold degreeSum. rewrite (map_fold_delete_L _ _ k v deg); [done| |done].
  intros. lia.
Qed.

Lemma degreeSum_insert (deg : gmap string Z) k v :
  (degreeSum (<[k := v]> deg) + Z.to_nat (getInt deg k) = degreeSum deg + Z.to_nat v)%nat.
Proof.
  unfold getInt. destruct (deg !! k) as [old|] eqn:Hk; simpl.
  - rewrite <-insert_delete_eq.
    rewrite degreeSum_insert_None by apply lookup_delete_eq.
    rewrite (degreeSum_delete deg k old Hk). lia.
  - rewrite degreeSum_insert_None by done. lia.
Qed.

Lemma relax_potential ns : ∀ deg q deg' q',
  relax ns deg q = (deg', q') → potential deg' q' ≤ potential deg q.
Proof.
  induction ns as [|n ns IH]; intros deg q deg' q' Hr; simpl in Hr.
  - by simplify_eq.
  - apply IH in Hr. etrans; [exact Hr|]. unfold potential.
    pose proof (degreeSum_insert deg n (getInt deg n - 1)) as Hs.
    destruct (Z.eqb_spec (getInt deg n - 1) 0) as [Hz|Hz].
    + rewrite length_app. simpl. lia.
    + lia.
Qed.

Lemma processQueue_potential fuel : ∀ adj deg q r,
  potential deg q ≤ fuel → is_Some (processQueue fuel adj deg q r).
Proof.
  induction fuel as [|fuel IH]; intros adj deg q r Hf.
  - destruct q; simpl; [eauto|]. unfold potential in Hf. simpl in Hf. lia.
  - destruct q as [|c q]; simpl; [eauto|].
    destruct (relax (getList adj c) deg q) as [deg' q'] eqn:Hr.
    apply IH. apply relax_potential in Hr. unfold potential in *. simpl in Hf. lia.
Qed.

(** The queue loop terminates: it reaches the empty queue within as many
    iterations as the queue has entries and the in-degrees have units. *)
Theorem processQueue_terminates adj deg q r :
  is_Some (processQueue (potential deg q) adj deg q r).
Proof. by apply processQueue_potential. Qed.

Lemma runQueue_spec adj deg q :
  processQueue (potential deg q) adj deg q [] = Some (runQueue adj deg q).
Proof.
  unfold runQueue.
  destruct (processQueue_potential (potential deg q) adj deg q []) as [r ->]; done.
Qed.

Lemma targets_app u E1 E2 : targets u (E1 ++ E2) = targets u E1 ++ targets u E2.
Proof. unfold targets. by rewrite filter_app, fmap_app. Qed.

Lemma indeg_app v E1 E2 : indeg v (E1 ++ E2) = (indeg v E1 + indeg v E2)%nat.
Proof. unfold indeg. by rewrite filter_app, length_app. Qed.

Lemma elem_of_targets u v E : v ∈ targets u E ↔ (u, v) ∈ E.
Proof.
  unfold targets. rewrite list_elem_of_fmap. split.
  - intros [[u' v'] [-> [Hu Hin]%list_elem_of_filter]]. simpl in *. by subst.
  - intros Hin. exists (u, v). split; [done|]. by apply list_elem_of_filter.
Qed.

Lemma indeg_0 v E : indeg v E = 0%nat ↔ ∀ u, (u, v) ∉ E.
Proof.
  unfold indeg. rewrite length_zero_iff_nil. split.
  - intros Hnil u Hin.
    assert (Hf : (u, v) ∈ filter (λ e : string * string, e.2 = v) E)
      by by apply list_elem_of_filter.
    rewrite Hnil in Hf. by apply elem_of_nil in Hf.
  - intros Hno. apply elem_of_nil_inv. intros [u v'] [Hv Hin]%list_elem_of_filter.
    simpl in Hv. subst. by apply (Hno u).
Qed.

Lemma elem_of_edgesOf D ids dep id :
  (dep, id) ∈ edgesOf D ids ↔ id ∈ ids ∧ dep ∈ getList D id.
Proof.
  unfold edgesOf, edgesFor. rewrite list_elem_of_bind. split.
  - intros [id' [Hin Hid]].
    apply list_elem_of_fmap in Hin as [dep' [? Hdep]]. by simplify_eq.
  - intros [Hid Hdep]. exists id. split; [|done].
    apply list_elem_of_fmap. eauto.
Qed.

(** The graph after the initialisation loop. *)
Lemma initGraph_graphOf ids : graphOf (initGraph ids) [].
Proof.
  unfold initGraph.
  assert (H : ∀ g, graphOf g [] →
    graphOf (foldl (λ g id, {| inDegree := <[id := 0%Z]> (inDegree g);
                               adjList := <[id := []]> (adjList g) |}) g ids) []).
  { induction ids as [|id ids IH]; intros g Hg; [done|]. simpl. apply IH.
    destruct Hg as [Ha Hd]. split; intros k; simpl.
    - rewrite getList_insert. case_decide; [done|apply Ha].
    - rewrite getInt_insert. case_decide; [done|apply Hd]. }
  apply H. split; intros; done.
Qed.

Lemma initGraph_keys ids k :
  is_Some (inDegree (initGraph ids) !! k) ↔ k ∈ ids.
Proof.
  unfold initGraph.
  assert (H : ∀ g, is_Some (inDegree (foldl (λ g id,
       {| inDegree := <[id := 0%Z]> (inDegree g);
          adjList := <[id := []]> (adjList g) |}) g ids) !! k)
     ↔ is_Some (inDegree g !! k) ∨ k ∈ ids).
  { induction ids as [|id ids IH]; intros g; simpl.
    - rewrite elem_of_nil. tauto.
    - rewrite IH. simpl. rewrite lookup_insert_is_Some, elem_of_cons.
      destruct (decide (id = k)); subst; intuition eauto; done. }
  rewrite H. simpl. rewrite lookup_empty, is_Some_alt. tauto.
Qed.

Lemma addDeps_spec P id deps : ∀ g g' E,
  graphOf g E → addDeps P id deps g = Ok g' →
  graphOf g' (E ++ edgesFor id deps) ∧
  (∀ dep, dep ∈ deps → is_Some (P !! dep)) ∧
  (∀ k, is_Some (inDegree g' !! k) → is_Some (inDegree g !! k) ∨ k = id) ∧
  (∀ k, is_Some (inDegree g !! k) → is_Some (inDegree g' !! k)).
Proof.
  induction deps as [|dep deps IH]; intros g g' E Hg Hok; simpl in Hok.
  - simplify_eq. rewrite app_nil_r. split_and!; [done| |eauto|eauto].
    intros ? []%elem_of_nil.
  - destruct (P !! dep) as [p|] eqn:Hp; [|done].
    eapply (IH _ _ (E ++ [(dep, id)])) in Hok as (Hg' & Hdeps & Hk1 & Hk2).
    + split_and!.
      * simpl. by rewrite cons_middle, app_assoc.
      * intros d [->|Hd]%elem_of_cons; eauto.
      * intros k Hk. apply Hk1 in Hk as [Hk| ->]; [|by right]. simpl in Hk.
        apply lookup_insert_is_Some in Hk as [->|[_ Hk]]; [by right|by left].
      * intros k Hk. apply Hk2. simpl. apply lookup_insert_is_Some.
        destruct (decide (id = k)); eauto.
    + destruct Hg as [Ha Hd]. split; intros k; simpl.
      * rewrite getList_insert, targets_app, Ha. unfold targets at 3. simpl.
        rewrite filter_cons, filter_nil. simpl.
        repeat case_decide; subst; simpl; rewrite ?Ha, ?app_nil_r; done.
      * rewrite getInt_insert, indeg_app, Hd. unfold indeg at 3.
        rewrite filter_cons, filter_nil. simpl.
        repeat case_decide; subst; simpl; rewrite ?Hd; try done; lia.
Qed.

Lemma buildGraph_spec P D ids : ∀ g g' E,
  graphOf g E → buildGraph P D ids g = Ok g' →
  graphOf g' (E ++ edgesOf D ids) ∧
  (∀ id dep, id ∈ ids → dep ∈ getList D id → is_Some (P !! dep)) ∧
  (∀ k, is_Some (inDegree g' !! k) → is_Some (inDegree g !! k) ∨ k ∈ ids) ∧
  (∀ k, is_Some (inDegree g !! k) → is_Some (inDegree g' !! k)).
Proof.
  induction ids as [|id ids IH]; intros g g' E Hg Hok; simpl in Hok.
  - simplify_eq. unfold edgesOf. simpl. rewrite app_nil_r.
    split_and!; [done| |eauto|eauto]. intros ?? []%elem_of_nil.
  - destruct (addDeps P id (getList D id) g) as [g1|e] eqn:Ha; [|done].
    eapply addDeps_spec in Ha as (Hg1 & Hd1 & Hk1 & Hk1'); [|done].
    eapply IH in Hok as (Hg' & Hd' & Hk' & Hk''); [|done].
    split_and!.
    + unfold edgesOf in *. simpl. by rewrite app_assoc.
    + intros id' dep [->|Hin]%elem_of_cons Hdep; eauto.
    + intros k Hk. apply Hk' in Hk as [Hk|Hk]; [|right; by right].
      apply Hk1 in Hk as [Hk| ->]; [by left|right; by left].
    + eauto.
Qed.

Lemma addDeps_ok P id deps : ∀ g,
  (∀ dep, dep ∈ deps → is_Some (P !! dep)) → ∃ g', addDeps P id deps g = Ok g'.
Proof.
  induction deps as [|dep deps IH]; intros g Hall; simpl; [eauto|].
  destruct (Hall dep) as [p ->]; [by left|]. apply IH. intros. apply Hall. by right.
Qed.

Lemma buildGraph_ok P D ids : ∀ g,
  (∀ id dep, id ∈ ids → dep ∈ getList D id → is_Some (P !! dep)) →
  ∃ g', buildGraph P D ids g = Ok g'.
Proof.
  induction ids as [|id ids IH]; intros g Hall; simpl; [eauto|].
  destruct (addDeps_ok P id (getList D id) g) as [g1 ->].
  { intros. eapply Hall; [by left|done]. }
  apply IH. intros. eapply Hall; [by right|done].
Qed.

Lemma addDeps_err P id deps : ∀ g e,
  addDeps P id deps g = Err e →
  ∃ dep, e = DependencyNotFound dep id ∧ dep ∈ deps ∧ P !! dep = None.
Proof.
  induction deps as [|dep deps IH]; intros g e Herr; simpl in Herr; [done|].
  destruct (P !! dep) eqn:Hp.
  - apply IH in Herr as (d & -> & Hd & Hn). exists d. split_and!; [done|by right|done].
  - simplify_eq. exists dep. split_and!; [done|by left|done].
Qed.

Lemma buildGraph_err P D ids : ∀ g e,
  buildGraph P D ids g = Err e →
  ∃ dep id, e = DependencyNotFound dep id ∧ id ∈ ids ∧ dep ∈ getList D id
            ∧ P !! dep = None.
Proof.
  induction ids as [|id ids IH]; intros g e Herr; simpl in Herr; [done|].
  destruct (addDeps P id (getList D id) g) as [g1|e1] eqn:Ha.
  - apply IH in Herr as (dep & id' & -> & Hid & Hd & Hn).
    exists dep, id'. split_and!; [done|by right|done|done].
  - simplify_eq. apply addDeps_err in Ha as (dep & -> & Hd & Hn).
    exists dep, id. split_and!; [done|by left|done|done].
Qed.

Lemma occ_cons v n ns :
  occ v (n :: ns) = ((if decide (n = v) then 1 else 0) + occ v ns)%nat.
Proof. unfold occ. rewrite filter_cons. by case_decide. Qed.

Lemma occ_targets v c E : occ v (targets c E) = indeg v (filter (λ e, e.1 = c) E).
Proof.
  unfold occ, targets, indeg. induction E as [|[u w] E IH]; [done|].
  rewrite (filter_cons _ (u, w)). simpl. destruct (decide (u = c)); [|done].
  rewrite fmap_cons, !filter_cons. simpl.
  destruct (decide (w = v)); simpl; by rewrite IH.
Qed.

Lemma indeg_remaining_snoc v c result E :
  c ∉ result →
  indeg v (remaining result E)
  = (indeg v (remaining (result ++ [c]) E) + occ v (targets c E))%nat.
Proof.
  intros Hc. rewrite occ_targets. unfold indeg, remaining.
  induction E as [|[u w] E IH]; [done|].
  rewrite !(filter_cons _ (u, w)). simpl.
  destruct (decide (u = c)) as [->|Hne].
  - rewrite decide_True by done. rewrite decide_False by set_solver.
    rewrite !filter_cons. simpl. case_decide; simpl; lia.
  - destruct (decide (u ∈ result)) as [Hin|Hnin].
    + rewrite decide_False by set_solver. rewrite decide_False by set_solver. done.
    + rewrite decide_True by done. rewrite decide_True by set_solver.
      rewrite !filter_cons. simpl. case_decide; simpl; lia.
Qed.

Section kahn.
Context (P : gmap string Profile) (E : list (string * string)).
Hypothesis E_nodes : ∀ u v, (u, v) ∈ E → is_Some (P !! v).

Lemma relax_inv result ns : ∀ deg q deg' q',
  loopInv P E ns deg q result → relax ns deg q = (deg', q') →
  loopInv P E [] deg' q' result.
Proof.
  induction ns as [|n ns IH]; intros deg q deg' q' Hinv Hr; simpl in Hr.
  - by simplify_eq.
  - eapply IH; [|exact Hr]. clear Hr IH. destruct Hinv.
    pose proof (inv_deg0 n) as Hn. rewrite occ_cons, decide_True in Hn by done.
    assert (Hfresh : n ∉ result ++ q).
    { intros Hin. apply inv_zero0 in Hin. lia. }
    constructor.
    + intros v. rewrite getInt_insert. case_decide as Hv.
      * subst v. lia.
      * rewrite inv_deg0, occ_cons, decide_False by done. done.
    + destruct (Z.eqb_spec (getInt deg n - 1) 0); [|done].
      rewrite app_assoc. apply NoDup_app. split_and!; [done| |apply NoDup_singleton].
      intros x Hx ->%list_elem_of_singleton. done.
    + intros v Hv. rewrite getInt_insert. case_decide as Hvn.
      * subst v. destruct (Z.eqb_spec (getInt deg n - 1) 0); [done|]. done.
      * apply inv_zero0. destruct (Z.eqb_spec (getInt deg n - 1) 0); [|done].
        rewrite app_assoc in Hv. apply elem_of_app in Hv as [Hv|Hv]; [done|].
        apply list_elem_of_singleton in Hv. done.
    + intros v Hv. destruct (Z.eqb_spec (getInt deg n - 1) 0); [|by apply inv_nodes0].
      rewrite app_assoc in Hv. apply elem_of_app in Hv as [Hv|Hv]; [by apply inv_nodes0|].
      apply list_elem_of_singleton in Hv. subst. apply inv_pending0. by left.
    + intros v Hv. apply inv_pending0. by right.
    + intros v Hs Hz. rewrite getInt_insert in Hz. case_decide as Hvn.
      * subst v. rewrite Hz. simpl. rewrite app_assoc. apply elem_of_app. right.
        by apply list_elem_of_singleton.
      * apply lookup_insert_is_Some in Hs as [?|[_ Hs]]; [done|].
        specialize (inv_ready0 v Hs Hz).
        destruct (Z.eqb_spec (getInt deg n - 1) 0); [|done].
        rewrite app_assoc. apply elem_of_app. by left.
    + intros v Hv. apply lookup_insert_is_Some. destruct (decide (n = v)); eauto.
Qed.

Lemma pop_inv deg c q result :
  loopInv P E [] deg (c :: q) result → forward E result →
  loopInv P E (targets c E) deg q (result ++ [c]) ∧ forward E (result ++ [c]).
Proof.
  intros [] Hfwd.
  assert (Hc : c ∉ result).
  { apply NoDup_app in inv_nodup0 as (_ & Hdisj & _). intros Hin.
    apply (Hdisj c Hin). by left. }
  assert (Heq : (result ++ [c]) ++ q = result ++ c :: q) by by rewrite <-app_assoc.
  split.
  - constructor; rewrite ?Heq; try done.
    + intros v. rewrite inv_deg0. unfold occ at 1. simpl.
      rewrite (indeg_remaining_snoc v c result E Hc). lia.
    + intros v Hv%elem_of_targets. by eapply E_nodes.
  - intros i v u Hi Huv.
    destruct (decide (i < length result)) as [Hlt|Hge].
    + rewrite lookup_app_l in Hi by done.
      destruct (Hfwd i v u Hi Huv) as (j & Hj & Hu). exists j. split; [done|].
      rewrite lookup_app_l; [done|lia].
    + rewrite lookup_app_r in Hi by lia.
      apply list_lookup_singleton_Some in Hi as [Hi ->].
      assert (Hz : indeg v (remaining result E) = 0%nat).
      { pose proof (inv_deg0 v) as Hd. rewrite inv_zero0 in Hd.
        - unfold occ in Hd. simpl in Hd. lia.
        - apply elem_of_app. right. by left. }
      destruct (decide (u ∈ result)) as [Hin|Hnin].
      * apply list_elem_of_lookup in Hin as [j Hj]. exists j. split.
        -- apply lookup_lt_Some in Hj. lia.
        -- by rewrite lookup_app_l by by eapply lookup_lt_Some.
      * exfalso. eapply (proj1 (indeg_0 v _) Hz u).
        apply list_elem_of_filter. done.
Qed.

Lemma processQueue_inv adj fuel : ∀ deg q result r,
  (∀ u, getList adj u = targets u E) →
  loopInv P E [] deg q result → forward E result →
  processQueue fuel adj deg q result = Some r →
  ∃ deg', loopInv P E [] deg' [] r ∧ forward E r.
Proof.
  induction fuel as [|fuel IH]; intros deg q result r Hadj Hinv Hfwd Hrun.
  - destruct q; simpl in Hrun; [|done]. simplify_eq. eauto.
  - destruct q as [|c q]; simpl in Hrun; [simplify_eq; eauto|].
    destruct (relax (getList adj c) deg q) as [deg1 q1] eqn:Hr.
    destruct (pop_inv deg c q result Hinv Hfwd) as [Hinv1 Hfwd1].
    rewrite Hadj in Hr. eapply relax_inv in Hr; [|exact Hinv1].
    eapply IH; eauto.
Qed.

End kahn.

Lemma remaining_nil E : remaining [] E = E.
Proof.
  unfold remaining. induction E as [|e E IH]; [done|].
  rewrite filter_cons, decide_True, IH; [done|]. apply not_elem_of_nil.
Qed.

Section sort.
Context (sd : Sched) (D : gmap string (list string)) (P : gmap string Profile).
Hypothesis D_keys : ∀ id, is_Some (D !! id) → is_Some (P !! id).

Let E := edgesOf D (rangeKeys (s_graph sd) D).

Lemma elem_of_E dep id : (dep, id) ∈ E ↔ dep ∈ getList D id.
Proof.
  unfold E. rewrite elem_of_edgesOf, elem_of_rangeKeys. split; [by intros [_ ?]|].
  intros Hdep. split; [|done]. unfold getList in Hdep.
  destruct (D !! id); [eauto|]. by apply elem_of_nil in Hdep.
Qed.

(** The state in which the queue loop ends, when the graph was built. *)
Lemma runQueue_final g :
  buildGraph P D (rangeKeys (s_graph sd) D) (initGraph (rangeKeys (s_init sd) P)) = Ok g →
  let queue := filter (λ id, getInt (inDegree g) id = 0%Z)
                      (rangeKeys (s_queue sd) (inDegree g)) in
  ∃ deg', loopInv P E [] deg' [] (runQueue (adjList g) (inDegree g) queue)
          ∧ forward E (runQueue (adjList g) (inDegree g) queue).
Proof.
  intros Hb queue.
  destruct (buildGraph_spec _ _ _ _ _ [] (initGraph_graphOf _) Hb)
    as ([Hadj Hdeg] & _ & Hk1 & Hk2).
  simpl in Hadj, Hdeg. fold E in Hadj, Hdeg.
  assert (E_nodes : ∀ u v, (u, v) ∈ E → is_Some (P !! v)).
  { intros u v Huv. apply D_keys. apply elem_of_edgesOf in Huv as [Hv _].
    by apply elem_of_rangeKeys in Hv. }
  eapply (processQueue_inv P E E_nodes); [exact Hadj| | |apply runQueue_spec].
  - constructor.
    + intros v. rewrite Hdeg, remaining_nil. unfold occ. simpl. lia.
    + simpl. apply NoDup_filter, NoDup_rangeKeys.
    + simpl. intros v [Hz _]%list_elem_of_filter. done.
    + simpl. intros v [_ Hv%elem_of_rangeKeys]%list_elem_of_filter.
      apply Hk1 in Hv as [Hv|Hv].
      * apply initGraph_keys in Hv. by apply elem_of_rangeKeys in Hv.
      * apply D_keys. by apply elem_of_rangeKeys in Hv.
    + intros v []%elem_of_nil.
    + simpl. intros v Hs Hz. apply list_elem_of_filter. split; [done|].
      by apply elem_of_rangeKeys.
    + intros v Hv. apply Hk2, initGraph_keys. by apply elem_of_rangeKeys.
  - intros i v u Hi. done.
Qed.

(** A successful sort returns every profile id once, dependencies first. *)
Lemma topologicalSort_sound order :
  topologicalSort sd D P = Ok order →
  order ≡ₚ keys P
  ∧ (∀ id dep, dep ∈ getList D id → precedes order dep id)
  ∧ (∀ id dep, dep ∈ getList D id → is_Some (P !! dep)).
Proof.
  unfold topologicalSort. intros Hsort.
  destruct (buildGraph _ _ _ _) as [g|e] eqn:Hb; [|done].
  destruct (runQueue_final g Hb) as (deg' & Hinv & Hfwd). simpl in Hinv, Hfwd.
  destruct (Nat.eqb_spec (length (runQueue (adjList g) (inDegree g)
     (filter (λ id, getInt (inDegree g) id = 0%Z)
        (rangeKeys (s_queue sd) (inDegree g))))) (size P)) as [Hlen|]; [|done].
  simplify_eq. destruct Hinv. rewrite app_nil_r in *.
  assert (Hperm : runQueue (adjList g) (inDegree g)
     (filter (λ id, getInt (inDegree g) id = 0%Z)
        (rangeKeys (s_queue sd) (inDegree g))) ≡ₚ keys P).
  { apply submseteq_length_Permutation.
    - apply NoDup_submseteq; [done|]. intros x Hx. by apply elem_of_keys, inv_nodes0.
    - rewrite length_keys. lia. }
  split_and!; [done| |].
  - intros id dep Hdep.
    assert (Hid : id ∈ keys P).
    { apply elem_of_keys, D_keys. unfold getList in Hdep.
      destruct (D !! id); [eauto|]. by apply elem_of_nil in Hdep. }
    rewrite <-Hperm in Hid. apply list_elem_of_lookup in Hid as [i Hi].
    destruct (Hfwd i id dep Hi) as (j & Hj & Hu); [by apply elem_of_E|].
    exists j, i. done.
  - intros id dep Hdep.
    destruct (buildGraph_spec _ _ _ _ _ [] (initGraph_graphOf _) Hb) as (_ & Hd & _).
    eapply Hd; [|exact Hdep]. apply elem_of_rangeKeys. unfold getList in Hdep.
    destruct (D !! id); [eauto|]. by apply elem_of_nil in Hdep.
Qed.

(** The sort fails only on a missing dependency or on an incomplete order. *)
Lemma topologicalSort_error e :
  topologicalSort sd D P = Err e →
  e = CircularDependency
  ∨ ∃ dep id, e = DependencyNotFound dep id ∧ dep ∈ getList D id ∧ P !! dep = None.
Proof.
  unfold topologicalSort. intros Hsort.
  destruct (buildGraph _ _ _ _) as [g|e'] eqn:Hb.
  - case_match; simplify_eq. by left.
  - simplify_eq. apply buildGraph_err in Hb as (dep & id & -> & _ & Hd & Hn).
    right. eauto.
Qed.

(** If the profiles can be listed dependencies first, the sort succeeds,
    whatever the order of the map loops. *)
Lemma topologicalSort_complete (ord : list string) :
  (∀ v, v ∈ ord → is_Some (P !! v)) →
  (∀ v, is_Some (P !! v) → v ∈ ord) →
  (∀ id dep, dep ∈ getList D id → is_Some (P !! dep)) →
  (∀ i id dep, ord !! i = Some id → dep ∈ getList D id →
     ∃ j, j < i ∧ ord !! j = Some dep) →
  ∃ order, topologicalSort sd D P = Ok order.
Proof.
  intros Hord1 Hord2 Hdeps Htopo. unfold topologicalSort.
  destruct (buildGraph_ok P D (rangeKeys (s_graph sd) D)
              (initGraph (rangeKeys (s_init sd) P))) as [g Hb].
  { intros. eauto. }
  rewrite Hb. destruct (runQueue_final g Hb) as (deg' & Hinv & Hfwd).
  simpl in Hinv, Hfwd.
  set (r := runQueue _ _ _) in *. destruct Hinv. rewrite app_nil_r in *.
  assert (Hall : ∀ i v, ord !! i = Some v → v ∈ r).
  { intros i. induction (lt_wf i) as [i _ IH]. intros v Hi.
    apply inv_ready0.
    - apply inv_keys0, Hord1. by eapply list_elem_of_lookup_2.
    - rewrite inv_deg0. unfold occ. simpl.
      replace (indeg v (remaining r E)) with 0%nat; [done|].
      symmetry. apply indeg_0. intros u [Hu Hin]%list_elem_of_filter. simpl in Hu.
      apply elem_of_E in Hin. destruct (Htopo i v u Hi Hin) as (j & Hj & Hju).
      apply Hu. eapply IH; eauto. }
  assert (Hperm : r ≡ₚ keys P).
  { apply NoDup_Permutation; [done|apply NoDup_keys|]. intros x.
    rewrite elem_of_keys. split; [apply inv_nodes0|].
    intros Hx. apply Hord2 in Hx. apply list_elem_of_lookup in Hx as [i Hi]. eauto. }
  apply Permutation_length in Hperm. rewrite length_keys in Hperm.
  rewrite Hperm, Nat.eqb_refl. eauto.
Qed.

End sort.

(** *** Completeness of the sort *)

(** Two equal entries of a list that has a duplicate. *)
Lemma duplicate_entries (l : list string) :
  ¬ NoDup l → ∃ i j x, i < j ∧ l !! i = Some x ∧ l !! j = Some x.
Proof.
  induction l as [|x l IH]; intros Hnd.
  - destruct Hnd. constructor.
  - destruct (decide (x ∈ l)) as [Hin|Hn].
    + apply list_elem_of_lookup in Hin as [j Hj]. exists 0, (S j), x.
      split_and!; [lia|done|done].
    + destruct IH as (i & j & y & Hij & Hi & Hj).
      { intros Hl. apply Hnd. by constructor. }
      exists (S i), (S j), y. split_and!; [lia|done|done].
Qed.

Lemma chain_tc (R : relation string) l i j x y :
  chain R l → i < j → l !! i = Some x → l !! j = Some y → tc R x y.
Proof.
  intros Hc Hij. revert y. induction Hij as [|j Hij IH]; intros y Hi Hj.
  - apply tc_once. eapply Hc; eauto.
  - destruct (lookup_lt_is_Some_2 l j) as [z Hz].
    { apply lookup_lt_Some in Hj. lia. }
    eapply tc_r; [by apply IH|]. eapply Hc; eauto.
Qed.

Lemma chain_extend (R : relation string) (S : string → Prop) n :
  (∀ v, S v → ∃ u, S u ∧ R v u) →
  ∀ v, S v →
  ∃ l, length l = Datatypes.S n ∧ l !! 0 = Some v ∧ chain R l ∧ ∀ x, x ∈ l → S x.
Proof.
  intros Hstep. induction n as [|n IH]; intros v Hv.
  - exists [v]. split_and!; [done|done| |].
    + intros i x y Hi Hj. apply lookup_lt_Some in Hj. simpl in Hj. lia.
    + intros x ->%list_elem_of_singleton. done.
  - destruct (Hstep v Hv) as (u & Hu & Hvu).
    destruct (IH u Hu) as (l & Hlen & Hhd & Hc & Hall).
    exists (v :: l). split_and!; [simpl; lia|done| |].
    + intros [|i] x y Hi Hj; simpl in *.
      * simplify_eq. done.
      * eapply Hc; eauto.
    + intros x [->|Hx]%elem_of_cons; eauto.
Qed.

(** In a finite set whose every member is related to another member, some
    member is related to itself through a chain. *)
Lemma stuck_cycle (R : relation string) (S : string → Prop) (univ : list string) v :
  (∀ x, S x → x ∈ univ) → (∀ x, S x → ∃ u, S u ∧ R x u) → S v →
  ∃ x, tc R x x.
Proof.
  intros Huniv Hstep Hv.
  destruct (chain_extend R S (length univ) Hstep v Hv) as (l & Hlen & _ & Hc & Hall).
  destruct (duplicate_entries l) as (i & j & x & Hij & Hi & Hj).
  { intros Hnd.
    assert (l ⊆+ univ) as Hsub by (apply NoDup_submseteq; eauto).
    apply submseteq_length in Hsub. lia. }
  exists x. by eapply chain_tc.
Qed.

Lemma indeg_pos v (E : list (string * string)) :
  indeg v E ≠ 0%nat → ∃ u, (u, v) ∈ E.
Proof.
  unfold indeg. intros Hne.
  destruct (filter (λ e : string * string, e.2 = v) E) as [|[u w] rest] eqn:Hf; [done|].
  assert (Hin : (u, w) ∈ filter (λ e : string * string, e.2 = v) E)
    by (rewrite Hf; by left).
  apply list_elem_of_filter in Hin as [Hw Hin]. simpl in Hw. subst w. eauto.
Qed.

(** Kahn's algorithm is complete: when every dependency is a profile and
    no profile depends on itself through a chain, the sort succeeds. *)
Lemma topologicalSort_acyclic sd (D : gmap string (list string))
    (P : gmap string Profile) :
  (∀ id, is_Some (D !! id) → is_Some (P !! id)) →
  (∀ id dep, dep ∈ getList D id → is_Some (P !! dep)) →
  (∀ id, ¬ tc (λ id dep, dep ∈ getList D id) id id) →
  ∃ order, topologicalSort sd D P = Ok order.
Proof.
  intros D_keys Hdeps Hacyc. unfold topologicalSort.
  destruct (buildGraph_ok P D (rangeKeys (s_graph sd) D)
              (initGraph (rangeKeys (s_init sd) P))) as [g Hb].
  { intros. eauto. }
  rewrite Hb. destruct (runQueue_final sd D P D_keys g Hb) as (deg' & Hinv & Hfwd).
  simpl in Hinv, Hfwd. set (r := runQueue _ _ _) in *.
  destruct Hinv. rewrite app_nil_r in *.
  assert (Hall : ∀ v, is_Some (P !! v) → v ∈ r).
  { intros v Hv. destruct (decide (v ∈ r)) as [|Hn]; [done|]. exfalso.
    destruct (stuck_cycle (λ id dep, dep ∈ getList D id)
                (λ x, is_Some (P !! x) ∧ x ∉ r) (keys P) v) as [x Hx].
    - intros x [Hx _]. by apply elem_of_keys.
    - intros x [Hx Hxr].
      assert (Hpos : indeg x (remaining r (edgesOf D (rangeKeys (s_graph sd) D)))
                     ≠ 0%nat).
      { intros Hz. apply Hxr, inv_ready0; [by apply inv_keys0|].
        rewrite inv_deg0, Hz. unfold occ. simpl. lia. }
      apply indeg_pos in Hpos as [u [Hur Hin]%list_elem_of_filter]. simpl in Hur.
      apply (elem_of_E sd D) in Hin. exists u. split_and!; eauto.
    - done.
    - by apply (Hacyc x). }
  assert (Hperm : r ≡ₚ keys P).
  { apply NoDup_Permutation; [done|apply NoDup_keys|]. intros x.
    rewrite elem_of_keys. split; [apply inv_nodes0|apply Hall]. }
  apply Permutation_length in Hperm. rewrite length_keys in Hperm.
  rewrite Hperm, Nat.eqb_refl. eauto.
Qed.

Lemma tc_impl (R R' : relation string) x y :
  (∀ a b, R a b → R' a b) → tc R x y → tc R' x y.
Proof.
  intros HR Htc. induction Htc as [x y Hxy|x y z Hxy _ IH].
  - apply tc_once. by apply HR.
  - eapply tc_l; [by apply HR|done].
Qed.

(** *** The dependency map and the edges of a profile set *)

Lemma elem_of_depsOf p dep :
  dep ∈ depsOf p ↔ (InheritsFrom p = dep ∧ dep ≠ "") ∨ dep ∈ DependsOn p.
Proof.
  unfold depsOf. rewrite elem_of_app.
  destruct (String.eqb_spec (InheritsFrom p) "") as [He|Hne].
  - rewrite elem_of_nil. split; [intros [[]|?]; by right|].
    intros [[<- Hd]|?]; [done|by right].
  - rewrite list_elem_of_singleton. split.
    + intros [->|?]; [left|right]; done.
    + intros [[<- _]|?]; [left|right]; done.
Qed.

Lemma recordDeps_lookup (P : gmap string Profile) ids : ∀ d k,
  recordDeps P d ids !! k
  = if decide (k ∈ ids ∧ is_Some (P !! k)) then depsOf <$> P !! k else d !! k.
Proof.
  unfold recordDeps. induction ids as [|id ids IH]; intros d k; cbn [foldl].
  - case_decide as H; [|done]. destruct H as [[]%elem_of_nil _].
  - rewrite IH. destruct (decide (k ∈ ids ∧ is_Some (P !! k))) as [[Hin Hs]|Hn].
    + case_decide as H; [done|]. exfalso. apply H. split; [by right|done].
    + destruct (decide (k = id)) as [->|Hne].
      * destruct (P !! id) as [p|] eqn:Hp.
        -- rewrite lookup_insert_eq. case_decide as H; [done|].
           exfalso. apply H. split; [by left|eauto].
        -- case_decide as H; [|done]. destruct H as [_ Hs].
           by apply is_Some_None in Hs.
      * case_decide as H.
        -- destruct H as [[?|?]%elem_of_cons ?]; [done|]. exfalso. by apply Hn.
        -- destruct (P !! id); [by rewrite lookup_insert_ne|done].
Qed.

Lemma recordDeps_spec cs (P : gmap string Profile) :
  recordDeps P ∅ (rangeKeys cs P) = depsOf <$> P.
Proof.
  apply map_eq. intros k. rewrite recordDeps_lookup, lookup_fmap.
  case_decide as Hk; [done|]. rewrite lookup_empty.
  destruct (P !! k) eqn:Hp; [|done]. exfalso. apply Hk.
  split; [apply elem_of_rangeKeys|]; eauto.
Qed.

Lemma getList_deps (P : gmap string Profile) id dep :
  dep ∈ getList (depsOf <$> P) id ↔ dependsOn P id dep.
Proof.
  unfold getList, dependsOn. rewrite lookup_fmap. destruct (P !! id) as [p|]; simpl.
  - rewrite elem_of_depsOf. split; [eauto|]. by intros [? [[= <-] ?]].
  - rewrite elem_of_nil. split; [done|]. by intros [? [? ?]].
Qed.

Lemma deps_keys (P : gmap string Profile) id :
  is_Some ((depsOf <$> P) !! id) → is_Some (P !! id).
Proof. rewrite lookup_fmap. by intros ?%fmap_is_Some. Qed.

(** *** [precedes] on a duplicate-free list *)

Lemma precedes_trans l x y z :
  NoDup l → precedes l x y → precedes l y z → precedes l x z.
Proof.
  intros Hnd (i & j & Hij & Hi & Hj) (j' & k & Hjk & Hj' & Hk).
  assert (j = j') as <- by (eapply NoDup_lookup; eauto).
  exists i, k. split_and!; [lia|done|done].
Qed.

Lemma precedes_irrefl l x : NoDup l → ¬ precedes l x x.
Proof.
  intros Hnd (i & j & Hij & Hi & Hj).
  assert (i = j) by (eapply NoDup_lookup; eauto). lia.
Qed.

Lemma precedes_tc (R : relation string) l :
  NoDup l → (∀ x y, R x y → precedes l y x) →
  ∀ x y, tc R x y → precedes l y x.
Proof.
  intros Hnd HR x y Htc. induction Htc as [x y Hxy|x y z Hxy _ IH].
  - by apply HR.
  - eapply precedes_trans; [done|exact IH|]. by apply HR.
Qed.

Lemma precedes_at l x y i :
  NoDup l → precedes l x y → l !! i = Some y → ∃ j, j < i ∧ l !! j = Some x.
Proof.
  intros Hnd (i' & j' & Hlt & Hx & Hy) Hi.
  assert (j' = i) as -> by (eapply NoDup_lookup; eauto). eauto.
Qed.

(** *** Inheritance resolution *)

Lemma resolveInheritance_inv (P : gmap string Profile) rest : ∀ done C,
  NoDup (done ++ rest) →
  (∀ id, id ∈ rest → is_Some (P !! id)) →
  (∀ i id p, (done ++ rest) !! i = Some id → P !! id = Some p →
     InheritsFrom p ≠ "" → ∃ j, j < i ∧ (done ++ rest) !! j = Some (InheritsFrom p)) →
  resolveInv P C done →
  ∃ M, resolveInheritance rest C = Ok M ∧ resolveInv P M (done ++ rest).
Proof.
  induction rest as [|id rest IH]; intros done C Hnd Hkeys Hpar Hinv.
  - rewrite app_nil_r. simpl. eauto.
  - assert (Hid : id ∉ done).
    { apply NoDup_app in Hnd as (_ & Hd & _). intros Hin. apply (Hd id Hin). by left. }
    destruct (Hkeys id) as [p Hp]; [by left|].
    assert (Hc : C !! id = Some p) by (by rewrite (ri_todo _ _ _ Hinv id Hid)).
    assert (Hmid : (done ++ id :: rest) !! length done = Some id).
    { by rewrite lookup_app_r, Nat.sub_diag by lia. }
    rewrite (cons_middle id done rest), app_assoc in Hnd, Hpar |- *.
    simpl. rewrite Hc.
    destruct (String.eqb_spec (InheritsFrom p) "") as [He|Hne].
    + apply IH; [done|intros; apply Hkeys; by right|done|].
      destruct Hinv. constructor.
      * intros id' Hn. apply ri_todo0. intros ?. apply Hn, elem_of_app. by left.
      * intros id' [Hin| ->%list_elem_of_singleton]%elem_of_app; [by apply ri_done0|].
        split; [|eauto]. unfold resolvedAt. rewrite Hc, Hp.
        by destruct (String.eqb_spec (InheritsFrom p) "").
      * intros id' p' [Hin| ->%list_elem_of_singleton]%elem_of_app Hp' Hn.
        -- apply elem_of_app. left. eauto.
        -- simplify_eq.
    + rewrite <-app_assoc, <-cons_middle in Hpar.
      destruct (Hpar _ _ _ Hmid Hp Hne) as (j & Hj & Hjp).
      rewrite lookup_app_l in Hjp by done.
      assert (Hpd : InheritsFrom p ∈ done) by (by eapply list_elem_of_lookup_2).
      destruct (ri_done _ _ _ Hinv _ Hpd) as [_ [par Hparent]].
      rewrite Hparent.
      rewrite (cons_middle id done rest), app_assoc in Hpar.
      apply IH; [done|intros; apply Hkeys; by right|done|].
      assert (Hneq : InheritsFrom p ≠ id) by (intros <-; done).
      destruct Hinv. constructor.
      * intros id' Hn. rewrite lookup_insert_ne.
        -- apply ri_todo0. intros ?. apply Hn, elem_of_app. by left.
        -- intros <-. apply Hn, elem_of_app. right. by left.
      * intros id' [Hin| ->%list_elem_of_singleton]%elem_of_app.
        -- assert (id ≠ id') by (intros <-; done).
           destruct (ri_done0 id' Hin) as [Heq Hs].
           split; [|by rewrite lookup_insert_ne].
           unfold resolvedAt in *. rewrite lookup_insert_ne by done. rewrite Heq.
           destruct (P !! id') as [p'|] eqn:Hp'; [|done].
           destruct (String.eqb_spec (InheritsFrom p') "") as [|Hn']; [done|].
           rewrite lookup_insert_ne; [done|].
           intros Hip. apply Hid. rewrite Hip. eauto.
        -- split; [|rewrite lookup_insert_eq; eauto].
           unfold resolvedAt. rewrite lookup_insert_eq, Hp.
           destruct (String.eqb_spec (InheritsFrom p) ""); [done|].
           by rewrite lookup_insert_ne, Hparent by done.
      * intros id' p' [Hin| ->%list_elem_of_singleton]%elem_of_app Hp' Hn.
        -- apply elem_of_app. left. eauto.
        -- simplify_eq. apply elem_of_app. by left.
Qed.

Lemma resolveInheritance_spec (P : gmap string Profile) order :
  NoDup order →
  (∀ id, id ∈ order ↔ is_Some (P !! id)) →
  (∀ id dep, dependsOn P id dep → precedes order dep id) →
  ∃ M, resolveInheritance order P = Ok M
       ∧ (∀ id, resolvedAt P M id)
       ∧ (∀ id, is_Some (M !! id) ↔ is_Some (P !! id)).
Proof.
  intros Hnd Hkeys Hdeps.
  destruct (resolveInheritance_inv P order [] P) as (M & HM & Hinv); simpl.
  - done.
  - intros. by apply Hkeys.
  - intros i id p Hi Hp Hne. eapply precedes_at; [done| |exact Hi].
    apply Hdeps. exists p. split; [done|]. by left.
  - constructor; [done|intros ? []%elem_of_nil|intros ?? []%elem_of_nil].
  - exists M. split; [done|]. destruct Hinv. split.
    + intros id. destruct (decide (id ∈ order)) as [Hin|Hn]; [by apply ri_done0|].
      unfold resolvedAt. rewrite (ri_todo0 id Hn).
      destruct (P !! id) eqn:Hp; [|done]. exfalso. apply Hn, Hkeys. eauto.
    + intros id. destruct (decide (id ∈ order)) as [Hin|Hn].
      * split; intros _; [by apply Hkeys|by apply ri_done0].
      * by rewrite (ri_todo0 id Hn).
Qed.

Lemma resolved_unique (P M1 M2 : gmap string Profile) order :
  NoDup order →
  (∀ id, is_Some (P !! id) → id ∈ order) →
  (∀ id dep, dependsOn P id dep → precedes order dep id) →
  (∀ id, resolvedAt P M1 id) → (∀ id, resolvedAt P M2 id) → M1 = M2.
Proof.
  intros Hnd Hkeys Hdeps H1 H2.
  assert (Hall : ∀ i id, order !! i = Some id → M1 !! id = M2 !! id).
  { intros i. induction (lt_wf i) as [i _ IH]. intros id Hi.
    rewrite (H1 id), (H2 id). destruct (P !! id) as [p|] eqn:Hp; [|done].
    destruct (String.eqb_spec (InheritsFrom p) "") as [|Hne]; [done|].
    destruct (precedes_at order (InheritsFrom p) id i Hnd) as (j & Hj & Hjp);
      [|done|].
    - apply Hdeps. exists p. split; [done|]. by left.
    - by rewrite (IH j Hj _ Hjp). }
  apply map_eq. intros id. destruct (P !! id) as [p|] eqn:Hp.
  - destruct (list_elem_of_lookup_1 order id) as [i Hi]; [apply Hkeys; eauto|].
    eauto.
  - by rewrite (H1 id), (H2 id), Hp.
Qed.

Lemma resolved_dependsOn (P M : gmap string Profile) id dep :
  (∀ id, resolvedAt P M id) → dependsOn M id dep → dependsOn P id dep.
Proof.
  intros Hres (m & Hm & Hdep). rewrite (Hres id) in Hm.
  destruct (P !! id) as [p|] eqn:Hp; [|done]. exists p. split; [done|].
  destruct (String.eqb_spec (InheritsFrom p) ""); [by simplify_eq|].
  destruct (M !! InheritsFrom p); simplify_eq/=. done.
Qed.

(** *** [LoadAll] *)

Lemma LoadAll_eq w sd l files :
  findProfileFiles w = Ok files →
  LoadAll w sd l =
    let P := loadFiles w files in
    let D := depsOf <$> P in
    match topologicalSort sd D P with
    | Err e =>
      ({| directory := directory l;
          registry := {| Profiles := ∅; Dependencies := D; LoadOrder := [] |};
          cache := ∅ |}, Some (BuildGraphFailed e))
    | Ok order =>
      match resolveInheritance order P with
      | Err e =>
        ({| directory := directory l;
            registry := {| Profiles := ∅; Dependencies := D; LoadOrder := order |};
            cache := ∅ |}, Some (ResolveFailed e))
      | Ok M =>
        ({| directory := directory l;
            registry := {| Profiles := M; Dependencies := D; LoadOrder := order |};
            cache := ∅ |}, None)
      end
    end.
Proof.
  intros Hf. unfold LoadAll, buildDependencyGraph. rewrite Hf. simpl.
  rewrite recordDeps_spec.
  destruct (topologicalSort sd _ _) as [order|e]; simpl; [|done].
  by destruct (resolveInheritance order _).
Qed.

(** What a successful sort of a loaded profile set gives. *)
Lemma sorted_profiles sd (P : gmap string Profile) order :
  topologicalSort sd (depsOf <$> P) P = Ok order →
  NoDup order
  ∧ (∀ id, id ∈ order ↔ is_Some (P !! id))
  ∧ (∀ id dep, dependsOn P id dep → precedes order dep id)
  ∧ (∀ id dep, dependsOn P id dep → is_Some (P !! dep)).
Proof.
  intros Hs. apply topologicalSort_sound in Hs as (Hperm & Hprec & Hex);
    [|apply deps_keys].
  split_and!.
  - rewrite Hperm. apply NoDup_keys.
  - intros id. by rewrite Hperm, elem_of_keys.
  - intros id dep Hd. apply Hprec. by apply getList_deps.
  - intros id dep Hd. eapply Hex. by apply getList_deps.
Qed.

(** A sort that succeeds under one order of the map loops succeeds under
    every other. *)
Lemma topologicalSort_any_order sd1 sd2 (P : gmap string Profile) order1 :
  topologicalSort sd1 (depsOf <$> P) P = Ok order1 →
  ∃ order2, topologicalSort sd2 (depsOf <$> P) P = Ok order2.
Proof.
  intros (Hnd & Hkeys & Hprec & Hex)%sorted_profiles.
  apply (topologicalSort_complete sd2 _ P (deps_keys P) order1).
  - intros v. apply Hkeys.
  - intros v. apply Hkeys.
  - intros id dep Hd%getList_deps. eauto.
  - intros i id dep Hi Hd%getList_deps. eapply precedes_at; eauto.
Qed.

(** A sorted profile set has no dependency cycle. *)
Lemma sorted_acyclic sd (P : gmap string Profile) order id :
  topologicalSort sd (depsOf <$> P) P = Ok order → ¬ tc (dependsOn P) id id.
Proof.
  intros (Hnd & _ & Hprec & _)%sorted_profiles Hcyc.
  eapply (precedes_irrefl order id Hnd). by eapply precedes_tc.
Qed.

(** The sort is complete: [LoadAll] succeeds on every directory whose
    loaded profiles name only loaded profiles as dependencies and whose
    dependency graph has no cycle, whatever the order of the map loops,
    and the registry then holds exactly the ids of the loaded profiles. *)
Theorem LoadAll_acyclic w sd l files :
  findProfileFiles w = Ok files →
  (∀ id dep, dependsOn (loadFiles w files) id dep →
     is_Some (loadFiles w files !! dep)) →
  (∀ id, ¬ tc (dependsOn (loadFiles w files)) id id) →
  snd (LoadAll w sd l) = None
  ∧ ∀ id, is_Some (Profiles (registry (fst (LoadAll w sd l))) !! id)
          ↔ is_Some (loadFiles w files !! id).
Proof.
  intros Hf Hdeps Hacyc. rewrite (LoadAll_eq w sd l files Hf). simpl.
  destruct (topologicalSort_acyclic sd (depsOf <$> loadFiles w files)
              (loadFiles w files)) as [order Hs].
  - apply deps_keys.
  - intros id dep Hd%getList_deps. eauto.
  - intros id Htc. apply (Hacyc id). eapply tc_impl; [|exact Htc].
    intros a b Hab. by apply getList_deps.
  - rewrite Hs. destruct (sorted_profiles _ _ _ Hs) as (Hnd & Hk & Hp & _).
    destruct (resolveInheritance_spec _ order Hnd Hk Hp) as (M & -> & _ & Hdom).
    simpl. done.
Qed.

(** A file that fails to load is skipped: the other files load as if it
    were not there. *)
Lemma loadFiles_skips w before file after e :
  loadProfileFile w file = Err e →
  loadFiles w (before ++ file :: after) = loadFiles w (before ++ after).
Proof.
  intros He. unfold loadFiles. rewrite !foldl_app. simpl. by rewrite He.
Qed.

Lemma LoadAll_success w sd l l' :
  LoadAll w sd l = (l', None) →
  ∃ files order M,
    findProfileFiles w = Ok files
    ∧ topologicalSort sd (depsOf <$> loadFiles w files) (loadFiles w files) = Ok order
    ∧ resolveInheritance order (loadFiles w files) = Ok M
    ∧ registry l' = {| Profiles := M; Dependencies := depsOf <$> loadFiles w files;
                       LoadOrder := order |}.
Proof.
  intros HL. destruct (findProfileFiles w) as [files|e] eqn:Hf.
  - rewrite (LoadAll_eq w sd l files Hf) in HL. simpl in HL.
    destruct (topologicalSort sd _ _) as [order|e] eqn:Hs; [|done].
    destruct (resolveInheritance order _) as [M|e] eqn:Hr; [|done].
    simplify_eq. exists files, order, M. done.
  - unfold LoadAll in HL. rewrite Hf in HL. done.
Qed.

(** C8.  When [LoadAll] succeeds, the load order lists every profile of the
    registry exactly once, and every profile reached from a profile [id]
    through [inherits_from] and [depends_on] edges (the transitive closure)
    stands at a smaller index of the load order than [id] itself. *)
Theorem LoadAll_dependency_order w sd l l' :
  LoadAll w sd l = (l', None) →
  NoDup (LoadOrder (registry l'))
  ∧ (∀ id, id ∈ LoadOrder (registry l') ↔ is_Some (Profiles (registry l') !! id))
  ∧ (∀ id dep, tc (dependsOn (Profiles (registry l'))) id dep →
       precedes (LoadOrder (registry l')) dep id).
Proof.
  intros (files & order & M & Hf & Hs & Hr & ->)%LoadAll_success. simpl.
  destruct (sorted_profiles _ _ _ Hs) as (Hnd & Hkeys & Hprec & Hex).
  destruct (resolveInheritance_spec _ order Hnd Hkeys Hprec) as (M' & HM' & Hres & Hdom).
  rewrite Hr in HM'. simplify_eq. split_and!; [done| |].
  - intros id. by rewrite Hdom.
  - apply precedes_tc; [done|]. intros id dep Hd. apply Hprec.
    by eapply resolved_dependsOn.
Qed.

(** C2 (amended).  When the profiles that load from the directory contain
    a dependency cycle, [LoadAll] quarantines nothing: it fails as a whole,
    with the circular-dependency error (or the missing-dependency error if
    some dependency is absent too), and the registry holds no profile and
    an empty load order, for the profiles outside the cycle as well. *)
Theorem LoadAll_cycle w sd l files id :
  findProfileFiles w = Ok files →
  tc (dependsOn (loadFiles w files)) id id →
  ∃ e, snd (LoadAll w sd l) = Some (BuildGraphFailed e)
       ∧ (e = CircularDependency
          ∨ ∃ dep id', e = DependencyNotFound dep id'
                       ∧ dependsOn (loadFiles w files) id' dep
                       ∧ loadFiles w files !! dep = None)
       ∧ Profiles (registry (fst (LoadAll w sd l))) = ∅
       ∧ LoadOrder (registry (fst (LoadAll w sd l))) = [].
Proof.
  intros Hf Hcyc. rewrite (LoadAll_eq w sd l files Hf). simpl.
  destruct (topologicalSort sd _ _) as [order|e] eqn:Hs.
  - exfalso. destruct (sorted_profiles _ _ _ Hs) as (Hnd & _ & Hprec & _).
    eapply (precedes_irrefl order id Hnd).
    eapply precedes_tc; [done| |exact Hcyc]. done.
  - exists e. simpl. split_and!; try done.
    apply topologicalSort_error in Hs as [->|(dep & id' & -> & Hd & Hn)]; [by left|].
    right. exists dep, id'. split_and!; [done| |done]. by apply getList_deps.
Qed.

Lemma topologicalSort_missing sd (P : gmap string Profile) id dep :
  dependsOn P id dep → P !! dep = None →
  ∃ dep' id', topologicalSort sd (depsOf <$> P) P = Err (DependencyNotFound dep' id')
              ∧ dependsOn P id' dep' ∧ P !! dep' = None.
Proof.
  intros Hd Hn. unfold topologicalSort.
  destruct (buildGraph _ _ _ _) as [g|e] eqn:Hb.
  - exfalso. destruct (buildGraph_spec _ _ _ _ _ [] (initGraph_graphOf _) Hb)
      as (_ & Hex & _).
    destruct (Hex id dep) as [? ?]; [| |congruence].
    + apply elem_of_rangeKeys. rewrite lookup_fmap.
      destruct Hd as (p & -> & _). simpl. eauto.
    + by apply getList_deps.
  - apply buildGraph_err in Hb as (dep' & id' & -> & _ & Hd' & Hn').
    exists dep', id'. split_and!; [done| |done]. by apply getList_deps.
Qed.

(** C7 (amended).  When a profile that loads from the directory names a
    dependency that is not among the loaded profiles, [LoadAll] fails as a
    whole with a dependency-not-found error naming such a pair, and the
    registry holds no profile at all: the other profiles are not loaded
    either. *)
Theorem LoadAll_missing_dependency w sd l files id dep :
  findProfileFiles w = Ok files →
  dependsOn (loadFiles w files) id dep →
  loadFiles w files !! dep = None →
  ∃ dep' id',
    snd (LoadAll w sd l) = Some (BuildGraphFailed (DependencyNotFound dep' id'))
    ∧ dependsOn (loadFiles w files) id' dep'
    ∧ loadFiles w files !! dep' = None
    ∧ Profiles (registry (fst (LoadAll w sd l))) = ∅
    ∧ LoadOrder (registry (fst (LoadAll w sd l))) = [].
Proof.
  intros Hf Hd Hn. rewrite (LoadAll_eq w sd l files Hf). simpl.
  destruct (topologicalSort_missing sd _ id dep Hd Hn) as (dep' & id' & -> & ? & ?).
  exists dep', id'. done.
Qed.

(** C4 (amended).  Two runs of [LoadAll] over the same directory contents
    and clock readings, whatever orders the map loops take, either both
    fail or both succeed, and leave the same dependency map and the same
    profiles under the same ids (up to the few-shot and policy-condition
    lists, which [append] builds); their load orders list the same ids,
    but not necessarily in the same order: ties are not broken by id. *)
Theorem LoadAll_deterministic_up_to_order w sd1 sd2 l1 l2 :
  withoutLists <$> Profiles (registry (fst (LoadAll w sd1 l1)))
    = withoutLists <$> Profiles (registry (fst (LoadAll w sd2 l2)))
  ∧ Dependencies (registry (fst (LoadAll w sd1 l1)))
    = Dependencies (registry (fst (LoadAll w sd2 l2)))
  ∧ LoadOrder (registry (fst (LoadAll w sd1 l1)))
    ≡ₚ LoadOrder (registry (fst (LoadAll w sd2 l2)))
  ∧ (snd (LoadAll w sd1 l1) = None ↔ snd (LoadAll w sd2 l2) = None).
Proof.
  destruct (findProfileFiles w) as [files|e] eqn:Hf.
  2: { unfold LoadAll. rewrite Hf. simpl. done. }
  rewrite (LoadAll_eq w sd1 l1 files Hf), (LoadAll_eq w sd2 l2 files Hf). simpl.
  set (P := loadFiles w files).
  destruct (topologicalSort sd1 _ P) as [o1|e1] eqn:Hs1;
    destruct (topologicalSort sd2 _ P) as [o2|e2] eqn:Hs2.
  - destruct (sorted_profiles _ _ _ Hs1) as (Hnd1 & Hk1 & Hp1 & _).
    destruct (sorted_profiles _ _ _ Hs2) as (Hnd2 & Hk2 & Hp2 & _).
    destruct (resolveInheritance_spec _ o1 Hnd1 Hk1 Hp1) as (M1 & -> & Hr1 & _).
    destruct (resolveInheritance_spec _ o2 Hnd2 Hk2 Hp2) as (M2 & -> & Hr2 & _).
    simpl. split_and!; [|done| |done].
    + f_equal. eapply (resolved_unique P M1 M2 o1); eauto. intros id. apply Hk1.
    + apply NoDup_Permutation; [done|done|]. intros x. by rewrite Hk1, Hk2.
  - destruct (topologicalSort_any_order sd1 sd2 P o1 Hs1) as [o2 Ho2]. congruence.
  - destruct (topologicalSort_any_order sd2 sd1 P o2 Hs2) as [o1 Ho1]. congruence.
  - simpl. done.
Qed.

(** *** Examples on concrete directories *)

Lemma chainWorld_files :
  findProfileFiles fixtures.chainWorld
  = Ok ["base.yaml"; "child1.yaml"; "child2.yaml"].
Proof. reflexivity. Qed.

Lemma cycleWorld_files :
  findProfileFiles fixtures.cycleWorld = Ok ["a.yaml"; "b.yaml"; "c.yaml"].
Proof. reflexivity. Qed.

Lemma ghostWorld_files :
  findProfileFiles fixtures.ghostWorld = Ok ["a.yaml"; "b.yaml"].
Proof. reflexivity. Qed.

(** The repository's [TestTopologicalSort]: base, child1, child2. *)
Example chainWorld_order :
  LoadOrder (registry (fst (LoadAll fixtures.chainWorld (fixtures.sched [])
                                    fixtures.loader)))
  = ["base"; "child1"; "child2"].
Proof. vm_compute. reflexivity. Qed.

(** C8, on the chain base, child1, child2. *)
Lemma LoadAll_dependency_order_witness :
  let run := LoadAll fixtures.chainWorld (fixtures.sched []) fixtures.loader in
  snd run = None
  ∧ NoDup (LoadOrder (registry (fst run)))
  ∧ (∀ id, id ∈ LoadOrder (registry (fst run))
           ↔ is_Some (Profiles (registry (fst run)) !! id))
  ∧ (∀ id dep, tc (dependsOn (Profiles (registry (fst run)))) id dep →
       precedes (LoadOrder (registry (fst run))) dep id).
Proof.
  split; [vm_compute; reflexivity|].
  apply (LoadAll_dependency_order fixtures.chainWorld (fixtures.sched [])
           fixtures.loader).
  vm_compute. reflexivity.
Defined.

(** C2, on a and b depending on each other. *)
Lemma LoadAll_cycle_witness :
  ∃ e, snd (LoadAll fixtures.cycleWorld (fixtures.sched []) fixtures.loader)
       = Some (BuildGraphFailed e)
       ∧ (e = CircularDependency
          ∨ ∃ dep id', e = DependencyNotFound dep id'
              ∧ dependsOn (loadFiles fixtures.cycleWorld ["a.yaml"; "b.yaml"; "c.yaml"])
                          id' dep
              ∧ loadFiles fixtures.cycleWorld ["a.yaml"; "b.yaml"; "c.yaml"] !! dep
                = None)
       ∧ Profiles (registry (fst (LoadAll fixtures.cycleWorld (fixtures.sched [])
                                          fixtures.loader))) = ∅
       ∧ LoadOrder (registry (fst (LoadAll fixtures.cycleWorld (fixtures.sched [])
                                           fixtures.loader))) = [].
Proof.
  apply (LoadAll_cycle fixtures.cycleWorld (fixtures.sched []) fixtures.loader
           ["a.yaml"; "b.yaml"; "c.yaml"] "a").
  - reflexivity.
  - apply (tc_l _ "a" "b" "a"); [|apply tc_once].
    + eexists. split; [vm_compute; reflexivity|]. right. apply list_elem_of_here.
    + eexists. split; [vm_compute; reflexivity|]. right. apply list_elem_of_here.
Defined.

(** C2 as stated fails: [c] is a valid profile without dependencies,
    outside the cycle of [a] and [b], and yet it is not loaded. *)
Lemma LoadAll_cycle_blocks_the_rest :
  (depsOf <$> loadFiles fixtures.cycleWorld ["a.yaml"; "b.yaml"; "c.yaml"]) !! "c"
    = Some []
  ∧ snd (LoadAll fixtures.cycleWorld (fixtures.sched []) fixtures.loader)
    = Some (BuildGraphFailed CircularDependency)
  ∧ GetProfile (fst (LoadAll fixtures.cycleWorld (fixtures.sched [])
                             fixtures.loader)) "c" = None.
Proof. vm_compute. done. Qed.

(** C7, on a profile that depends on an undefined one. *)
Lemma LoadAll_missing_dependency_witness :
  ∃ dep' id',
    snd (LoadAll fixtures.ghostWorld (fixtures.sched []) fixtures.loader)
    = Some (BuildGraphFailed (DependencyNotFound dep' id'))
    ∧ dependsOn (loadFiles fixtures.ghostWorld ["a.yaml"; "b.yaml"]) id' dep'
    ∧ loadFiles fixtures.ghostWorld ["a.yaml"; "b.yaml"] !! dep' = None
    ∧ Profiles (registry (fst (LoadAll fixtures.ghostWorld (fixtures.sched [])
                                       fixtures.loader))) = ∅
    ∧ LoadOrder (registry (fst (LoadAll fixtures.ghostWorld (fixtures.sched [])
                                        fixtures.loader))) = [].
Proof.
  apply (LoadAll_missing_dependency fixtures.ghostWorld (fixtures.sched [])
           fixtures.loader ["a.yaml"; "b.yaml"] "a" "ghost").
  - reflexivity.
  - eexists. split; [vm_compute; reflexivity|]. right. apply list_elem_of_here.
  - vm_compute. reflexivity.
Defined.

(** C7 as stated fails: [b] names no dependency, and is not loaded because
    [a] names a missing one. *)
Lemma LoadAll_missing_dependency_blocks_the_rest :
  (depsOf <$> loadFiles fixtures.ghostWorld ["a.yaml"; "b.yaml"]) !! "b" = Some []
  ∧ snd (LoadAll fixtures.ghostWorld (fixtures.sched []) fixtures.loader)
    = Some (BuildGraphFailed (DependencyNotFound "ghost" "a"))
  ∧ GetProfile (fst (LoadAll fixtures.ghostWorld (fixtures.sched [])
                             fixtures.loader)) "b" = None.
Proof. vm_compute. done. Qed.

(** C4 as stated fails: two runs over the same directory, differing only
    in the order the runtime takes for the loop over [inDegree], give
    different load orders, the second against the order of the ids. *)
Lemma LoadAll_order_depends_on_map_iteration :
  LoadOrder (registry (fst (LoadAll fixtures.pairWorld (fixtures.sched [0])
                                    fixtures.loader))) = ["a"; "b"]
  ∧ LoadOrder (registry (fst (LoadAll fixtures.pairWorld (fixtures.sched [1])
                                      fixtures.loader))) = ["b"; "a"]
  ∧ snd (LoadAll fixtures.pairWorld (fixtures.sched [1]) fixtures.loader) = None.
Proof. vm_compute. done. Qed.

(** On the chain, under another order of the queue loop. *)
Lemma LoadAll_acyclic_witness :
  snd (LoadAll fixtures.chainWorld (fixtures.sched [2; 1]) fixtures.loader) = None
  ∧ ∀ id,
      is_Some (Profiles (registry (fst (LoadAll fixtures.chainWorld
                                          (fixtures.sched [2; 1]) fixtures.loader)))
               !! id)
      ↔ is_Some (loadFiles fixtures.chainWorld
                   ["base.yaml"; "child1.yaml"; "child2.yaml"] !! id).
Proof.
  assert (Hs : ∃ order,
    topologicalSort (fixtures.sched [])
      (depsOf <$> loadFiles fixtures.chainWorld
                    ["base.yaml"; "child1.yaml"; "child2.yaml"])
      (loadFiles fixtures.chainWorld ["base.yaml"; "child1.yaml"; "child2.yaml"])
    = Ok order) by (eexists; vm_compute; reflexivity).
  destruct Hs as [order Hs].
  apply (LoadAll_acyclic fixtures.chainWorld (fixtures.sched [2; 1]) fixtures.loader
           ["base.yaml"; "child1.yaml"; "child2.yaml"]).
  - reflexivity.
  - by apply (sorted_profiles _ _ _ Hs).
  - intros id. by eapply sorted_acyclic.
Defined.

(** A profile without a system prompt is skipped; the valid one loads. *)
Lemma loadFiles_skips_witness :
  loadFiles fixtures.brokenWorld ([] ++ "broken.yaml" :: ["spam.yaml"])
  = loadFiles fixtures.brokenWorld ([] ++ ["spam.yaml"]).
Proof.
  apply (loadFiles_skips fixtures.brokenWorld [] "broken.yaml" ["spam.yaml"]
           (ValidationFailed "broken.yaml" SystemRequired)).
  vm_compute. reflexivity.
Defined.

Example brokenWorld_loads_the_rest :
  let run := LoadAll fixtures.brokenWorld (fixtures.sched []) fixtures.loader in
  snd run = None
  ∧ LoadOrder (registry (fst run)) = ["spam"]
  ∧ GetProfile (fst run) "broken" = None
  ∧ ID <$> GetProfile (fst run) "spam" = Some "spam".
Proof. vm_compute. done. Qed.

(** *** [mergeWithParent] *)


(** The merge leaves the child's top_p and top_k as they are, and nothing
    but the system prompt, the three merged parameters, the two lists and
    the validation settings differs from the child. *)
Lemma mergeWithParent_untouched (child parent : Profile) :
  let eff := mergeWithParent child parent in
  TopP (Params eff) = TopP (Params child)
  ∧ TopK (Params eff) = TopK (Params child)
  ∧ ID eff = ID child
  ∧ InheritsFrom eff = InheritsFrom child
  ∧ DependsOn eff = DependsOn child.
Proof. done. Qed.

(** The repository's [TestMergeWithParent]. *)
Example mergeWithParent_test :
  let eff := mergeWithParent fixtures.childProfile fixtures.parentProfile in
  System eff
  = "Parent system prompt" +:+ String "010" (String "010" "Child system prompt")
  ∧ Temperature (Params eff) = 0.1%float
  ∧ MaxTokens (Params eff) = 500%Z
  ∧ TimeoutSeconds (Params eff) = 20%Z
  ∧ map fs_Name (FewShot eff) = ["parent_example"; "child_example"]
  ∧ map pc_Name (Conditions (Policy eff)) = ["parent_condition"; "child_condition"]
  ∧ RequiredFields (Validation (Response eff)) = ["action"; "confidence"]
  ∧ ConfidenceRange (Validation (Response eff)) = (0%float, 1%float).
Proof. vm_compute. done. Qed.


(** *** Listing the registry *)

(** [ListProfiles] returns the ids of the registry, each once and in
    ascending byte order, whatever the order in which the map is ranged
    over. *)
Theorem ListProfiles_sorted cs l :
  Sorted String.le (ListProfiles cs l)
  ∧ NoDup (ListProfiles cs l)
  ∧ (∀ id, id ∈ ListProfiles cs l ↔ is_Some (GetProfile l id))
  ∧ (∀ cs', ListProfiles cs' l = ListProfiles cs l).
Proof.
  unfold ListProfiles, sortStrings, GetProfile. split_and!.
  - apply Sorted_merge_sort, _.
  - rewrite merge_sort_Permutation. apply NoDup_rangeKeys.
  - intros id. by rewrite merge_sort_Permutation, elem_of_rangeKeys.
  - intros cs'. apply (Sorted_unique String.le).
    + apply Sorted_merge_sort, _.
    + apply Sorted_merge_sort, _.
    + by rewrite !merge_sort_Permutation, !rangeKeys_Permutation.
Qed.

(** *** Files that define the same id *)

Lemma loadFiles_snoc w files file :
  loadFiles w (files ++ [file]) =
  match loadProfileFile w file with
  | Err _ => loadFiles w files
  | Ok p => <[ID p := p]> (loadFiles w files)
  end.
Proof. unfold loadFiles. by rewrite foldl_app. Qed.

Lemma loaded_snoc w files file :
  loaded w (files ++ [file]) =
  loaded w files ++ match loadProfileFile w file with
                    | Ok p => [p]
                    | Err _ => []
                    end.
Proof.
  unfold loaded. rewrite omap_app. simpl. by destruct (loadProfileFile w file).
Qed.

(** The profile kept under an id is the last one, in the order of the
    files, that carries this id. *)
Lemma loadFiles_lookup w files id :
  loadFiles w files !! id = last (filter (λ p, ID p = id) (loaded w files)).
Proof.
  induction files as [|file files IH] using rev_ind; [done|].
  rewrite loadFiles_snoc, loaded_snoc, filter_app.
  destruct (loadProfileFile w file) as [p|e]; simpl.
  - rewrite filter_cons, filter_nil. case_decide as Hid.
    + subst id. by rewrite lookup_insert_eq, last_snoc.
    + rewrite lookup_insert_ne, app_nil_r by done. apply IH.
  - rewrite filter_nil, app_nil_r. apply IH.
Qed.

(** When several files of the directory define the same id, the profile
    that is kept under that id is the one of the last such file in the
    order of the walk: the earlier ones are replaced without an error. *)
Theorem loadFiles_last_wins w before file after p :
  loadProfileFile w file = Ok p →
  (∀ f q, f ∈ after → loadProfileFile w f = Ok q → ID q ≠ ID p) →
  loadFiles w (before ++ file :: after) !! ID p = Some p.
Proof.
  intros Hp Hafter.
  assert (Hloaded : loaded w (before ++ file :: after)
                    = loaded w before ++ p :: loaded w after).
  { unfold loaded. rewrite omap_app. simpl. by rewrite Hp. }
  assert (Hnil : filter (λ q, ID q = ID p) (loaded w after) = []).
  { destruct (filter _ _) as [|q rest] eqn:Hq; [done|]. exfalso.
    assert (Hin : q ∈ filter (λ q, ID q = ID p) (loaded w after))
      by (rewrite Hq; by left).
    apply list_elem_of_filter in Hin as [Hid Hin]. unfold loaded in Hin.
    apply list_elem_of_omap in Hin as (f & Hf & Hload).
    destruct (loadProfileFile w f) as [q'|] eqn:Hq'; simplify_eq. by eapply Hafter. }
  rewrite loadFiles_lookup, Hloaded, filter_app, filter_cons, decide_True, Hnil by done.
  by rewrite last_snoc.
Qed.

(** *** Validation is kept by inheritance *)

Lemma validateProfile_None p :
  validateProfile p = None ↔
  ID p ≠ "" ∧ Version p ≠ "" ∧ Model p ≠ "" ∧ System p ≠ ""
  ∧ (fst (ConfidenceRange (Validation (Response p))) <? 0)%float = false
  ∧ (1 <? snd (ConfidenceRange (Validation (Response p))))%float = false
  ∧ (snd (ConfidenceRange (Validation (Response p)))
       <=? fst (ConfidenceRange (Validation (Response p))))%float = false
  ∧ (Temperature (Params p) <? 0)%float = false
  ∧ (2 <? Temperature (Params p))%float = false
  ∧ (0 < MaxTokens (Params p))%Z ∧ (0 < TimeoutSeconds (Params p))%Z.
Proof.
  unfold validateProfile.
  destruct (String.eqb_spec (ID p) ""), (String.eqb_spec (Version p) ""),
    (String.eqb_spec (Model p) ""), (String.eqb_spec (System p) ""); try naive_solver.
  destruct (_ <? 0)%float; [naive_solver|].
  destruct (1 <? _)%float; [naive_solver|].
  destruct (_ <=? _)%float; [naive_solver|].
  destruct (_ <? 0)%float; [naive_solver|].
  destruct (2 <? _)%float; [naive_solver|]. simpl.
  destruct (Z.leb_spec (MaxTokens (Params p)) 0); [naive_solver lia|].
  destruct (Z.leb_spec (TimeoutSeconds (Params p)) 0); naive_solver lia.
Qed.

Lemma append_not_empty (s t : string) : t ≠ "" → s +:+ t ≠ "".
Proof. destruct s; [done|]. by rewrite append_cons. Qed.

Lemma mergeWithParent_valid child parent :
  validateProfile child = None → validateProfile parent = None →
  validateProfile (mergeWithParent child parent) = None.
Proof.
  rewrite !validateProfile_None.
  intros (? & ? & ? & Hs & ? & ? & ? & ? & ? & Hm & Ht) (? & ? & ? & Hs' & ? & ? & ? & ? & ? & ? & ?).
  simpl. split_and!; try done.
  - destruct (String.eqb_spec (System child) ""); [done|].
    destruct (String.eqb_spec (System parent) ""); [done|]. simpl.
    by apply append_not_empty.
  - by destruct (_ && _).
  - by destruct (_ && _).
  - by destruct (_ && _).
  - by destruct (_ =? 0)%float.
  - by destruct (_ =? 0)%float.
  - destruct (Z.eqb_spec (MaxTokens (Params child)) 0); lia.
  - destruct (Z.eqb_spec (TimeoutSeconds (Params child)) 0); lia.
Qed.

Lemma loadProfileFile_valid w file p :
  loadProfileFile w file = Ok p → validateProfile p = None.
Proof.
  unfold loadProfileFile. intros H. repeat case_match; by simplify_eq.
Qed.

Lemma loadFiles_valid w files id p :
  loadFiles w files !! id = Some p → ID p = id ∧ validateProfile p = None.
Proof.
  rewrite loadFiles_lookup. intros Hl%last_Some_elem_of.
  apply list_elem_of_filter in Hl as [Hid Hl]. split; [done|].
  unfold loaded in Hl. apply list_elem_of_omap in Hl as (file & _ & Hf).
  destruct (loadProfileFile w file) eqn:Hp; simplify_eq.
  by eapply loadProfileFile_valid.
Qed.

(** A property of every profile that [mergeWithParent] keeps holds of
    every profile once inheritance is resolved. *)
Lemma resolveInheritance_preserves (Q : string → Profile → Prop) order :
  (∀ id child parent, Q id child → Q (InheritsFrom child) parent →
     Q id (mergeWithParent child parent)) →
  ∀ P M, map_Forall Q P → resolveInheritance order P = Ok M → map_Forall Q M.
Proof.
  intros Hmerge. induction order as [|id order IH]; intros P M HP Hr; simpl in Hr.
  - by simplify_eq.
  - destruct (P !! id) as [p|] eqn:Hp; [|done].
    destruct (String.eqb (InheritsFrom p) ""); [by eapply IH|].
    destruct (P !! InheritsFrom p) as [parent|] eqn:Hparent; [|done].
    eapply IH; [|exact Hr]. apply map_Forall_insert_2; [|done].
    apply Hmerge; by eapply HP.
Qed.

(** Every profile of the registry of a successful [LoadAll] stands under
    its own id and passes [validateProfile] as it is, inherited values
    included. *)
Theorem LoadAll_profiles_valid w sd l l' id p :
  LoadAll w sd l = (l', None) → GetProfile l' id = Some p →
  ID p = id ∧ validateProfile p = None.
Proof.
  intros (files & order & M & Hf & Hs & Hr & Hreg)%LoadAll_success.
  unfold GetProfile. rewrite Hreg. simpl.
  apply (resolveInheritance_preserves
           (λ id p, ID p = id ∧ validateProfile p = None) order) in Hr.
  - apply Hr.
  - intros id' child parent [<- Hc] [_ Hp]. split; [done|].
    by apply mergeWithParent_valid.
  - intros id' p'. apply loadFiles_valid.
Qed.

(** *** What validation guarantees *)

(** A profile that passes [validateProfile] has a confidence range with
    [0 <= min < max <= 1] and a temperature within [0, 2], provided these
    three numbers are numbers: the checks are written as rejections
    ([min < 0], [max > 1], [min >= max], ...), which a NaN never meets. *)
Theorem validateProfile_bounds p :
  let lo := fst (ConfidenceRange (Validation (Response p))) in
  let hi := snd (ConfidenceRange (Validation (Response p))) in
  let t := Temperature (Params p) in
  validateProfile p = None →
  (lo =? lo)%float = true → (hi =? hi)%float = true → (t =? t)%float = true →
  (0 <=? lo)%float = true ∧ (lo <? hi)%float = true ∧ (hi <=? 1)%float = true
  ∧ (0 <=? t)%float = true ∧ (t <=? 2)%float = true.
Proof.
  intros lo hi t (_ & _ & _ & _ & H1 & H2 & H3 & H4 & H5 & _)%validateProfile_None
    Hlo Hhi Ht.
  split_and!.
  - by apply float_leb_of_not_ltb.
  - by apply float_ltb_of_not_leb.
  - by apply float_leb_of_not_ltb.
  - by apply float_leb_of_not_ltb.
  - by apply float_leb_of_not_ltb.
Qed.

(** *** The errors of [LoadAll] *)

(** [LoadAll] fails only when the directory cannot be walked, when a
    dependency is missing or on a cycle: once the sort has succeeded,
    resolving inheritance cannot fail.  Whatever the loader held before, a
    failed [LoadAll] leaves it without any profile and with an empty load
    order, so that [GetProfile] finds nothing and [ListProfiles] is
    empty. *)
Theorem LoadAll_errors w sd l l' e :
  LoadAll w sd l = (l', Some e) →
  (e = FindFilesFailed
   ∨ e = BuildGraphFailed CircularDependency
   ∨ ∃ dep id, e = BuildGraphFailed (DependencyNotFound dep id))
  ∧ LoadOrder (registry l') = []
  ∧ (∀ id, GetProfile l' id = None)
  ∧ (∀ cs, ListProfiles cs l' = []).
Proof.
  intros HL.
  assert (He : (e = FindFilesFailed
                ∨ e = BuildGraphFailed CircularDependency
                ∨ ∃ dep id, e = BuildGraphFailed (DependencyNotFound dep id))
               ∧ registry l' = {| Profiles := ∅;
                                  Dependencies := Dependencies (registry l');
                                  LoadOrder := [] |}).
  { destruct (findProfileFiles w) as [files|e'] eqn:Hf.
    - rewrite (LoadAll_eq w sd l files Hf) in HL. simpl in HL.
      destruct (topologicalSort sd _ _) as [order|e'] eqn:Hs.
      + destruct (sorted_profiles _ _ _ Hs) as (Hnd & Hk & Hp & _).
        destruct (resolveInheritance_spec _ order Hnd Hk Hp) as (M & HM & _).
        rewrite HM in HL. done.
      + simplify_eq. split; [|done].
        apply topologicalSort_error in Hs as [->|(dep & id & -> & _)]; eauto.
    - unfold LoadAll in HL. rewrite Hf in HL. simplify_eq. split; [|done].
      unfold findProfileFiles in Hf. destruct (walk w); simplify_eq. by left. }
  destruct He as [He Hreg]. split; [done|].
  unfold GetProfile, ListProfiles. rewrite Hreg. simpl. split_and!; [done|done|].
  intros cs. apply Permutation_nil_r.
  unfold sortStrings. by rewrite merge_sort_Permutation, rangeKeys_Permutation.
Qed.

(** *** Inheritance along a chain *)

(** In the registry of a successful [LoadAll], a profile that inherits
    from nothing is the profile as loaded, and a profile that inherits
    from [q] is the loaded profile merged with [q] as the registry holds
    it, that is, with what [q] itself inherited. *)
Theorem LoadAll_inheritance_resolved w sd l l' files id p :
  LoadAll w sd l = (l', None) → findProfileFiles w = Ok files →
  loadFiles w files !! id = Some p →
  if String.eqb (InheritsFrom p) "" then GetProfile l' id = Some p
  else ∃ q, GetProfile l' (InheritsFrom p) = Some q
            ∧ withoutLists <$> GetProfile l' id
              = Some (withoutLists (mergeWithParent p q)).
Proof.
  intros (files' & order & M & Hf' & Hs & Hr & Hreg)%LoadAll_success Hf Hp.
  rewrite Hf in Hf'. simplify_eq. unfold GetProfile. rewrite Hreg. simpl.
  destruct (sorted_profiles _ _ _ Hs) as (Hnd & Hk & Hprec & Hex).
  destruct (resolveInheritance_spec _ order Hnd Hk Hprec) as (M' & HM' & Hres & Hdom).
  rewrite Hr in HM'. simplify_eq.
  pose proof (Hres id) as Hid. unfold resolvedAt in Hid. rewrite Hp in Hid.
  destruct (String.eqb_spec (InheritsFrom p) "") as [|Hne]; [done|].
  destruct (Hdom (InheritsFrom p)) as [_ [q Hq]].
  { apply (Hex id). exists p. split; [done|]. by left. }
  exists q. split; [done|]. by rewrite Hid, Hq.
Qed.

(** *** What a profile file cannot leave to its parent *)

(** Validation runs on every file before inheritance is resolved, and it
    rejects a zero [max_tokens], a zero [timeout_seconds] and a
    [0, 0] confidence range, the very values [mergeWithParent] reads as
    unset.  So in the registry of a successful [LoadAll] every profile has
    its own [max_tokens], [timeout_seconds] and confidence range, as its
    file gives them, whatever it inherits from. *)
Theorem LoadAll_validated_fields_not_inherited w sd l l' files id p p' :
  LoadAll w sd l = (l', None) → findProfileFiles w = Ok files →
  loadFiles w files !! id = Some p → GetProfile l' id = Some p' →
  MaxTokens (Params p') = MaxTokens (Params p)
  ∧ TimeoutSeconds (Params p') = TimeoutSeconds (Params p)
  ∧ ConfidenceRange (Validation (Response p'))
    = ConfidenceRange (Validation (Response p)).
Proof.
  intros (files' & order & M & Hf' & Hs & Hr & Hreg)%LoadAll_success Hf Hp.
  rewrite Hf in Hf'. simplify_eq. unfold GetProfile. rewrite Hreg. simpl.
  destruct (sorted_profiles _ _ _ Hs) as (Hnd & Hk & Hprec & Hex).
  destruct (resolveInheritance_spec _ order Hnd Hk Hprec) as (M' & HM' & Hres & Hdom).
  rewrite Hr in HM'. simplify_eq.
  pose proof (Hres id) as Hid. unfold resolvedAt in Hid. rewrite Hp in Hid.
  rewrite Hid. destruct (String.eqb (InheritsFrom p) ""); [by intros ?; simplify_eq|].
  destruct (M' !! InheritsFrom p) as [q|]; [|done]. simpl. intros ?; simplify_eq.
  apply loadFiles_valid in Hp as [_ Hv].
  apply validateProfile_None in Hv as (_ & _ & _ & _ & _ & _ & Hrange & _ & _ & Hm & Ht).
  simpl. split_and!.
  - destruct (Z.eqb_spec (MaxTokens (Params p)) 0); [lia|done].
  - destruct (Z.eqb_spec (TimeoutSeconds (Params p)) 0); [lia|done].
  - destruct (fst _ =? 0)%float eqn:Hlo; [|done].
    destruct (snd _ =? 0)%float eqn:Hhi; [|done].
    by rewrite (float_zero_leb _ _ Hlo Hhi) in Hrange.
Qed.

(** *** Examples *)

(** The ids of the registry of [chainWorld], sorted. *)
Example ListProfiles_chainWorld :
  ListProfiles [2; 0] (fst (LoadAll fixtures.chainWorld (fixtures.sched [])
                              fixtures.loader))
  = ["base"; "child1"; "child2"].
Proof. vm_compute. reflexivity. Qed.

(** [a.yaml] and [a2.yaml] both define [a]: the registry holds the profile
    of [a2.yaml], which depends on [b]. *)
Lemma loadFiles_last_wins_witness :
  loadFiles fixtures.dupWorld (["a.yaml"] ++ "a2.yaml" :: ["b.yaml"])
    !! ID (setTimestamps fixtures.loadTime (fixtures.mkProfile "a" "" ["b"]))
  = Some (setTimestamps fixtures.loadTime (fixtures.mkProfile "a" "" ["b"])).
Proof.
  apply (loadFiles_last_wins fixtures.dupWorld ["a.yaml"] "a2.yaml" ["b.yaml"]).
  - vm_compute. reflexivity.
  - intros f q Hf Hq. apply list_elem_of_singleton in Hf. subst f.
    vm_compute in Hq. injection Hq as <-. discriminate.
Defined.

Lemma LoadAll_profiles_valid_witness :
  ID fixtures.child1Resolved = "child1"
  ∧ validateProfile fixtures.child1Resolved = None.
Proof.
  apply (LoadAll_profiles_valid fixtures.chainWorld (fixtures.sched []) fixtures.loader
           (fst (LoadAll fixtures.chainWorld (fixtures.sched []) fixtures.loader))).
  - vm_compute. reflexivity.
  - vm_compute. reflexivity.
Defined.

Lemma validateProfile_bounds_witness :
  let p := fixtures.strictProfile in
  (0 <=? fst (ConfidenceRange (Validation (Response p))))%float = true
  ∧ (fst (ConfidenceRange (Validation (Response p)))
       <? snd (ConfidenceRange (Validation (Response p))))%float = true
  ∧ (snd (ConfidenceRange (Validation (Response p))) <=? 1)%float = true
  ∧ (0 <=? Temperature (Params p))%float = true
  ∧ (Temperature (Params p) <=? 2)%float = true.
Proof.
  apply (validateProfile_bounds fixtures.strictProfile); vm_compute; reflexivity.
Defined.

(** A range and a temperature that are not numbers pass validation. *)
Example validateProfile_accepts_nan :
  validateProfile
    {| ID := "odd"; Version := "1.0.0"; InheritsFrom := ""; DependsOn := [];
       ConditionalExec := None; Model := "qwen2.5:7b";
       Params := {| Temperature := nan; MaxTokens := 1000; TimeoutSeconds := 30;
                    TopP := 0; TopK := 0 |};
       Response := {| Schema := "{}";
                      Validation := {| RequiredFields := [];
                                       ConfidenceRange := (nan, nan);
                                       AllowedActions := [] |} |};
       System := "Classify"; FewShot := []; Policy := {| Conditions := [] |};
       CreatedAt := 0; UpdatedAt := 0 |} = None.
Proof. vm_compute. reflexivity. Qed.

Lemma LoadAll_errors_witness :
  let l' := fst (LoadAll fixtures.cycleWorld (fixtures.sched []) fixtures.loader) in
  (BuildGraphFailed CircularDependency = FindFilesFailed
   ∨ BuildGraphFailed CircularDependency = BuildGraphFailed CircularDependency
   ∨ ∃ dep id, BuildGraphFailed CircularDependency
               = BuildGraphFailed (DependencyNotFound dep id))
  ∧ LoadOrder (registry l') = []
  ∧ (∀ id, GetProfile l' id = None)
  ∧ (∀ cs, ListProfiles cs l' = []).
Proof.
  apply (LoadAll_errors fixtures.cycleWorld (fixtures.sched []) fixtures.loader).
  vm_compute. reflexivity.
Defined.

Lemma LoadAll_inheritance_resolved_witness :
  let l' := fst (LoadAll fixtures.chainWorld (fixtures.sched []) fixtures.loader) in
  ∃ q, GetProfile l' "base" = Some q
       ∧ withoutLists <$> GetProfile l' "child1"
         = Some (withoutLists (mergeWithParent fixtures.child1Loaded q)).
Proof.
  apply (LoadAll_inheritance_resolved fixtures.chainWorld (fixtures.sched [])
           fixtures.loader
           (fst (LoadAll fixtures.chainWorld (fixtures.sched []) fixtures.loader))
           ["base.yaml"; "child1.yaml"; "child2.yaml"] "child1" fixtures.child1Loaded).
  - vm_compute. reflexivity.
  - vm_compute. reflexivity.
  - vm_compute. reflexivity.
Defined.

Lemma LoadAll_validated_fields_not_inherited_witness :
  MaxTokens (Params fixtures.child1Resolved) = MaxTokens (Params fixtures.child1Loaded)
  ∧ TimeoutSeconds (Params fixtures.child1Resolved)
    = TimeoutSeconds (Params fixtures.child1Loaded)
  ∧ ConfidenceRange (Validation (Response fixtures.child1Resolved))
    = ConfidenceRange (Validation (Response fixtures.child1Loaded)).
Proof.
  apply (LoadAll_validated_fields_not_inherited fixtures.chainWorld (fixtures.sched [])
           fixtures.loader
           (fst (LoadAll fixtures.chainWorld (fixtures.sched []) fixtures.loader))
           ["base.yaml"; "child1.yaml"; "child2.yaml"] "child1").
  - vm_compute. reflexivity.
  - vm_compute. reflexivity.
  - vm_compute. reflexivity.
  - vm_compute. reflexivity.
Defined.

End profile_facts.

(* ===================================================================== *)
(** ** The decision resolver *)
(* ===================================================================== *)

Module resolver_facts.
Import types resolver.

(** *** Comparison of [float64] values *)

Lemma SFcompare_Lt_Gt a b : SFcompare a b = Some Lt → SFcompare b a = Some Gt.
Proof.
  destruct a as [sa|sa| |sa ma ea], b as [sb|sb| |sb mb eb]; simpl;
    try (destruct sa); try (destruct sb); try done.
  all: rewrite (Z.compare_antisym eb ea); destruct (eb ?= ea)%Z; simpl; try done.
  all: pose proof (Pos.compare_cont_antisym ma mb Eq) as Hm; simpl in Hm.
  all: rewrite <-Hm; by destruct (Pos.compare_cont Eq ma mb).
Qed.

Lemma ltb_asym (x y : float) : (x <? y)%float = true → (y <? x)%float = false.
Proof.
  rewrite !ltb_spec. unfold SFltb.
  destruct (SFcompare (Prim2SF x) (Prim2SF y)) as [[]|] eqn:Hc; try done.
  intros _. by rewrite (SFcompare_Lt_Gt _ _ Hc).
Qed.

(** *** The selection loops *)

Lemma highest_elem (results : list ClassificationResponse) : ∀ acc d,
  foldl (λ best r, match best with
                   | None => Some r
                   | Some b => if (Confidence b <? Confidence r)%float
                               then Some r else Some b
                   end) acc results = Some d →
  acc = Some d ∨ d ∈ results.
Proof.
  induction results as [|r results IH]; intros acc d Hf; simpl in Hf; [by left|].
  apply IH in Hf as [Hf|Hf]; [|right; by right].
  destruct acc as [b|]; [|simplify_eq; right; by left].
  destruct (Confidence b <? Confidence r)%float; simplify_eq; [right|left]; [by left|done].
Qed.

Lemma resolveByHighestConfidence_elem results d :
  resolveByHighestConfidence results = Some d → d ∈ results.
Proof. intros [?|?]%highest_elem; done. Qed.







(** *** Decisions that no priority rule selects *)



(** C10.  A single response is returned as it is, whatever the
    configuration (priority rules, weights, method) and the runtime, and an
    empty list of responses is an error. *)
Theorem ResolveDecision_single_and_empty cfg rt email (r : ClassificationResponse) :
  ResolveDecision cfg rt email [r] = Ok r
  ∧ ResolveDecision cfg rt email [] = Err NoResults.
Proof. split; reflexivity. Qed.

(** *** Examples *)



(** The specification's own scenario 4, a single archive response at 0.82:
    it is returned as it is. *)
Example ResolveDecision_scenario_4 :
  ResolveDecision (fixtures.config "weighted_average") (fixtures.runtime [])
                  fixtures.email [fixtures.response "spam" "archive" 0.82]
  = Ok (fixtures.response "spam" "archive" 0.82).
Proof. reflexivity. Qed.




(** C10: a single response is returned even when a priority rule would
    override it. *)
Example ResolveDecision_single_skips_priority_rules :
  (∃ o, applyPriorityRules (fixtures.config "weighted_average") (fixtures.runtime [])
                           fixtures.email [fixtures.phishing] = Some o
        ∧ Action o = "archive")
  ∧ ResolveDecision (fixtures.config "weighted_average") (fixtures.runtime [])
                    fixtures.email [fixtures.phishing] = Ok fixtures.phishing.
Proof. split; [eexists; vm_compute; done|reflexivity]. Qed.

(** *** Priority rules *)

Lemma insertRule_Permutation r l : insertRule r l ≡ₚ r :: l.
Proof.
  induction l as [|x l IH]; simpl; [done|].
  destruct (pr_Priority x <=? pr_Priority r)%Z; [done|].
  by rewrite IH, Permutation_swap.
Qed.

Lemma sortRules_Permutation rules : sortRules rules ≡ₚ rules.
Proof.
  induction rules as [|r rules IH]; simpl; [done|].
  by rewrite insertRule_Permutation, IH.
Qed.

Lemma insertRule_sorted r l :
  StronglySorted (λ a b, (pr_Priority b ≤ pr_Priority a)%Z) l →
  StronglySorted (λ a b, (pr_Priority b ≤ pr_Priority a)%Z) (insertRule r l).
Proof.
  induction 1 as [|x l Hs IH Hx]; simpl; [repeat constructor|].
  destruct (Z.leb_spec (pr_Priority x) (pr_Priority r)) as [Hle|Hlt].
  - constructor; [by constructor|]. constructor; [done|].
    eapply Forall_impl; [exact Hx|]. simpl. intros; lia.
  - constructor; [done|]. rewrite insertRule_Permutation.
    constructor; [lia|done].
Qed.

Lemma sortRules_sorted rules :
  StronglySorted (λ a b, (pr_Priority b ≤ pr_Priority a)%Z) (sortRules rules).
Proof.
  induction rules as [|r rules IH]; simpl; [constructor|]. by apply insertRule_sorted.
Qed.

(** In a sorted list, [find] returns an element that stands before every
    other element satisfying the test. *)
Lemma find_sorted {A} (R : relation A) (f : A → bool) (l : list A) x :
  StronglySorted R l → List.find f l = Some x →
  x ∈ l ∧ f x = true ∧ ∀ y, y ∈ l → f y = true → y = x ∨ R x y.
Proof.
  induction 1 as [|z l Hs IH Hz]; simpl; [done|].
  destruct (f z) eqn:Hfz.
  - intros ?; simplify_eq. split_and!; [by left|done|].
    intros y [->|Hy]%elem_of_cons _; [by left|right].
    by eapply Forall_forall in Hz.
  - intros (Hx & Hfx & Hmin)%IH. split_and!; [by right|done|].
    intros y [->|Hy]%elem_of_cons Hfy; [congruence|by apply Hmin].
Qed.

Lemma min_1_bound (x : float) : (1 <? min 1 x)%float = false.
Proof. unfold min. destruct (1 <? x)%float eqn:Hlt; [reflexivity|exact Hlt]. Qed.

Lemma applyPriorityRules_none cfg rt email results :
  (∀ rule, rule ∈ PriorityRules cfg →
           evaluateCondition (pr_Condition rule) email results = false) →
  applyPriorityRules cfg rt email results = None.
Proof.
  intros Hall. unfold applyPriorityRules.
  destruct (List.find _ _) as [rule|] eqn:Hfind; [|done].
  apply find_some in Hfind as [Hin Hc]. apply list_elem_of_In in Hin.
  rewrite sortRules_Permutation in Hin. by rewrite (Hall rule Hin) in Hc.
Qed.

(** When a priority rule overrides the decision, the override is that of a
    configured rule whose condition holds and whose priority is not below
    that of any other rule whose condition holds, and its confidence is
    never above 1.  No override is made exactly when no rule's condition
    holds. *)
Theorem applyPriorityRules_highest_priority cfg rt email results :
  match applyPriorityRules cfg rt email results with
  | Some d =>
    ∃ rule, rule ∈ PriorityRules cfg
            ∧ evaluateCondition (pr_Condition rule) email results = true
            ∧ d = overrideResult rt rule results
            ∧ (1 <? Confidence d)%float = false
            ∧ ∀ rule', rule' ∈ PriorityRules cfg →
                evaluateCondition (pr_Condition rule') email results = true →
                (pr_Priority rule' ≤ pr_Priority rule)%Z
  | None =>
    ∀ rule, rule ∈ PriorityRules cfg →
            evaluateCondition (pr_Condition rule) email results = false
  end.
Proof.
  unfold applyPriorityRules.
  destruct (List.find _ _) as [rule|] eqn:Hfind.
  - apply (find_sorted _ _ _ _ (sortRules_sorted _)) in Hfind as (Hin & Hc & Hmax).
    exists rule. rewrite sortRules_Permutation in Hin. split_and!; try done.
    + unfold overrideResult.
      destruct (0 <? pr_ConfidenceBoost rule)%float; [|done].
      destruct (resolveByHighestConfidence results) as [h|]; [|done]. simpl.
      apply min_1_bound.
    + intros rule' Hin' Hc'. rewrite <-sortRules_Permutation in Hin'.
      destruct (Hmax rule' Hin' Hc') as [->|?]; [done|lia].
  - intros rule Hin. rewrite <-sortRules_Permutation in Hin.
    apply list_elem_of_In in Hin. by apply (find_none _ _ Hfind).
Qed.

(** *** Conditions *)

Lemma Contains_trans (s t u : string) :
  Contains s t = true → Contains t u = true → Contains s u = true.
Proof.
  intros (pre & suf & ->)%Contains_spec Hu. by apply Contains_append.
Qed.

(** A condition is only searched for three phrases: whatever text stands
    around a condition that holds (a negation, a further conjunct), the
    longer condition holds too. *)
Theorem evaluateCondition_substring c1 c2 email results :
  Contains c2 c1 = true →
  evaluateCondition c1 email results = true →
  evaluateCondition c2 email results = true.
Proof.
  intros Hc. unfold evaluateCondition.
  pose proof (Contains_trans c2 c1 "phishing_score >= 0.8" Hc) as H1.
  pose proof (Contains_trans c2 c1 "importance == 'critical'" Hc) as H2.
  pose proof (Contains_trans c2 c1 "sender_reputation.trust_score >= 0.9" Hc) as H3.
  destruct (Contains c1 "phishing_score >= 0.8"); [rewrite H1 by done|];
    destruct (Contains c1 "importance == 'critical'"); [rewrite H2 by done| |rewrite H2 by done|];
    destruct (Contains c1 "sender_reputation.trust_score >= 0.9");
    try (rewrite H3 by done); clear H1 H2 H3; simpl;
    repeat (destruct (existsb _ _); simpl; try done);
    repeat (destruct (Contains c2 _); simpl; try done).
Qed.

Lemma evaluateCondition_unrecognised condition email results :
  recognised condition = false → evaluateCondition condition email results = false.
Proof.
  unfold recognised, evaluateCondition.
  intros [[-> ->]%orb_false_elim ->]%orb_false_elim. done.
Qed.

(** Priority rules whose condition holds none of the three phrases
    [evaluateCondition] looks for never change a decision: the resolver
    decides as it does without any rule. *)
Theorem ResolveDecision_unrecognised_rules cfg cfg' rt email results :
  (∀ rule, rule ∈ PriorityRules cfg → recognised (pr_Condition rule) = false) →
  PriorityRules cfg' = [] → Weighting cfg' = Weighting cfg →
  ResolveDecision cfg rt email results = ResolveDecision cfg' rt email results.
Proof.
  intros Hrules Hnil Hw.
  assert (Hnone : ∀ c : ResolverConfig,
    (∀ rule, rule ∈ PriorityRules c → recognised (pr_Condition rule) = false) →
    applyPriorityRules c rt email results = None).
  { intros c Hc. pose proof (applyPriorityRules_none c rt email results) as Hn.
    apply Hn. intros rule Hin. by apply evaluateCondition_unrecognised, Hc. }
  unfold ResolveDecision. destruct results as [|r1 [|r2 rest]]; [done..|].
  rewrite (Hnone cfg Hrules), (Hnone cfg')
    by (rewrite Hnil; intros ? ?%elem_of_nil; done).
  unfold resolveConflicts, applyConfidenceWeighting, resolveByWeightedAverage,
    actionConfidences.
  by rewrite Hw.
Qed.

(** *** The [highest_confidence] and [consensus] methods *)


Lemma countOf_weighted cfg a results :
  countOf a (applyConfidenceWeighting cfg results) = countOf a results.
Proof.
  unfold countOf, applyConfidenceWeighting.
  induction results as [|r results IH]; [done|].
  cbn [map]. rewrite !filter_cons.
  assert (Ha : Action (match ProfileWeights (Weighting cfg) !! ProfileID r with
                       | Some weight =>
                         withConfidence (min 1 (Confidence r * weight)%float) r
                       | None => r
                       end) = Action r)
    by (by destruct (ProfileWeights (Weighting cfg) !! ProfileID r)).
  rewrite Ha. case_decide; cbn [length]; by rewrite IH.
Qed.

Lemma ltb_irrefl (x : float) : (x <? x)%float = false.
Proof.
  destruct (x <? x)%float eqn:Hx; [|done]. by rewrite (ltb_asym _ _ Hx) in Hx.
Qed.

(** The loop of [resolveByHighestConfidence] keeps a result that no result
    seen so far exceeds. *)
Lemma highest_greatest (results : list ClassificationResponse) :
  ∀ (seen : list ClassificationResponse) b d,
  (∀ r, r ∈ seen → (Confidence b <? Confidence r)%float = false) →
  foldl (λ best r, match best with
                   | None => Some r
                   | Some b => if (Confidence b <? Confidence r)%float
                               then Some r else Some b
                   end) (Some b) results = Some d →
  ∀ r, r ∈ seen ++ results → (Confidence d <? Confidence r)%float = false.
Proof.
  induction results as [|x results IH]; intros seen b d Hseen Hf; simpl in Hf.
  - simplify_eq. by rewrite app_nil_r.
  - rewrite (cons_middle x seen results), app_assoc.
    destruct (Confidence b <? Confidence x)%float eqn:Hlt.
    + apply (IH _ x); [|done]. intros r [Hr|Hr]%elem_of_app.
      * destruct (Confidence x <? Confidence r)%float eqn:Hxr; [|done].
        by rewrite <-(Hseen r Hr), (float_ltb_trans _ _ _ Hlt Hxr).
      * apply list_elem_of_singleton in Hr. subst r. apply ltb_irrefl.
    + apply (IH _ b); [|done]. intros r [Hr|Hr]%elem_of_app; [by apply Hseen|].
      apply list_elem_of_singleton in Hr. by subst r.
Qed.

Lemma resolveByHighestConfidence_greatest results d :
  resolveByHighestConfidence results = Some d →
  d ∈ results ∧ ∀ r, r ∈ results → (Confidence d <? Confidence r)%float = false.
Proof.
  intros Hd. split; [by apply resolveByHighestConfidence_elem|].
  destruct results as [|x results]; [done|].
  unfold resolveByHighestConfidence in Hd. simpl in Hd.
  apply (highest_greatest results [x] x d); [|done].
  intros r Hr. apply list_elem_of_singleton in Hr. subst r. apply ltb_irrefl.
Qed.

Lemma resolveByHighestConfidence_Some results :
  results ≠ [] → is_Some (resolveByHighestConfidence results).
Proof.
  destruct results as [|x results]; [done|]. intros _.
  unfold resolveByHighestConfidence. simpl. generalize x.
  induction results as [|y results IH]; intros b; simpl; [eauto|].
  destruct (Confidence b <? Confidence y)%float; apply IH.
Qed.

(** Under the [highest_confidence] method, when no priority rule fires,
    the decision is one of the weighted results and no weighted result has
    a confidence strictly above its own. *)
Theorem ResolveDecision_highest_confidence cfg rt email results :
  2 ≤ length results →
  applyPriorityRules cfg rt email results = None →
  Method (Weighting cfg) = "highest_confidence" →
  ∃ d, ResolveDecision cfg rt email results = Ok d
       ∧ d ∈ applyConfidenceWeighting cfg results
       ∧ ∀ r, r ∈ applyConfidenceWeighting cfg results →
              (Confidence d <? Confidence r)%float = false.
Proof.
  intros Hlen Hp Hm. unfold ResolveDecision.
  destruct results as [|r1 [|r2 rest]]; [simpl in Hlen; lia..|].
  rewrite Hp. unfold resolveConflicts. rewrite Hm. simpl String.eqb.
  destruct (resolveByHighestConfidence_Some
              (applyConfidenceWeighting cfg (r1 :: r2 :: rest))) as [d Hd]; [done|].
  rewrite Hd. exists d. split; [done|]. by apply resolveByHighestConfidence_greatest.
Qed.

Lemma countByAction_snoc results r :
  countByAction (results ++ [r]) =
  <[Action r := (getInt (countByAction results) (Action r) + 1)%Z]>
    (countByAction results).
Proof. unfold countByAction. by rewrite foldl_app. Qed.

Lemma countOf_snoc a results r :
  countOf a (results ++ [r]) =
  (countOf a results + if decide (Action r = a) then 1 else 0)%nat.
Proof.
  unfold countOf. rewrite filter_app, length_app, filter_cons, filter_nil.
  by case_decide.
Qed.

(** [actionCounts] holds, for the actions proposed, how many results
    propose them. *)
Lemma countByAction_spec results a :
  getInt (countByAction results) a = Z.of_nat (countOf a results)
  ∧ (is_Some (countByAction results !! a) ↔ (0 < countOf a results)%nat).
Proof.
  induction results as [|r results IH] using rev_ind.
  - unfold getInt, countByAction, countOf. simpl. rewrite lookup_empty.
    split; [done|]. split; [by intros ?%is_Some_None|lia].
  - destruct IH as [IH1 IH2]. rewrite countByAction_snoc, countOf_snoc.
    rewrite getInt_insert. split.
    + case_decide as Ha; [subst a|]; rewrite ?IH1; lia.
    + rewrite lookup_insert_is_Some. case_decide as Ha; [subst a|].
      * split; [lia|]. intros _. by left.
      * rewrite IH2. split; [intros [?|[_ ?]]; [done|lia]|].
        intros ?. right. split; [done|lia].
Qed.

Lemma groupByAction_snoc results r :
  groupByAction (results ++ [r]) =
  <[Action r := getList (groupByAction results) (Action r) ++ [r]]>
    (groupByAction results).
Proof. unfold groupByAction. by rewrite foldl_app. Qed.

(** [actionGroups] holds, for every action, the results that propose it
    in the order of the slice. *)
Lemma groupByAction_lookup results a :
  getList (groupByAction results) a = filter (λ r, Action r = a) results.
Proof.
  induction results as [|r results IH] using rev_ind; [done|].
  rewrite groupByAction_snoc, getList_insert, filter_app, filter_cons, filter_nil.
  case_decide as Ha.
  - subst a. by rewrite IH.
  - by rewrite app_nil_r.
Qed.

(** The loop over [actionCounts]: the count it ends with is the greatest,
    and belongs to the action it ends with unless no count is positive. *)
Lemma majority_loop (counts : gmap string Z) (order : list string) :
  ∀ acc : string * Z,
  let best :=
    foldl (λ (acc : string * Z) action,
             let count := getInt counts action in
             if (snd acc <? count)%Z then (action, count) else acc) acc order in
  (snd acc ≤ snd best)%Z
  ∧ (∀ a, a ∈ order → (getInt counts a ≤ snd best)%Z)
  ∧ (best = acc ∨ (fst best ∈ order ∧ snd best = getInt counts (fst best))).
Proof.
  induction order as [|x order IH]; intros acc; simpl.
  - split_and!; [lia|by intros ? ?%elem_of_nil|by left].
  - specialize (IH (if (snd acc <? getInt counts x)%Z
                    then (x, getInt counts x) else acc)).
    simpl in IH. destruct IH as (Hge & Hall & Hbest).
    destruct (Z.ltb_spec (snd acc) (getInt counts x)) as [Hlt|Hle]; simpl in *.
    + split_and!; [lia| |].
      * intros a [->|Ha]%elem_of_cons; [lia|by apply Hall].
      * right. destruct Hbest as [->|[Hin Heq]]; simpl; [split; [by left|done]|].
        split; [by right|done].
    + split_and!; [done| |].
      * intros a [->|Ha]%elem_of_cons; [lia|by apply Hall].
      * destruct Hbest as [?|[Hin Heq]]; [by left|right]. split; [by right|done].
Qed.

(** Under the [consensus] method, when no priority rule fires, the
    decision is one of the weighted results, and no action is proposed by
    more results than the action of the decision. *)
Theorem ResolveDecision_consensus cfg rt email results :
  2 ≤ length results →
  applyPriorityRules cfg rt email results = None →
  Method (Weighting cfg) = "consensus" →
  ∃ d, ResolveDecision cfg rt email results = Ok d
       ∧ d ∈ applyConfidenceWeighting cfg results
       ∧ ∀ a, countOf a results ≤ countOf (Action d) results.
Proof.
  intros Hlen Hp Hm. unfold ResolveDecision.
  destruct results as [|r1 [|r2 rest]]; [simpl in Hlen; lia..|].
  rewrite Hp. unfold resolveConflicts. rewrite Hm. simpl String.eqb.
  set (results := r1 :: r2 :: rest).
  set (weighted := applyConfidenceWeighting cfg results).
  unfold resolveByConsensus.
  pose proof (majority_loop (countByAction weighted)
                (rangeKeys (s_counts rt) (countByAction weighted)) ("", 0%Z)) as Hloop.
  simpl in Hloop. destruct Hloop as (Hge & Hall & Hbest).
  set (best := foldl _ _ _) in *.
  assert (Hcount : ∀ a, (Z.of_nat (countOf a results) ≤ snd best)%Z).
  { intros a. rewrite <-(countOf_weighted cfg). fold weighted.
    destruct (countByAction_spec weighted a) as [Hg Hk].
    destruct (decide (0 < countOf a weighted)%nat) as [Hpos|Hz]; [|lia].
    rewrite <-Hg. apply Hall, elem_of_rangeKeys, Hk, Hpos. }
  assert (Hone : (1 ≤ snd best)%Z).
  { etrans; [|apply (Hcount (Action r1))]. unfold results, countOf.
    rewrite filter_cons, decide_True by done. simpl. lia. }
  destruct Hbest as [Heq|[Hin Hsnd]]; [rewrite Heq in Hone; simpl in Hone; lia|].
  rewrite (proj1 (countByAction_spec weighted (fst best))) in Hsnd.
  destruct (resolveByHighestConfidence_Some
              (getList (groupByAction weighted) (fst best))) as [d Hd].
  { rewrite groupByAction_lookup. fold (countOf (fst best) weighted) in Hsnd.
    intros Hnil. unfold countOf in Hsnd. rewrite Hnil in Hsnd. simpl in Hsnd. lia. }
  rewrite Hd. exists d. split; [done|].
  apply resolveByHighestConfidence_elem in Hd. rewrite groupByAction_lookup in Hd.
  apply list_elem_of_filter in Hd as [Ha Hd]. split; [done|].
  intros a. specialize (Hcount a). rewrite Ha, <-(countOf_weighted cfg (fst best)).
  fold weighted. lia.
Qed.

(** *** The labels of a [weighted_average] decision *)




(** *** A [weighted_average] without a positive mean *)



(** *** Examples *)

(** With the phishing response among the results, [security_override]
    (priority 1000) and not a rule of lower priority makes the decision. *)
Example applyPriorityRules_security_override :
  Action <$> applyPriorityRules (fixtures.config "weighted_average") (fixtures.runtime [])
               fixtures.email [fixtures.phishing; fixtures.response "spam" "none" 0.4]
  = Some "archive".
Proof. vm_compute. reflexivity. Qed.

(** A negated condition fires as the condition it negates. *)
Lemma evaluateCondition_substring_witness :
  evaluateCondition "NOT (phishing_score >= 0.8)" fixtures.email
    [fixtures.phishing; fixtures.response "spam" "none" 0.4] = true.
Proof.
  apply (evaluateCondition_substring "phishing_score >= 0.8").
  - vm_compute. reflexivity.
  - vm_compute. reflexivity.
Defined.

(** A rule on the confidence alone changes nothing. *)
Lemma ResolveDecision_unrecognised_rules_witness :
  ResolveDecision (fixtures.configWith [fixtures.confidenceRule] "highest_confidence")
                  (fixtures.runtime []) fixtures.email fixtures.tieBreak
  = ResolveDecision (fixtures.configWith [] "highest_confidence")
                    (fixtures.runtime []) fixtures.email fixtures.tieBreak.
Proof.
  apply ResolveDecision_unrecognised_rules.
  - intros rule Hrule. apply list_elem_of_singleton in Hrule. subst rule.
    vm_compute. reflexivity.
  - reflexivity.
  - reflexivity.
Defined.

Lemma ResolveDecision_highest_confidence_witness :
  ∃ d, ResolveDecision (fixtures.config "highest_confidence") (fixtures.runtime [])
                       fixtures.email fixtures.votes = Ok d
       ∧ d ∈ applyConfidenceWeighting (fixtures.config "highest_confidence")
               fixtures.votes
       ∧ ∀ r, r ∈ applyConfidenceWeighting (fixtures.config "highest_confidence")
                    fixtures.votes →
              (Confidence d <? Confidence r)%float = false.
Proof.
  apply (ResolveDecision_highest_confidence (fixtures.config "highest_confidence")
           (fixtures.runtime []) fixtures.email fixtures.votes).
  - simpl. lia.
  - vm_compute. reflexivity.
  - reflexivity.
Defined.

(** The same votes under the two methods: the most confident result is
    for star, the majority for archive. *)
Example votes_by_method :
  Action <$> resolveByHighestConfidence fixtures.votes = Some "star"
  ∧ Action <$> resolveByConsensus (fixtures.runtime []) fixtures.votes = Some "archive".
Proof. vm_compute. done. Qed.

Lemma ResolveDecision_consensus_witness :
  ∃ d, ResolveDecision (fixtures.config "consensus") (fixtures.runtime [])
                       fixtures.email fixtures.votes = Ok d
       ∧ d ∈ applyConfidenceWeighting (fixtures.config "consensus") fixtures.votes
       ∧ ∀ a, countOf a fixtures.votes ≤ countOf (Action d) fixtures.votes.
Proof.
  apply (ResolveDecision_consensus (fixtures.config "consensus")
           (fixtures.runtime []) fixtures.email fixtures.votes).
  - simpl. lia.
  - vm_compute. reflexivity.
  - reflexivity.
Defined.


(** The labels of the two archive results, [bulk] once. *)
Example labelledVotes_labels :
  let d := resolveByWeightedAverage (fixtures.config "weighted_average")
             (fixtures.runtime [])
             (applyConfidenceWeighting (fixtures.config "weighted_average")
                fixtures.labelledVotes) in
  Action d = "archive"
  ∧ (Labels d = ["bulk"; "promo"] ∨ Labels d = ["promo"; "bulk"]).
Proof. vm_compute. auto. Qed.


End resolver_facts.

(* ===================================================================== *)
(** ** Classifier responses *)
(* ===================================================================== *)

Module ollama_facts.
Import types ollama.


(** The accepted response carries the fields of the object and the id of
    the profile. *)
Lemma fromObject_fields lib (obj : gmap string json) profile r :
  fromObject lib obj profile = Ok r →
  obj !! "action" = Some (JStr (Action r))
  ∧ obj !! "confidence" = Some (JNum (Confidence r))
  ∧ ProfileID r = ID profile.
Proof.
  unfold fromObject. intros Hok.
  destruct (obj !! "action") as [[| | |action| |]|]; try done.
  destruct (obj !! "confidence") as [[| |c| | |]|]; try done.
  destruct ((c <? 0)%float || (1 <? c)%float); [done|]. by simplify_eq.
Qed.


(** A response that does not decode is rejected. *)
Lemma parseClassificationResponse_undecodable lib response profile jsonStr :
  extractJSON lib response = Ok jsonStr →
  jsonUnmarshal lib jsonStr = None →
  parseClassificationResponse lib response profile = Err UnmarshalFailed.
Proof.
  intros He Hu. unfold parseClassificationResponse. by rewrite He, Hu.
Qed.



(** *** Where the JSON text is taken from *)

Lemma Contains_Index (s substr : string) (i : Z) :
  Contains s substr = false → IndexFrom i s substr = (-1)%Z.
Proof.
  revert i. induction s as [|a s IH]; intros i; rewrite Contains_unfold, IndexFrom_unfold;
    destruct (String.prefix substr _); try done. apply IH.
Qed.

(** A response without a [```json] fence: the text decoded is the span
    from the first opening brace to the last closing brace, whatever
    stands before and after. *)
Lemma extractJSON_braces lib (pre mid suf : string) :
  Contains pre "{" = false → Contains suf "}" = false →
  Contains (pre +:+ "{" +:+ mid +:+ "}" +:+ suf) fence = false →
  extractJSON lib (pre +:+ "{" +:+ mid +:+ "}" +:+ suf) = Ok ("{" +:+ mid +:+ "}").
Proof.
  intros Hpre Hsuf Hfence.
  assert (Hstart : Index (pre +:+ "{" +:+ mid +:+ "}" +:+ suf) "{"
                   = Z.of_nat (String.length pre)).
  { unfold Index. rewrite IndexFrom_fresh by done. lia. }
  assert (Hstop : LastIndex (pre +:+ "{" +:+ mid +:+ "}" +:+ suf) "}"
                  = Z.of_nat (String.length pre + S (String.length mid))).
  { unfold LastIndex.
    replace (pre +:+ "{" +:+ mid +:+ "}" +:+ suf)
      with ((pre +:+ "{" +:+ mid) +:+ String "}" suf) by (by rewrite !append_assoc).
    rewrite LastIndexFrom_fresh by done. rewrite !length_append. simpl. lia. }
  unfold extractJSON. rewrite Hfence. cbv zeta. simpl String.eqb. cbv iota.
  rewrite Hstart, Hstop.
  destruct (Z.eqb_spec (Z.of_nat (String.length pre)) (-1)); [lia|].
  destruct (Z.eqb_spec (Z.of_nat (String.length pre + S (String.length mid))) (-1));
    [lia|].
  destruct (Z.leb_spec (Z.of_nat (String.length pre + S (String.length mid)))
              (Z.of_nat (String.length pre))); [lia|]. simpl.
  f_equal.
  replace (pre +:+ "{" +:+ mid +:+ "}" +:+ suf)
    with (pre +:+ ("{" +:+ mid +:+ "}") +:+ suf) by (by rewrite !append_assoc).
  apply slice_append; [lia|]. rewrite !length_append. simpl String.length. lia.
Qed.

(** Chatter around the object is dropped: of a response without a
    [```json] fence, the parser decodes the span from the first opening
    brace to the last closing brace, and its verdict is the verdict on that
    span. *)
Theorem parseClassificationResponse_strips_chatter lib pre mid suf profile :
  Contains pre "{" = false → Contains suf "}" = false →
  Contains (pre +:+ "{" +:+ mid +:+ "}" +:+ suf) fence = false →
  parseClassificationResponse lib (pre +:+ "{" +:+ mid +:+ "}" +:+ suf) profile =
  match jsonUnmarshal lib ("{" +:+ mid +:+ "}") with
  | None => Err UnmarshalFailed
  | Some obj => fromObject lib obj profile
  end.
Proof.
  intros Hpre Hsuf Hfence. unfold parseClassificationResponse.
  by rewrite extractJSON_braces.
Qed.

(** A response that has no [```json] fence and lacks an opening or a
    closing brace is rejected before anything is decoded. *)
Theorem parseClassificationResponse_no_object lib response profile :
  Contains response fence = false →
  Contains response "{" = false ∨ Contains response "}" = false →
  parseClassificationResponse lib response profile = Err NoJSONFound.
Proof.
  intros Hfence Hbrace. unfold parseClassificationResponse, extractJSON.
  rewrite Hfence. simpl String.eqb. unfold Index, LastIndex.
  destruct Hbrace as [Hb|Hb].
  - by rewrite (Contains_Index _ _ _ Hb).
  - rewrite (LastIndexFrom_none _ _ _ Hb). simpl. by rewrite orb_true_r.
Qed.

(** A [```json] block takes precedence over everything else in the
    response: the text decoded is the body of the first block, trimmed,
    whether the block is closed or the response ends inside it. *)
Theorem parseClassificationResponse_fenced lib pre body suf profile :
  Contains pre "`" = false → Contains body "`" = false →
  TrimSpace lib body ≠ "" →
  let verdict :=
    match jsonUnmarshal lib (TrimSpace lib body) with
    | None => Err UnmarshalFailed
    | Some obj => fromObject lib obj profile
    end in
  parseClassificationResponse lib (pre +:+ fence +:+ body +:+ "```" +:+ suf) profile
  = verdict
  ∧ parseClassificationResponse lib (pre +:+ fence +:+ body) profile = verdict.
Proof.
  intros Hpre Hbody Htrim verdict.
  assert (Hlen : ∀ rest, String.length (pre +:+ fence +:+ rest)
                         = (String.length pre + 7 + String.length rest)%nat).
  { intros rest. rewrite !length_append. simpl. lia. }
  assert (Hextract : ∀ rest,
    Index rest "```" = (-1)%Z ∧ rest = body
    ∨ (∃ suf', rest = body +:+ "```" +:+ suf') →
    extractJSON lib (pre +:+ fence +:+ rest) = Ok (TrimSpace lib body)).
  { intros rest Hrest.
    assert (Hc : Contains (pre +:+ fence +:+ rest) fence = true)
      by (apply Contains_spec; by exists pre, rest).
    assert (Hstart : Index (pre +:+ fence +:+ rest) fence
                     = Z.of_nat (String.length pre)).
    { unfold Index, fence. rewrite IndexFrom_fresh by done. lia. }
    assert (Hrest' : slice (pre +:+ fence +:+ rest)
                       (Z.of_nat (String.length pre) + 7)
                       (Z.of_nat (String.length (pre +:+ fence +:+ rest))) = rest).
    { replace (pre +:+ fence +:+ rest) with ((pre +:+ fence) +:+ rest +:+ "") at 1
        by (by rewrite append_nil_r, append_assoc).
      apply slice_append; rewrite ?Hlen, !length_append; simpl; lia. }
    unfold extractJSON. rewrite Hc. cbv zeta. rewrite Hstart.
    destruct (Z.eqb_spec (Z.of_nat (String.length pre)) (-1)); [lia|].
    rewrite Hrest'.
    destruct Hrest as [[Hnone ->]|[suf' ->]].
    - rewrite Hnone. simpl.
      destruct (String.eqb_spec (TrimSpace lib body) ""); done.
    - assert (Hstop : Index (body +:+ "```" +:+ suf') "```"
                      = Z.of_nat (String.length body)).
      { unfold Index. rewrite (IndexFrom_fresh "`" "``" body suf' 0 Hbody). lia. }
      rewrite Hstop.
      destruct (Z.eqb_spec (Z.of_nat (String.length body)) (-1)); [lia|].
      replace (pre +:+ fence +:+ body +:+ "```" +:+ suf')
        with ((pre +:+ fence) +:+ body +:+ "```" +:+ suf')
        by (by rewrite append_assoc).
      rewrite slice_append; [|rewrite length_append; simpl; lia..].
      destruct (String.eqb_spec (TrimSpace lib body) ""); done. }
  unfold parseClassificationResponse. split.
  - rewrite Hextract; [done|]. right. by exists suf.
  - rewrite Hextract; [done|]. left. split; [|done].
    unfold Index. by apply IndexFrom_none.
Qed.

(** *** The prompt *)

Lemma Contains_here (pre s suf : string) : Contains (pre +:+ s +:+ suf) s = true.
Proof. apply Contains_spec. by exists pre, suf. Qed.

Lemma Contains_right (pre s sub : string) :
  Contains s sub = true → Contains (pre +:+ s) sub = true.
Proof.
  intros H. rewrite <-(append_nil_r s). by apply Contains_append.
Qed.

Lemma Contains_left (s suf sub : string) :
  Contains s sub = true → Contains (s +:+ suf) sub = true.
Proof.
  intros H. rewrite <-(append_nil_l (s +:+ suf)). by apply Contains_append.
Qed.

Lemma Contains_examples (examples : list FewShotExample) example sub :
  example ∈ examples → Contains (exampleBlock example) sub = true →
  Contains (String.concat "" (map exampleBlock examples)) sub = true.
Proof.
  intros Hin Hsub. induction examples as [|x [|y examples] IH].
  - by apply elem_of_nil in Hin.
  - apply list_elem_of_singleton in Hin. by subst x.
  - change (String.concat "" (map exampleBlock (x :: y :: examples)))
      with (exampleBlock x +:+ "" +:+ String.concat "" (map exampleBlock (y :: examples))).
    apply elem_of_cons in Hin as [->|Hin].
    + by apply Contains_left.
    + rewrite append_nil_l. apply Contains_right. by apply IH.
Qed.

(** The prompt holds the system prompt of the profile, the input and the
    output of every few-shot example, and the subject, the sender and the
    body of the email as they are: nothing is escaped, shortened or
    removed. *)
Theorem buildClassificationPrompt_verbatim profile email :
  let prompt := buildClassificationPrompt profile email in
  Contains prompt (System profile) = true
  ∧ Contains prompt (em_Subject email) = true
  ∧ Contains prompt (em_From email) = true
  ∧ Contains prompt (em_Body email) = true
  ∧ ∀ example, example ∈ FewShot profile →
      Contains prompt (fs_Input example) = true
      ∧ Contains prompt (fs_Output example) = true.
Proof.
  unfold buildClassificationPrompt. split_and!.
  - apply Contains_here.
  - do 6 apply Contains_right. do 2 apply Contains_right. apply Contains_here.
  - do 6 apply Contains_right. do 5 apply Contains_right. apply Contains_here.
  - do 6 apply Contains_right. do 11 apply Contains_right. apply Contains_here.
  - intros example Hin. split.
    + do 5 apply Contains_right. apply Contains_left.
      apply (Contains_examples _ example); [done|]. unfold exampleBlock.
      do 3 apply Contains_right. apply Contains_here.
    + do 5 apply Contains_right. apply Contains_left.
      apply (Contains_examples _ example); [done|]. unfold exampleBlock.
      do 6 apply Contains_right. apply Contains_here.
Qed.

(** *** Examples *)

Lemma parseClassificationResponse_strips_chatter_witness :
  parseClassificationResponse fixtures.parserLib
    ("Sure, here it is: " +:+ "{" +:+ "loose" +:+ "}" +:+ " I hope this helps.")
    fixtures.strictProfile
  = match jsonUnmarshal fixtures.parserLib ("{" +:+ "loose" +:+ "}") with
    | None => Err UnmarshalFailed
    | Some obj => fromObject fixtures.parserLib obj fixtures.strictProfile
    end.
Proof.
  apply (parseClassificationResponse_strips_chatter fixtures.parserLib
           "Sure, here it is: " "loose" " I hope this helps.").
  - vm_compute. reflexivity.
  - vm_compute. reflexivity.
  - vm_compute. reflexivity.
Defined.

Lemma parseClassificationResponse_no_object_witness :
  parseClassificationResponse fixtures.parserLib "I cannot classify this email."
    fixtures.strictProfile = Err NoJSONFound.
Proof.
  apply parseClassificationResponse_no_object.
  - vm_compute. reflexivity.
  - left. vm_compute. reflexivity.
Defined.

(** The braces that stand before the block are not looked at. *)
Lemma parseClassificationResponse_fenced_witness :
  let verdict :=
    match jsonUnmarshal fixtures.parserLib
            (TrimSpace fixtures.parserLib "{loose}") with
    | None => Err UnmarshalFailed
    | Some obj => fromObject fixtures.parserLib obj fixtures.strictProfile
    end in
  parseClassificationResponse fixtures.parserLib
    ("As JSON {see below}: " +:+ fence +:+ "{loose}" +:+ "```" +:+ " Done.")
    fixtures.strictProfile = verdict
  ∧ parseClassificationResponse fixtures.parserLib
      ("As JSON {see below}: " +:+ fence +:+ "{loose}") fixtures.strictProfile
    = verdict.
Proof.
  apply (parseClassificationResponse_fenced fixtures.parserLib
           "As JSON {see below}: " "{loose}" " Done.").
  - vm_compute. reflexivity.
  - vm_compute. reflexivity.
  - discriminate.
Defined.

(** Without the block, the same braces would be taken for the object. *)
Example parseClassificationResponse_first_brace :
  extractJSON fixtures.parserLib "As JSON {see below}: {loose}"
  = Ok "{see below}: {loose}".
Proof. vm_compute. reflexivity. Qed.

End ollama_facts.

(* ===================================================================== *)
(** ** The audit chain *)
(* ===================================================================== *)

Module audit_facts.
Import audit.

(** [writeEntry] appends at most one line and changes nothing else of the
    file. *)
Lemma writeEntry_appends lib out l entry lines :
  file l = Some lines →
  file (fst (writeEntry lib out l entry)) = Some lines
  ∨ ∃ e, file (fst (writeEntry lib out l entry)) = Some (lines ++ [e])
         ∧ EventType e = EventType entry ∧ PrevHash e = PrevHash entry
         ∧ Hash e = Hash entry.
Proof.
  intros Hf. unfold writeEntry.
  set (signed := if String.eqb (EncryptionKey (config l)) "" then entry
                 else match signEntry out l entry with
                      | Some signature => withSignature signature entry
                      | None => entry
                      end).
  assert (Hs : EventType signed = EventType entry ∧ PrevHash signed = PrevHash entry
               ∧ Hash signed = Hash entry).
  { unfold signed. destruct (String.eqb _ ""); [done|].
    by destruct (signEntry out l entry). }
  destruct (marshalEntry lib signed); simpl; [|by left].
  rewrite Hf. destruct (writeOk out); simpl; [|by left].
  right. exists signed. split; [|done]. by destruct (syncOk out).
Qed.

(** Whatever happens, a call of [NewLogger] on an empty file leaves in it
    nothing but a genesis entry. *)
Lemma NewLogger_lines lib out cfg e :
  e ∈ snd (NewLogger lib out cfg []) →
  snd (NewLogger lib out cfg []) = [e]
  ∧ PrevHash e = "" ∧ EventType e = "chain_genesis".
Proof.
  unfold NewLogger. destruct (Enabled cfg); simpl; [|by intros ?%elem_of_nil].
  destruct (mkdirOk out); simpl; [|by intros ?%elem_of_nil].
  destruct (openOk out); simpl; [|by intros ?%elem_of_nil].
  destruct (statOk out); simpl; [|by intros ?%elem_of_nil].
  unfold initializeChain.
  set (l0 := withLastHash _ _).
  destruct (writeEntry_appends lib out l0 (genesisEntry lib out) [] eq_refl)
    as [Hsame|(g & Hg & Het & Hph & _)].
  - destruct (writeEntry lib out l0 (genesisEntry lib out)) as [l1 [err|]];
      simpl in *; rewrite Hsame; simpl; by intros ?%elem_of_nil.
  - destruct (writeEntry lib out l0 (genesisEntry lib out)) as [l1 [err|]];
      simpl in *; rewrite Hg; simpl; intros ->%list_elem_of_singleton; done.
Qed.


(** With no failure outside, the logger is returned. *)
Lemma NewLogger_succeeds lib out cfg :
  mkdirOk out = true → openOk out = true → writeOk out = true → syncOk out = true →
  (∀ e, marshalEntry lib e = true) →
  isOk (fst (NewLogger lib out cfg [])) = true.
Proof.
  intros Hm Ho Hw Hs Hj. unfold NewLogger.
  destruct (Enabled cfg); simpl; [|done]. rewrite Hm, Ho. simpl.
  destruct (statOk out); simpl; [|done].
  unfold initializeChain, writeEntry. rewrite Hj, Hw, Hs. done.
Qed.

(** Later events are appended after the genesis entry. *)
Lemma LogSystemEvent_keeps_first lib out l eventType metadata g rest :
  file l = Some (g :: rest) →
  ∃ rest', file (fst (LogSystemEvent lib out l eventType metadata))
           = Some (g :: rest').
Proof.
  intros Hf. unfold LogSystemEvent. destruct (Enabled (config l)); simpl; [|eauto].
  set (entry := withHash _ _). set (l1 := Build_Logger _ _ _ _).
  destruct (writeEntry_appends lib out l1 entry (g :: rest) Hf)
    as [->|(e & -> & _)]; eauto.
Qed.


(** When the sync fails the call returns an error, and the genesis entry
    is in the file all the same. *)
Lemma NewLogger_lines_witness :
  snd (NewLogger fixtures.auditLib fixtures.outsideSyncFails fixtures.auditConfig [])
  = [genesisEntry fixtures.auditLib fixtures.outsideSyncFails]
  ∧ PrevHash (genesisEntry fixtures.auditLib fixtures.outsideSyncFails) = ""
  ∧ EventType (genesisEntry fixtures.auditLib fixtures.outsideSyncFails)
    = "chain_genesis".
Proof.
  apply (NewLogger_lines fixtures.auditLib fixtures.outsideSyncFails
           fixtures.auditConfig).
  vm_compute. apply list_elem_of_here.
Defined.

Example NewLogger_sync_failure :
  fst (NewLogger fixtures.auditLib fixtures.outsideSyncFails fixtures.auditConfig [])
  = Err (InitChainFailed SyncFailed).
Proof. reflexivity. Qed.

(** A system-start event logged after the genesis entry. *)
Lemma LogSystemEvent_keeps_first_witness :
  ∃ rest',
    file (fst (LogSystemEvent fixtures.auditLib fixtures.outside
                 {| config := fixtures.auditConfig;
                    file := Some [genesisEntry fixtures.auditLib fixtures.outside];
                    entryCount := 0;
                    lastHash := Hash (genesisEntry fixtures.auditLib fixtures.outside) |}
                 EventSystemStart None))
    = Some (genesisEntry fixtures.auditLib fixtures.outside :: rest').
Proof.
  apply (LogSystemEvent_keeps_first fixtures.auditLib fixtures.outside
           {| config := fixtures.auditConfig;
              file := Some [genesisEntry fixtures.auditLib fixtures.outside];
              entryCount := 0;
              lastHash := Hash (genesisEntry fixtures.auditLib fixtures.outside) |}
           EventSystemStart None (genesisEntry fixtures.auditLib fixtures.outside) []).
  reflexivity.
Defined.


(** *** The hash chain *)

(** Enters a log operation of an enabled logger: the test on [Enabled] is
    decided by [H] and the [let]s of the body are unfolded, [writeEntry]
    staying folded. *)
Ltac enabled H := rewrite H; change (negb true) with false; cbv iota zeta.

Lemma calculateHash_withHash lib h e : calculateHash lib (withHash h e) = calculateHash lib e.
Proof. done. Qed.

Lemma calculateHash_withSignature lib s e :
  calculateHash lib (withSignature s e) = calculateHash lib e.
Proof. done. Qed.

(** A successful [writeEntry] appends the entry, signed or not, and
    changes nothing else. *)
Lemma writeEntry_ok lib out l entry l' :
  writeEntry lib out l entry = (l', None) →
  ∃ lines e, file l = Some lines ∧ l' = withFile (lines ++ [e]) l
             ∧ Hash e = Hash entry ∧ PrevHash e = PrevHash entry
             ∧ Metadata e = Metadata entry
             ∧ calculateHash lib e = calculateHash lib entry.
Proof.
  unfold writeEntry.
  set (signed := if String.eqb (EncryptionKey (config l)) "" then entry
                 else match signEntry out l entry with
                      | Some signature => withSignature signature entry
                      | None => entry
                      end).
  assert (Hs : Hash signed = Hash entry ∧ PrevHash signed = PrevHash entry
               ∧ Metadata signed = Metadata entry
               ∧ calculateHash lib signed = calculateHash lib entry).
  { unfold signed. destruct (String.eqb _ _); [done|].
    by destruct (signEntry out l entry). }
  destruct (marshalEntry lib signed); [|done]. simpl.
  destruct (file l) as [lines|] eqn:Hf; [|done].
  destruct (writeOk out); [|done]. destruct (syncOk out); [|done]. simpl.
  intros ?; simplify_eq. exists lines, signed. by destruct Hs as (? & ? & ? & ?).
Qed.

(** A [writeEntry] that fails otherwise than on the sync leaves the
    logger as it was. *)
Lemma writeEntry_failed lib out l entry l' err :
  writeEntry lib out l entry = (l', Some err) → err ≠ SyncFailed → l' = l.
Proof.
  unfold writeEntry. destruct (marshalEntry lib _); simpl; [|by intros ?; simplify_eq].
  destruct (file l) as [lines|]; [|by intros ?; simplify_eq].
  destruct (writeOk out); simpl; [|by intros ?; simplify_eq].
  destruct (syncOk out); simpl; intros ?; by simplify_eq.
Qed.




Lemma lastOf_cons prev e entries : lastOf prev (e :: entries) = lastOf (Hash e) entries.
Proof.
  unfold lastOf. destruct entries as [|x entries]; [done|]. rewrite last_cons_cons.
  destruct (last (x :: entries)) eqn:Hl; [done|]. by apply last_None in Hl.
Qed.


(** The verification loop on a concatenation. *)
Lemma verifyEntries_app lib vf l i prev xs ys :
  verifyEntries lib vf l i prev (xs ++ ys) =
  match verifyEntries lib vf l i prev xs with
  | Some e => Some e
  | None => verifyEntries lib vf l (i + length xs) (lastOf prev xs) ys
  end.
Proof.
  revert i prev. induction xs as [|x xs IH]; intros i prev; simpl.
  - unfold lastOf. simpl. by rewrite Nat.add_0_r.
  - rewrite IH, lastOf_cons.
    replace (S i + length xs) with (i + S (length xs)) by lia.
    repeat case_match; by simplify_eq.
Qed.

(** The loop accepts linked lists only, and finds neither a hash mismatch
    nor a chain break in a linked list. *)
Lemma verifyEntries_None_linked lib vf l i prev entries :
  verifyEntries lib vf l i prev entries = None → linked lib prev entries.
Proof.
  revert i prev. induction entries as [|x entries IH]; intros i prev; simpl; [done|].
  destruct (String.eqb_spec (Hash x) (calculateHash lib x)); [|done]. simpl.
  destruct (String.eqb_spec (PrevHash x) prev); [|done]. simpl.
  case_match; [done|]. intros Hv. split_and!; [done..|].
  by eapply IH.
Qed.





(** [VerifyChain] and [VerifyIntegrity] never report anything, whatever
    the log file holds: the entries are not read. *)
Theorem VerifyChain_vacuous lib vf l :
  VerifyChain lib vf l = None ∧ VerifyIntegrity l = (true, None).
Proof.
  split; [|done]. unfold VerifyChain, readAllEntries.
  by destruct (negb (Enabled (config l)) || negb (IntegrityCheck (config l))).
Qed.



(** [LogClassification] and [LogAction] append an entry that carries no
    hash and names no predecessor, and leave the logger's last hash and
    count alone: the loop of [VerifyChain], run on the lines of the
    file, stops with an error. *)
Theorem unchained_call_fails_verification lib enc vf out l c l' :
  Enabled (config l) = true → chained c = false →
  call lib enc out l c = (l', None) →
  ∃ lines e, file l = Some lines ∧ file l' = Some (lines ++ [e])
             ∧ Hash e = "" ∧ PrevHash e = ""
             ∧ lastHash l' = lastHash l ∧ entryCount l' = entryCount l
             ∧ ((∀ data, sha256hex lib data ≠ "") →
                is_Some (verifyEntries lib vf l' 0 "" (lines ++ [e]))).
Proof.
  intros He Hc Hcall.
  assert (∃ entry, call lib enc out l c = writeEntry lib out l entry
                   ∧ Hash entry = "" ∧ PrevHash entry = "") as (entry & Heq & Hh & Hp).
  { destruct c; try done; simpl; [unfold LogClassification|unfold LogAction];
      enabled He; eexists; (split; [reflexivity|]); done. }
  rewrite Heq in Hcall.
  apply writeEntry_ok in Hcall as (lines & e & Hf & -> & Hhe & Hpe & _ & Hce).
  exists lines, e. simpl. split_and!; [done|done|congruence|congruence|done|done|].
  intros Hsha. rewrite verifyEntries_app.
  destruct (verifyEntries lib vf _ 0 "" lines); [eauto|]. simpl.
  destruct (String.eqb_spec (Hash e) (calculateHash lib e)) as [Heq'|_]; simpl; [|eauto].
  exfalso. rewrite Hhe, Hh in Heq'. unfold calculateHash in Heq'.
  by eapply Hsha.
Qed.

(** [Close] does not report a [system_stop] entry that could not be
    written: when the write fails, the file is left as it was and [Close]
    returns what closing the file returns. *)
Theorem Close_drops_write_error lib enc out closeOk l lines :
  Enabled (config l) = true → file l = Some lines → writeOk out = false →
  file (fst (Close lib enc out closeOk l)) = Some lines
  ∧ snd (Close lib enc out closeOk l)
    = if closeOk then None else Some FileCloseFailed.
Proof.
  intros He Hf Hw. unfold Close. rewrite He, Hf. simpl. split; [|done].
  unfold LogSystemEvent. enabled He.
  destruct (writeEntry _ _ _ _) as [l1 [err|]] eqn:Hwrite.
  - apply writeEntry_failed in Hwrite; [by subst l1|].
    intros ->. unfold writeEntry in Hwrite. rewrite Hw in Hwrite.
    repeat case_match; simplify_eq.
  - unfold writeEntry in Hwrite. rewrite Hw in Hwrite.
    repeat case_match; simplify_eq.
Qed.

(** *** The metadata of a security violation *)

Lemma mergeMetadata_lookup (keys : list string) (metadata : gmap string json) :
  ∀ (base : gmap string json) k,
  foldl (λ m k, match metadata !! k with
                | Some v => <[k := v]> m
                | None => m
                end) base keys !! k
  = if decide (k ∈ keys) then
      match metadata !! k with Some v => Some v | None => base !! k end
    else base !! k.
Proof.
  induction keys as [|x keys IH]; intros base k; simpl; [done|].
  rewrite IH. destruct (decide (k = x)) as [->|Hne].
  - rewrite (decide_True (P := x ∈ x :: keys)) by (by left).
    destruct (metadata !! x) as [v|] eqn:Hx; [|by case_decide].
    rewrite lookup_insert_eq. by case_decide.
  - assert (Haux : match metadata !! x with
                    | Some v => <[x := v]> base
                    | None => base
                    end !! k = base !! k)
      by (destruct (metadata !! x); [by rewrite lookup_insert_ne|done]).
    rewrite Haux. destruct (decide (k ∈ keys)) as [Hin|Hn].
    + by rewrite (decide_True (P := k ∈ x :: keys)) by (by right).
    + by rewrite (decide_False (P := k ∈ x :: keys))
        by (by intros [?|?]%elem_of_cons).
Qed.

Lemma mergeMetadata_union cs (base metadata : gmap string json) :
  mergeMetadata cs base metadata = metadata ∪ base.
Proof.
  apply map_eq. intros k. unfold mergeMetadata.
  rewrite mergeMetadata_lookup, lookup_union.
  case_decide as Hk.
  - by destruct (metadata !! k), (base !! k).
  - rewrite elem_of_rangeKeys in Hk. apply eq_None_not_Some in Hk. rewrite Hk.
    by destruct (base !! k).
Qed.

(** The entry [LogSecurityViolation] writes holds the caller's metadata
    and, under the keys the caller did not use, the violation type and
    the description: a caller's [violation_type] or [description]
    replaces the argument of that name, in whatever order the map is
    ranged over. *)
Theorem LogSecurityViolation_metadata lib out cs l violationType description
    (metadata : gmap string json) l' :
  Enabled (config l) = true →
  LogSecurityViolation lib out cs l violationType description metadata = (l', None) →
  ∃ lines e, file l = Some lines ∧ file l' = Some (lines ++ [e])
             ∧ Metadata e = Some (metadata ∪ {[ "violation_type" := JStr violationType;
                                                "description" := JStr description ]}).
Proof.
  intros He. unfold LogSecurityViolation. enabled He.
  intros (lines & e & Hf & -> & _ & _ & Hm & _)%writeEntry_ok.
  exists lines, e. simpl in *. split_and!; [done..|].
  by rewrite Hm, mergeMetadata_union.
Qed.

(** *** Examples *)



(** The restarted log of the example does not verify. *)
Example restart_chain_break :
  verifyEntries fixtures.auditLib fixtures.verifier fixtures.reopenedLogger 0 ""
    (default [] (file (fst (call fixtures.auditLib fixtures.encoding fixtures.outside
                              fixtures.reopenedLogger
                              (CallSystemEvent EventSystemStart None)))))
  = Some (ChainBreak 1 (Hash (genesisEntry fixtures.auditLib fixtures.outside)) "").
Proof. vm_compute. reflexivity. Qed.


(** The calls of the repository's end-to-end test: a classification and
    an action, logged with the operations that do not chain. *)
Lemma unchained_call_fails_verification_witness :
  let l' := fst (call fixtures.auditLib fixtures.encoding fixtures.outside
                   fixtures.freshLogger
                   (CallAction fixtures.email "archive" "spam")) in
  ∃ lines e, file fixtures.freshLogger = Some lines ∧ file l' = Some (lines ++ [e])
             ∧ Hash e = "" ∧ PrevHash e = ""
             ∧ lastHash l' = lastHash fixtures.freshLogger
             ∧ entryCount l' = entryCount fixtures.freshLogger
             ∧ ((∀ data, sha256hex fixtures.auditLib data ≠ "") →
                is_Some (verifyEntries fixtures.auditLib fixtures.verifier l' 0 ""
                           (lines ++ [e]))).
Proof.
  apply (unchained_call_fails_verification fixtures.auditLib fixtures.encoding
           fixtures.verifier fixtures.outside fixtures.freshLogger
           (CallAction fixtures.email "archive" "spam")).
  - reflexivity.
  - reflexivity.
  - vm_compute. reflexivity.
Defined.

(** The log of that test fails the loop of [VerifyChain], and
    [VerifyChain] and [VerifyIntegrity] report nothing. *)
Example unchained_log_passes_VerifyChain :
  let l := fst (call fixtures.auditLib fixtures.encoding fixtures.outside
                  (fst (call fixtures.auditLib fixtures.encoding fixtures.outside
                          fixtures.freshLogger
                          (CallClassification fixtures.email
                             (fixtures.response "spam" "delete" 0.95))))
                  (CallAction fixtures.email "archive" "spam")) in
  length (default [] (file l)) = 3
  ∧ hashVerdict (verifyEntries fixtures.auditLib fixtures.verifier l 0 ""
                   (default [] (file l))) = true
  ∧ VerifyChain fixtures.auditLib fixtures.verifier l = None
  ∧ VerifyIntegrity l = (true, None).
Proof. vm_compute. done. Qed.

(** A caller's [violation_type] replaces the argument. *)
Lemma LogSecurityViolation_metadata_witness :
  let metadata : gmap string json :=
    {[ "violation_type" := JStr "spoofed_sender"; "source" := JStr "gateway" ]} in
  let l' := fst (LogSecurityViolation fixtures.auditLib fixtures.outside [1]
                   fixtures.freshLogger "prompt_injection" "Suspicious body" metadata) in
  ∃ lines e, file fixtures.freshLogger = Some lines ∧ file l' = Some (lines ++ [e])
             ∧ Metadata e
               = Some (metadata ∪ {[ "violation_type" := JStr "prompt_injection";
                                     "description" := JStr "Suspicious body" ]}).
Proof.
  apply (LogSecurityViolation_metadata fixtures.auditLib fixtures.outside [1]
           fixtures.freshLogger "prompt_injection" "Suspicious body").
  - reflexivity.
  - vm_compute. reflexivity.
Defined.

Example LogSecurityViolation_overridden :
  let metadata : gmap string json :=
    {[ "violation_type" := JStr "spoofed_sender"; "source" := JStr "gateway" ]} in
  (metadata ∪ {[ "violation_type" := JStr "prompt_injection";
                 "description" := JStr "Suspicious body" ]}) !! "violation_type"
  = Some (JStr "spoofed_sender").
Proof. vm_compute. reflexivity. Qed.

(** The write of the stop event fails, and [Close] returns nil. *)
Lemma Close_drops_write_error_witness :
  file (fst (Close fixtures.auditLib fixtures.encoding fixtures.outsideWriteFails true
               fixtures.freshLogger))
  = Some [genesisEntry fixtures.auditLib fixtures.outside]
  ∧ snd (Close fixtures.auditLib fixtures.encoding fixtures.outsideWriteFails true
           fixtures.freshLogger) = None.
Proof.
  apply (Close_drops_write_error fixtures.auditLib fixtures.encoding
           fixtures.outsideWriteFails true fixtures.freshLogger); reflexivity.
Defined.

End audit_facts.
